(** * Container yard planner: the allocation engine of yardplannerV2E6.py

    A shallow embedding of the classes [Container], [YardPosition],
    [YardArea] and [AdvancedYardLayoutOptimizer], followed by the
    properties of the placement search, the two layout strategies and the
    result compilation.

    Conventions of the embedding.
    - Python integers are [Z]; list lengths are converted with [Z.of_nat].
    - Gross weights and the derived percentages are rationals ([Q]).  The
      source only compares weights with decimal literals; it never does
      arithmetic on them.  The product [len(group) * 0.8] of the inbound
      threshold is taken exactly; it is only ever compared with an integer
      count.
    - Dictionaries whose iteration order matters (the zones, the usage
      counters, the placement map, the groups) are insertion-ordered
      association lists.
    - Objects mutated in place (slots, zones) are threaded explicitly;
      a reference into a list of slots is an index into that list.  A slot
      holds its containers as they were when they were stacked.
    - Exceptions are values of [Exn]; a computation that may raise has
      type [result A].
    - The random module is an oracle: a stream [nat -> nat] and a cursor. *)

From Stdlib Require Import List String Ascii ZArith QArith Qround Lia Lqa Bool Arith.
From Stdlib Require Import DecimalString Permutation Sorted.
Import ListNotations.

Local Open Scope string_scope.
Local Open Scope list_scope.
Local Open Scope Z_scope.

Set Implicit Arguments.

(** ** Exceptions *)

Inductive Exn : Type :=
| KeyError
| ZeroDivisionError.

Inductive result (A : Type) : Type :=
| Ok (a : A)
| Raise (e : Exn).

Arguments Ok {A} a.
Arguments Raise {A} e.

Definition bind {A B} (m : result A) (k : A -> result B) : result B :=
  match m with
  | Ok a => k a
  | Raise e => Raise e
  end.

Notation "x <- m ;; k" := (bind m (fun x => k))
  (at level 61, m at next level, right associativity).
Notation "' pat <- m ;; k" := (bind m (fun x => match x with pat => k end))
  (at level 61, pat pattern, m at next level, right associativity).

(** A plain [for] loop whose body may raise. *)
Fixpoint foldM {A S} (f : S -> A -> result S) (l : list A) (s : S) : result S :=
  match l with
  | [] => Ok s
  | a :: l' => s' <- f s a ;; foldM f l' s'
  end.

(** ** Insertion-ordered dictionaries *)

Section Dict.
Variables K V : Type.
Variable eqb : K -> K -> bool.

Definition dict := list (K * V).

Fixpoint dict_get (d : dict) (k : K) : option V :=
  match d with
  | [] => None
  | (k', v) :: d' => if eqb k' k then Some v else dict_get d' k
  end.

Definition dict_mem (d : dict) (k : K) : bool :=
  match dict_get d k with Some _ => true | None => false end.

(** [d[k] = v]: an existing key keeps its place, a new key goes last. *)
Fixpoint dict_set (d : dict) (k : K) (v : V) : dict :=
  match d with
  | [] => [(k, v)]
  | (k', v') :: d' =>
      if eqb k' k then (k', v) :: d' else (k', v') :: dict_set d' k v
  end.

(** [d.update(e)] *)
Definition dict_update (d e : dict) : dict :=
  fold_left (fun acc kv => dict_set acc (fst kv) (snd kv)) e d.

(** [d[k]] as an expression: raises [KeyError] on a missing key. *)
Definition dict_lookup (d : dict) (k : K) : result V :=
  match dict_get d k with
  | Some v => Ok v
  | None => Raise KeyError
  end.

Definition dict_keys (d : dict) : list K := map fst d.
Definition dict_values (d : dict) : list V := map snd d.
End Dict.

(** ** The random module *)

Definition Oracle := nat -> nat.

(** [random.choice([6, 12])] *)
Definition random_choice_6_12 (rnd : Oracle) (k : nat) : Z :=
  if Nat.even (rnd k) then 6 else 12.

(** [random.randint(1, 8)] *)
Definition random_randint_1_8 (rnd : Oracle) (k : nat) : Z :=
  1 + Z.of_nat (rnd k mod 8).

(** ** Strings *)

(** [needle in haystack] *)
Fixpoint str_contains (needle haystack : string) : bool :=
  if prefix needle haystack then true
  else match haystack with
       | EmptyString => false
       | String _ rest => str_contains needle rest
       end.

(** [str(n)] for an integer *)
Definition str_of_Z (n : Z) : string := NilZero.string_of_int (Z.to_int n).

Definition oeqb (a b : option string) : bool :=
  match a, b with
  | Some x, Some y => String.eqb x y
  | None, None => true
  | _, _ => false
  end.

(** ** class Container *)

Record Container : Type := mkContainer {
  unit_number : string;
  iso_type : string;
  transporter : option string;
  weight : option Q;
  port : option string;
  category : string;
  size : Z;
  weight_class : Z;
  priority : Z
}.

Definition _determine_size (iso : string) (rnd : Oracle) (k : nat) : Z * nat :=
  if negb (String.eqb iso "") && str_contains "45" iso then (12, k)
  else if negb (String.eqb iso "")
          && (str_contains "22" iso || str_contains "20" iso) then (6, k)
  else (random_choice_6_12 rnd k, S k).

(** The table of bands, in the order the dictionary literal lists them. *)
Definition weight_classes : list (Z * (Q * Q)) :=
  [ (1, (0, 18.9)%Q); (2, (19, 23.4)%Q); (3, (23.5, 25.4)%Q);
    (4, (25.5, 26.6)%Q); (5, (26.7, 28.4)%Q); (6, (28.5, 30)%Q);
    (7, (30.1, 31)%Q); (8, (31.1, 50)%Q) ].

(** [for class_id, (min_w, max_w) in table: if min_w <= w <= max_w: return
    class_id] followed by [return 8]. *)
Fixpoint first_band (table : list (Z * (Q * Q))) (w : Q) : Z :=
  match table with
  | [] => 8
  | (class_id, (min_w, max_w)) :: rest =>
      if Qle_bool min_w w && Qle_bool w max_w then class_id
      else first_band rest w
  end.

Definition _determine_weight_class (w : option Q) (rnd : Oracle) (k : nat)
  : Z * nat :=
  match w with
  | None => (random_randint_1_8 rnd k, S k)
  | Some x => (first_band weight_classes x, k)
  end.

Definition _determine_priority (cat : string) : Z :=
  if String.eqb cat "Dangerous" then 1
  else if String.eqb cat "Reefer" then 2
  else if String.eqb cat "Out-of-Gauge" then 1
  else 3.

(** [Container.__init__]; the oracle cursor advances as the two random
    calls are made. *)
Definition Container_init (rnd : Oracle) (k : nat)
    (unit_number0 iso : string) (transporter0 : option string)
    (weight0 : option Q) (port0 : option string) (category0 : string)
  : Container * nat :=
  let '(sz, k1) := _determine_size iso rnd k in
  let '(wc, k2) := _determine_weight_class weight0 rnd k1 in
  (mkContainer unit_number0 iso transporter0 weight0 port0 category0
               sz wc (_determine_priority category0), k2).

(** ** class YardPosition *)

Record YardPosition : Type := mkYardPosition {
  area : string;
  row : Z;
  column : string;
  max_tiers : Z;
  containers : list Container;
  available_tiers : Z;
  container_length : option Z;
  is_reefer_position : bool
}.

Definition _get_container_length (row0 : Z) : option Z :=
  if row0 mod 4 =? 0 then None
  else if row0 mod 2 =? 0 then Some 12
  else Some 6.

Definition Z_in (x : Z) (l : list Z) : bool := existsb (Z.eqb x) l.

Definition _check_reefer_position (area0 : string) (row0 : Z) : bool :=
  if String.eqb area0 "M2" then true
  else if String.eqb area0 "Q1" && Z_in row0 [2; 6; 10] then true
  else if String.eqb area0 "Q2" && Z_in row0 [2; 6; 10; 12] then true
  else false.

Definition YardPosition_init (area0 : string) (row0 : Z) (column0 : string)
    (max_tiers0 : Z) : YardPosition :=
  mkYardPosition area0 row0 column0 max_tiers0 [] max_tiers0
                 (_get_container_length row0)
                 (_check_reefer_position area0 row0).

Definition length_differs (l : option Z) (sz : Z) : bool :=
  match l with
  | Some n => negb (n =? sz)
  | None => true
  end.

Definition can_place_container (p : YardPosition) (c : Container)
    (area_weight_classes : list Z) : bool :=
  if length_differs (container_length p) (size c) then false
  else if available_tiers p <=? 0 then false
  else if negb (Z_in (weight_class c) area_weight_classes) then false
  else if String.eqb (category c) "Reefer" && negb (is_reefer_position p)
       then false
  else true.

(** [YardPosition.place_container]: the slot after the call and the
    returned boolean. *)
Definition slot_place_container (p : YardPosition) (c : Container)
  : YardPosition * bool :=
  if available_tiers p <=? 0 then (p, false)
  else (mkYardPosition (area p) (row p) (column p) (max_tiers p)
                       (containers p ++ [c]) (available_tiers p - 1)
                       (container_length p) (is_reefer_position p), true).

Definition get_position_code (p : YardPosition) : string :=
  let tier := match containers p with
              | [] => 1
              | _ => Z.of_nat (List.length (containers p))
              end in
  (area p ++ str_of_Z (row p) ++ column p ++ str_of_Z tier)%string.

(** ** class YardArea *)

Record YardArea : Type := mkYardArea {
  name : string;
  allowed_weight_classes : list Z;
  max_stack_height : Z;
  positions : list YardPosition
}.

Definition rows_1_31 : list Z := map Z.of_nat (seq 1 31).

Definition columns_A_U : list string :=
  map (fun i => String (ascii_of_nat i) EmptyString) (seq 65 21).

Definition _initialize_positions (name0 : string) (max_stack_height0 : Z)
  : list YardPosition :=
  flat_map
    (fun row0 =>
       flat_map
         (fun column0 =>
            if row0 mod 4 =? 0 then []
            else [YardPosition_init name0 row0 column0 max_stack_height0])
         columns_A_U)
    rows_1_31.

(** [allowed_weight_classes or [1, ..., 8]]: [None] and the empty list both
    take the default. *)
Definition YardArea_init (name0 : string) (allowed : option (list Z))
    (max_stack_height0 : Z) : YardArea :=
  let awc := match allowed with
             | Some (x :: l) => x :: l
             | _ => [1; 2; 3; 4; 5; 6; 7; 8]
             end in
  mkYardArea name0 awc max_stack_height0
             (_initialize_positions name0 max_stack_height0).

(** The indices of the slots that accept the container, in inventory
    order.  The source returns references to the slot objects; an index
    plays the part of the reference. *)
Fixpoint available_from (i : nat) (ps : list YardPosition) (c : Container)
    (awc : list Z) : list nat :=
  match ps with
  | [] => []
  | p :: ps' =>
      if can_place_container p c awc
      then i :: available_from (S i) ps' c awc
      else available_from (S i) ps' c awc
  end.

Definition get_available_positions (a : YardArea) (c : Container) : list nat :=
  available_from 0 (positions a) c (allowed_weight_classes a).

Fixpoint set_nth {A} (l : list A) (i : nat) (x : A) : list A :=
  match l, i with
  | [], _ => []
  | _ :: l', O => x :: l'
  | y :: l', S i' => y :: set_nth l' i' x
  end.

(** [YardArea.place_container]: the zone after the call and the returned
    position code ([None] for Python's [None]). *)
Definition area_place_container (a : YardArea) (c : Container)
  : YardArea * option string :=
  match get_available_positions a c with
  | [] => (a, None)
  | i :: _ =>
      match nth_error (positions a) i with
      | None => (a, None)
      | Some p =>
          let '(p', ok) := slot_place_container p c in
          let a' := mkYardArea (name a) (allowed_weight_classes a)
                               (max_stack_height a)
                               (set_nth (positions a) i p') in
          if ok then (a', Some (get_position_code p')) else (a', None)
      end
  end.

(** ** class AdvancedYardLayoutOptimizer *)

(** [self.areas]: zone name to zone, in declaration order. *)
Definition Areas := dict string YardArea.

Definition _initialize_areas : Areas :=
  [ ("M1", YardArea_init "M1" (Some [1; 2; 3; 4; 5; 6; 7; 8]) 5);
    ("M2", YardArea_init "M2" (Some [1; 2; 3; 4; 5; 6; 7; 8]) 5);
    ("W1", YardArea_init "W1" (Some [3; 4; 5; 6; 7; 8]) 4);
    ("W2", YardArea_init "W2" (Some [3; 4; 5; 6; 7; 8]) 4);
    ("Q1", YardArea_init "Q1" (Some [1; 2; 3; 4; 5; 6; 7; 8]) 4);
    ("Q2", YardArea_init "Q2" (Some [1; 2; 3; 4; 5; 6; 7; 8]) 4) ].

Definition with_allowed (a : YardArea) (wcs : list Z) : YardArea :=
  mkYardArea (name a) wcs (max_stack_height a) (positions a).

Definition set_area_weight_classes (areas : Areas)
    (area_configurations : dict string (list Z)) : Areas :=
  fold_left
    (fun ar kv =>
       match dict_get String.eqb ar (fst kv) with
       | Some a => dict_set String.eqb ar (fst kv) (with_allowed a (snd kv))
       | None => ar
       end)
    area_configurations areas.

(** The [for ... else] search of [assign_weight_classes]: [Some] when the
    loop leaves through [break]. *)
Fixpoint band_break (table : list (Z * (Q * Q))) (w : Q) : option Z :=
  match table with
  | [] => None
  | (class_id, (min_w, max_w)) :: rest =>
      if Qle_bool min_w w && Qle_bool w max_w then Some class_id
      else band_break rest w
  end.

Definition set_weight_class (c : Container) (wc : Z) : Container :=
  mkContainer (unit_number c) (iso_type c) (transporter c) (weight c)
              (port c) (category c) (size c) wc (priority c).

Fixpoint assign_weight_classes (rnd : Oracle) (k : nat) (cs : list Container)
  : list Container * nat :=
  match cs with
  | [] => ([], k)
  | c :: cs' =>
      match weight c with
      | Some w =>
          let wc := match band_break weight_classes w with
                    | Some class_id => class_id
                    | None => 8
                    end in
          let '(r, k') := assign_weight_classes rnd k cs' in
          (set_weight_class c wc :: r, k')
      | None =>
          let wc := random_randint_1_8 rnd k in
          let '(r, k') := assign_weight_classes rnd (S k) cs' in
          (set_weight_class c wc :: r, k')
      end
  end.

(** One value of the placement map.  The three writers of the map store
    different key sets: [None] in [p_transporter] or [p_port] means the key
    is not in the record. *)
Record Placement : Type := mkPlacement {
  p_position : string;
  p_area : string;
  p_transporter : option (option string);
  p_port : option (option string);
  p_weight_class : Z;
  p_size : Z;
  p_category : string;
  p_iso_type : string
}.

Definition PlacementMap := dict string Placement.
Definition Usage := dict string Z.

Record RunState : Type := mkRunState {
  rs_areas : Areas;
  rs_map : PlacementMap;
  rs_usage : Usage;
  rs_placed : Z
}.

(** Truth value of what [YardArea.place_container] returns. *)
Definition truthy (code : option string) : option string :=
  match code with
  | Some s => if String.eqb s "" then None else Some s
  | None => None
  end.

(** [self.areas[area_name].place_container(container)] *)
Definition place_in_area (areas : Areas) (area_name : string) (c : Container)
  : result (Areas * option string) :=
  a <- dict_lookup String.eqb areas area_name ;;
  let '(a', code) := area_place_container a c in
  Ok (dict_set String.eqb areas area_name a', code).

(** [area_usage[area_name] += n] *)
Definition usage_add (usage : Usage) (area_name : string) (n : Z)
  : result Usage :=
  v <- dict_lookup String.eqb usage area_name ;;
  Ok (dict_set String.eqb usage area_name (v + n)).

Definition anywhere_record (c : Container) (code area_name : string)
  : Placement :=
  mkPlacement code area_name (Some (transporter c)) (Some (port c))
              (weight_class c) (size c) (category c) (iso_type c).

(** The loop of [_place_container_anywhere] over [self.areas.items()]:
    [seen] are the zones already passed, [todo] the ones still ahead. *)
Fixpoint anywhere_loop (seen todo : Areas) (c : Container)
    (pm : PlacementMap) (usage : Usage)
  : result (Areas * PlacementMap * Usage * bool) :=
  match todo with
  | [] => Ok (seen, pm, usage, false)
  | (area_name, a) :: rest =>
      if Z_in (weight_class c) (allowed_weight_classes a) then
        let '(a', code) := area_place_container a c in
        match truthy code with
        | Some position_code =>
            let pm' := dict_set String.eqb pm (unit_number c)
                         (anywhere_record c position_code area_name) in
            usage' <- usage_add usage area_name 1 ;;
            Ok (seen ++ (area_name, a') :: rest, pm', usage', true)
        | None => anywhere_loop (seen ++ [(area_name, a')]) rest c pm usage
        end
      else anywhere_loop (seen ++ [(area_name, a)]) rest c pm usage
  end.

Definition _place_container_anywhere (c : Container) (st : RunState)
  : result (RunState * bool) :=
  '(areas', pm', usage', placed) <-
    anywhere_loop [] (rs_areas st) c (rs_map st) (rs_usage st) ;;
  Ok (mkRunState areas' pm' usage' (rs_placed st), placed).

(** *** The inbound strategy *)

Definition can_accommodate (a : YardArea) (trans_containers : list Container)
  : bool :=
  forallb (fun c => Z_in (weight_class c) (allowed_weight_classes a))
          trans_containers.

Definition import_suitable_areas (areas : Areas)
    (trans_containers : list Container) : list string :=
  map fst (filter (fun kv => can_accommodate (snd kv) trans_containers) areas).

Definition import_record (c : Container) (code area_name : string)
    (transporter0 : option string) : Placement :=
  mkPlacement code area_name (Some transporter0) None
              (weight_class c) (size c) (category c) (iso_type c).

(** Body of the loop over the group inside one candidate zone.  The
    accumulator is the yard, [temp_placements] and [area_placed_count]. *)
Definition import_attempt_step (area_name : string)
    (transporter0 : option string) (pm : PlacementMap)
    (acc : Areas * PlacementMap * Z) (c : Container)
  : result (Areas * PlacementMap * Z) :=
  let '(areas, temp, cnt) := acc in
  if dict_mem String.eqb pm (unit_number c) then Ok acc
  else
    '(areas', code) <- place_in_area areas area_name c ;;
    match truthy code with
    | Some position_code =>
        Ok (areas',
            dict_set String.eqb temp (unit_number c)
                     (import_record c position_code area_name transporter0),
            cnt + 1)
    | None => Ok (areas', temp, cnt)
    end.

Definition import_attempt (area_name : string) (transporter0 : option string)
    (trans_containers : list Container) (pm : PlacementMap) (areas : Areas)
  : result (Areas * PlacementMap * Z) :=
  foldM (import_attempt_step area_name transporter0 pm) trans_containers
        (areas, [], 0).

(** [area_placed_count >= len(trans_containers) * 0.8] *)
Definition reaches_threshold (cnt : Z) (trans_containers : list Container)
  : bool :=
  Qle_bool (inject_Z (Z.of_nat (List.length trans_containers)) * 0.8)
           (inject_Z cnt).

(** The loop over [suitable_areas]; the boolean is [group_placed]. *)
Fixpoint import_try_areas (suitable : list string)
    (transporter0 : option string) (trans_containers : list Container)
    (st : RunState) : result (RunState * bool) :=
  match suitable with
  | [] => Ok (st, false)
  | area_name :: rest =>
      '(areas', temp, cnt) <-
        import_attempt area_name transporter0 trans_containers
                       (rs_map st) (rs_areas st) ;;
      if reaches_threshold cnt trans_containers then
        let pm' := dict_update String.eqb (rs_map st) temp in
        usage' <- usage_add (rs_usage st) area_name cnt ;;
        Ok (mkRunState areas' pm' usage' (rs_placed st + cnt), true)
      else
        import_try_areas rest transporter0 trans_containers
          (mkRunState areas' (rs_map st) (rs_usage st) (rs_placed st))
  end.

Definition add_placed (st : RunState) (n : Z) : RunState :=
  mkRunState (rs_areas st) (rs_map st) (rs_usage st) (rs_placed st + n).

(** Body of the individual retry loop of the inbound strategy. *)
Definition import_fallback_step (st : RunState) (c : Container)
  : result RunState :=
  if dict_mem String.eqb (rs_map st) (unit_number c) then Ok st
  else
    '(st', placed) <- _place_container_anywhere c st ;;
    Ok (if placed : bool then add_placed st' 1 else st').

Definition import_group (st : RunState)
    (g : option string * list Container) : result RunState :=
  let '(transporter0, trans_containers) := g in
  let suitable := import_suitable_areas (rs_areas st) trans_containers in
  '(st1, group_placed) <-
    import_try_areas suitable transporter0 trans_containers st ;;
  if group_placed : bool then Ok st1
  else foldM import_fallback_step trans_containers st1.

(** [if key not in groups: groups[key] = []] then
    [groups[key].append(container)] *)
Definition group_append {K} (eqb : K -> K -> bool)
    (groups : dict K (list Container)) (key : K) (c : Container)
  : dict K (list Container) :=
  match dict_get eqb groups key with
  | Some l => dict_set eqb groups key (l ++ [c])
  | None => dict_set eqb groups key [c]
  end.

(** *** class ConflictResolver *)

(** [resolve_12m_6m_conflict]: the slots are the objects of the list that
    the caller passes; the zone argument is not read. *)
Definition resolve_12m_6m_conflict (a : YardArea) (c : Container)
    (available_positions : list YardPosition) : list YardPosition :=
  if size c =? 12 then
    let valid_positions :=
      filter (fun position => row position mod 2 =? 0) available_positions in
    match valid_positions with
    | [] => available_positions
    | _ :: _ => valid_positions
    end
  else available_positions.

(** The sort key [(x.priority, -x.weight if x.weight else 0)]: a missing
    weight and a weight of zero both give 0. *)
Definition sequence_key (x : Container) : Z * Q :=
  (priority x,
   match weight x with
   | Some w => if Qeq_bool w 0 then 0%Q else (- w)%Q
   | None => 0%Q
   end).

(** [k1 < k2] on the key tuples: the first components decide unless they
    are equal. *)
Definition key_lt (k1 k2 : Z * Q) : bool :=
  if fst k1 =? fst k2
  then negb (Qeq_bool (snd k1) (snd k2)) && negb (Qle_bool (snd k2) (snd k1))
  else fst k1 <? fst k2.

(** [list.sort(key=...)] is a stable sort by [<] on the keys: an element
    goes in front of the first one that is not smaller than it. *)
Fixpoint insert_by_key (x : Container) (l : list Container)
  : list Container :=
  match l with
  | [] => [x]
  | y :: l' =>
      if key_lt (sequence_key y) (sequence_key x)
      then y :: insert_by_key x l'
      else x :: y :: l'
  end.

Definition sort_by_key (l : list Container) : list Container :=
  fold_right insert_by_key [] l.

(** Equality of the tuples [(container.port, container.weight_class)]. *)
Definition port_class_eqb (k1 k2 : option string * Z) : bool :=
  oeqb (fst k1) (fst k2) && (snd k1 =? snd k2).

(** The loop that extends [optimized] by every group, sorted. *)
Definition extend_sorted {K} (grouped : dict K (list Container))
  : list Container :=
  fold_left (fun optimized kv => optimized ++ sort_by_key (snd kv))
            grouped [].

Definition optimize_placement_sequence (containers : list Container)
    (operation_type : string) : list Container :=
  if String.eqb operation_type "IMPORT" then
    let grouped :=
      fold_left (fun g c => group_append oeqb g (transporter c) c)
                containers [] in
    extend_sorted grouped
  else
    let grouped :=
      fold_left (fun g c =>
                   group_append port_class_eqb g (port c, weight_class c) c)
                containers [] in
    extend_sorted grouped.

Definition transporter_groups (cs : list Container)
  : dict (option string) (list Container) :=
  fold_left (fun g c => group_append oeqb g (transporter c) c) cs [].

Definition initial_usage (areas : Areas) : Usage :=
  map (fun kv => (fst kv, 0)) areas.

(** *** The outbound strategy *)

Definition export_suitable_areas (areas : Areas) (wc : Z) : list string :=
  map fst (filter (fun kv => Z_in wc (allowed_weight_classes (snd kv))) areas).

Definition export_record (c : Container) (code area_name : string)
    (port0 : option string) (wc : Z) : Placement :=
  mkPlacement code area_name None (Some port0) wc
              (size c) (category c) (iso_type c).

(** Body of the loop over the snapshot [class_containers[:]].  [kept]
    collects the entries that [class_containers.remove] has not taken out;
    every list entry is an object of its own, so removing the current
    object is dropping the current entry. *)
Definition export_drain_step (area_name : string) (port0 : option string)
    (wc : Z) (acc : RunState * list Container) (c : Container)
  : result (RunState * list Container) :=
  let '(st, kept) := acc in
  if dict_mem String.eqb (rs_map st) (unit_number c)
  then Ok (st, kept ++ [c])
  else
    '(areas', code) <- place_in_area (rs_areas st) area_name c ;;
    match truthy code with
    | Some position_code =>
        let pm' := dict_set String.eqb (rs_map st) (unit_number c)
                     (export_record c position_code area_name port0 wc) in
        usage' <- usage_add (rs_usage st) area_name 1 ;;
        Ok (mkRunState areas' pm' usage' (rs_placed st + 1), kept)
    | None =>
        Ok (mkRunState areas' (rs_map st) (rs_usage st) (rs_placed st),
            kept ++ [c])
    end.

(** The loop over [suitable_areas] with its [break] on an emptied group. *)
Fixpoint export_try_areas (suitable : list string) (port0 : option string)
    (wc : Z) (class_containers : list Container) (st : RunState)
  : result RunState :=
  match suitable with
  | [] => Ok st
  | area_name :: rest =>
      match class_containers with
      | [] => Ok st
      | _ :: _ =>
          '(st', kept) <-
            foldM (export_drain_step area_name port0 wc) class_containers
                  (st, []) ;;
          export_try_areas rest port0 wc kept st'
      end
  end.

Definition export_weight_group (port0 : option string) (st : RunState)
    (g : Z * list Container) : result RunState :=
  let '(wc, class_containers) := g in
  export_try_areas (export_suitable_areas (rs_areas st) wc)
                   port0 wc class_containers st.

Definition export_port_group (st : RunState)
    (g : option string * dict Z (list Container)) : result RunState :=
  let '(port0, weight_groups) := g in
  foldM (export_weight_group port0) weight_groups st.

Definition port_groups (cs : list Container)
  : dict (option string) (dict Z (list Container)) :=
  fold_left
    (fun g c =>
       let wg := match dict_get oeqb g (port c) with
                 | Some wg => wg
                 | None => []
                 end in
       dict_set oeqb g (port c) (group_append Z.eqb wg (weight_class c) c))
    cs [].

Definition export_fallback_step (st : RunState) (c : Container)
  : result RunState :=
  '(st', placed) <- _place_container_anywhere c st ;;
  Ok (if placed : bool then add_placed st' 1 else st').

(** *** Result compilation *)

(** [a / b] on numbers *)
Definition py_div (a b : Z) : result Q :=
  if b =? 0 then Raise ZeroDivisionError
  else Ok (inject_Z a / inject_Z b)%Q.

Definition get_field {A} (f : option A) : result A :=
  match f with
  | Some v => Ok v
  | None => Raise KeyError
  end.

Definition pair_grouped (operation_type : string) (current next_place : Placement)
  : result bool :=
  if String.eqb operation_type "IMPORT" then
    t1 <- get_field (p_transporter current) ;;
    t2 <- get_field (p_transporter next_place) ;;
    Ok (oeqb t1 t2 && String.eqb (p_area current) (p_area next_place))
  else
    q1 <- get_field (p_port current) ;;
    q2 <- get_field (p_port next_place) ;;
    Ok (oeqb q1 q2 && String.eqb (p_area current) (p_area next_place)
        && (Z.abs (p_weight_class current - p_weight_class next_place) <=? 1)).

Fixpoint count_grouped_pairs (operation_type : string)
    (placements : list Placement) : result Z :=
  match placements with
  | current :: ((next_place :: _) as tl) =>
      hit <- pair_grouped operation_type current next_place ;;
      n <- count_grouped_pairs operation_type tl ;;
      Ok (if hit : bool then n + 1 else n)
  | _ => Ok 0
  end.

Definition _calculate_grouping_efficiency (pm : PlacementMap)
    (operation_type : string) : result Q :=
  match pm with
  | [] => Ok 0%Q
  | _ :: _ =>
      let placements := dict_values pm in
      let total_pairs := Z.of_nat (List.length placements) - 1 in
      grouped_pairs <- count_grouped_pairs operation_type placements ;;
      if 0 <? total_pairs then
        q <- py_div grouped_pairs total_pairs ;; Ok (q * 100)%Q
      else Ok 0%Q
  end.

Record AreaDetail : Type := mkAreaDetail {
  containers_placed : Z;
  utilization : Q;
  detail_weight_classes : list Z
}.

Definition area_detail_step (areas : Areas)
    (acc : dict string AreaDetail) (kv : string * Z)
  : result (dict string AreaDetail) :=
  let '(area_name, usage) := kv in
  if 0 <? usage then
    a <- dict_lookup String.eqb areas area_name ;;
    let total_area_positions := Z.of_nat (List.length (positions a)) in
    q <- py_div usage total_area_positions ;;
    a2 <- dict_lookup String.eqb areas area_name ;;
    Ok (dict_set String.eqb acc area_name
          (mkAreaDetail usage (q * 100)%Q (allowed_weight_classes a2)))
  else Ok acc.

(** The percentages that the source renders with one decimal are kept as
    rationals; [timestamp] is the clock reading of the call. *)
Record LayoutResult : Type := mkLayoutResult {
  placement_map : PlacementMap;
  efficiency : Q;
  space_utilization : Q;
  grouping_efficiency : Q;
  area_usage : dict string AreaDetail;
  total_placed : Z;
  total_containers : Z;
  details : string;
  timestamp : string
}.

Definition sumZ (l : list Z) : Z := fold_left Z.add l 0.

Definition _compile_result (now : string) (areas : Areas)
    (cs : list Container) (pm : PlacementMap) (usage : Usage)
    (operation_type : string) : result LayoutResult :=
  let total_containers0 := Z.of_nat (List.length cs) in
  let placed_count := Z.of_nat (List.length pm) in
  let total_positions :=
    sumZ (map (fun a => Z.of_nat (List.length (positions a)))
              (dict_values areas)) in
  let used_positions := sumZ (dict_values usage) in
  space <- (if 0 <? total_positions
            then q <- py_div used_positions total_positions ;; Ok (q * 100)%Q
            else Ok 0%Q) ;;
  grouping <- _calculate_grouping_efficiency pm operation_type ;;
  area_details <- foldM (area_detail_step areas) usage [] ;;
  eff <- py_div placed_count total_containers0 ;;
  Ok (mkLayoutResult pm (eff * 100)%Q space grouping area_details
        placed_count total_containers0
        (operation_type ++ " optimization completed")%string now).

(** What one call of a strategy leaves behind: the mutated optimizer, the
    containers with their reassigned weight classes, the oracle cursor and
    the returned dictionary. *)
Record RunOut : Type := mkRunOut {
  out_areas : Areas;
  out_containers : list Container;
  out_cursor : nat;
  out_result : LayoutResult
}.

Definition optimize_import_layout (now : string) (rnd : Oracle) (k : nat)
    (areas : Areas) (cs : list Container)
    (area_configurations : dict string (list Z)) : result RunOut :=
  let areas1 := set_area_weight_classes areas area_configurations in
  let '(cs1, k1) := assign_weight_classes rnd k cs in
  let st0 := mkRunState areas1 [] (initial_usage areas1) 0 in
  st <- foldM import_group (transporter_groups cs1) st0 ;;
  r <- _compile_result now (rs_areas st) cs1 (rs_map st) (rs_usage st)
                       "IMPORT" ;;
  Ok (mkRunOut (rs_areas st) cs1 k1 r).

Definition remaining_containers (cs : list Container) (pm : PlacementMap)
  : list Container :=
  filter (fun c => negb (dict_mem String.eqb pm (unit_number c))) cs.

Definition optimize_export_layout (now : string) (rnd : Oracle) (k : nat)
    (areas : Areas) (cs : list Container)
    (area_configurations : dict string (list Z)) : result RunOut :=
  let areas1 := set_area_weight_classes areas area_configurations in
  let '(cs1, k1) := assign_weight_classes rnd k cs in
  let st0 := mkRunState areas1 [] (initial_usage areas1) 0 in
  st1 <- foldM export_port_group (port_groups cs1) st0 ;;
  st <- foldM export_fallback_step
              (remaining_containers cs1 (rs_map st1)) st1 ;;
  r <- _compile_result now (rs_areas st) cs1 (rs_map st) (rs_usage st)
                       "EXPORT" ;;
  Ok (mkRunOut (rs_areas st) cs1 k1 r).

(** *** Proposals *)

(** [round(x)]: to the nearest integer, ties to the even one. *)
Definition py_round (x : Q) : Z :=
  let f := Qfloor x in
  match Qcompare (x - inject_Z f) (1 # 2) with
  | Lt => f
  | Gt => f + 1
  | Eq => if Z.even f then f else f + 1
  end.

(** *** Floats *)

(** [2 ** k] for an integer [k] of either sign. *)
Definition pow2 (k : Z) : Q :=
  if 0 <=? k then inject_Z (2 ^ k) else / inject_Z (2 ^ (- k)).

(** The exponent of the leading bit of a positive number: the difference
    of the bit lengths of numerator and denominator, or one less. *)
Definition ilog2 (x : Q) : Z :=
  let l := Z.log2 (Qnum x) - Z.log2 (Zpos (Qden x)) in
  if Qle_bool (pow2 l) x then l else l - 1.

(** The float nearest to a positive number: 53 significant bits, quantum
    [2 ** -1074] in the subnormal range, ties to the even significand. *)
Definition nearest (x : Q) : Q :=
  let k := Z.min (52 - ilog2 x) 1074 in
  Qred (inject_Z (py_round (x * pow2 k)) / pow2 k).

(** Rounding to binary64, as every float operation of the source ends.
    The numbers of this program stay far below the overflow threshold. *)
Definition binary64 (x : Q) : Q :=
  match Qcompare x 0 with
  | Eq => 0
  | Gt => nearest x
  | Lt => - nearest (- x)
  end.

(** [a / b] on integers and [x * y] on floats, as floats. *)
Definition float_div (a b : Z) : Q := binary64 (inject_Z a / inject_Z b).
Definition float_mul (x y : Q) : Q := binary64 (x * y).

(** [result['efficiency']] as the source holds it: the float
    [(placed_count / total_containers) * 100].  The record keeps the exact
    quotient in [efficiency] and the two counts it is computed from in
    [total_placed] and [total_containers]. *)
Definition efficiency_float (r : LayoutResult) : Q :=
  float_mul (float_div (total_placed r) (total_containers r)) 100.

Record Proposal : Type := mkProposal {
  id : Z;
  score : Z;
  prop_space_utilization : Q;
  prop_grouping_efficiency : Q;
  prop_details : string;
  prop_placement_map : PlacementMap;
  prop_area_usage : dict string AreaDetail;
  prop_containers_placed : Z;
  prop_total_containers : Z;
  prop_timestamp : string;
  strategy : string
}.

(** The loop [for i in range(num_proposals)], [i] counting up from [i0];
    [clock i] is the clock reading during iteration [i]. *)
Fixpoint proposals_loop (clock : nat -> string) (rnd : Oracle) (k : nat)
    (cs : list Container) (operation_type : string)
    (area_configurations : dict string (list Z)) (i0 n : nat)
  : result (list Proposal) :=
  match n with
  | O => Ok []
  | S n' =>
      let areas := _initialize_areas in
      out <- (if String.eqb operation_type "IMPORT"
              then optimize_import_layout (clock i0) rnd k areas cs
                                          area_configurations
              else optimize_export_layout (clock i0) rnd k areas cs
                                          area_configurations) ;;
      let r := out_result out in
      let i := Z.of_nat i0 in
      let p := mkProposal (i + 1) (py_round (efficiency_float r))
                 (space_utilization r) (grouping_efficiency r) (details r)
                 (placement_map r) (area_usage r) (total_placed r)
                 (total_containers r) (timestamp r)
                 ("Proposal " ++ str_of_Z (i + 1))%string in
      ps <- proposals_loop clock rnd (out_cursor out) (out_containers out)
                           operation_type area_configurations (S i0) n' ;;
      Ok (p :: ps)
  end.

Definition generate_multiple_proposals (clock : nat -> string) (rnd : Oracle)
    (k : nat) (cs : list Container) (operation_type : string)
    (area_configurations : dict string (list Z)) (num_proposals : nat)
  : result (list Proposal) :=
  proposals_loop clock rnd k cs operation_type area_configurations
                 0 num_proposals.

(** * Properties *)

(** ** Weight classification *)

(** Band [b] of the table contains the weight [w] (closed interval). *)
Definition in_band (b : Z) (w : Q) : Prop :=
  exists lo hi, In (b, (lo, hi)) weight_classes /\ (lo <= w)%Q /\ (w <= hi)%Q.

Lemma Qle_bool_false (a b : Q) : Qle_bool a b = false -> ~ (a <= b)%Q.
Proof.
  intros H L. apply Qle_bool_iff in L. congruence.
Qed.

Ltac qbool :=
  repeat match goal with
         | H : Qle_bool _ _ = true |- _ => apply Qle_bool_iff in H
         | H : Qle_bool _ _ = false |- _ => apply Qle_bool_false in H
         | H : andb _ _ = true |- _ => apply andb_true_iff in H; destruct H
         | H : andb _ _ = false |- _ => apply andb_false_iff in H; destruct H
         end.

Section FirstBand.
Variable w : Q.

Definition holds (e : Z * (Q * Q)) : Prop :=
  (fst (snd e) <= w)%Q /\ (w <= snd (snd e))%Q.

Lemma first_band_hit (table : list (Z * (Q * Q))) :
  Exists holds table ->
  exists e, In e table /\ holds e /\ first_band table w = fst e.
Proof.
  induction table as [|[b [lo hi]] rest IH]; intros Hex.
  - inversion Hex.
  - simpl. destruct (Qle_bool lo w && Qle_bool w hi) eqn:E.
    + exists (b, (lo, hi)). qbool. repeat split; simpl; auto.
    + assert (Hrest : Exists holds rest).
      { inversion Hex as [? ? Hh|]; subst; auto.
        destruct Hh as [H1 H2]; simpl in *. qbool; contradiction. }
      destruct (IH Hrest) as (e & Hin & Hh & Heq).
      exists e. repeat split; try apply Hh; simpl; auto.
Qed.

Lemma first_band_miss (table : list (Z * (Q * Q))) :
  Forall (fun e => ~ holds e) table -> first_band table w = 8.
Proof.
  induction 1 as [|[b [lo hi]] rest Hn _ IH]; simpl; auto.
  destruct (Qle_bool lo w && Qle_bool w hi) eqn:E; auto.
  qbool. exfalso. apply Hn. split; assumption.
Qed.

Lemma band_break_first_band (table : list (Z * (Q * Q))) :
  match band_break table w with Some b => b | None => 8 end
  = first_band table w.
Proof.
  induction table as [|[b [lo hi]] rest IH]; simpl; auto.
  destruct (Qle_bool lo w && Qle_bool w hi); auto.
Qed.
End FirstBand.

Ltac in_table H :=
  simpl in H;
  repeat (destruct H as [H|H]; [inversion H; subst; clear H|]);
  try contradiction.

(** No weight lies in two bands. *)
Lemma bands_disjoint (w : Q) (b1 b2 : Z) :
  in_band b1 w -> in_band b2 w -> b1 = b2.
Proof.
  intros (lo1 & hi1 & I1 & L1 & U1) (lo2 & hi2 & I2 & L2 & U2).
  unfold weight_classes in I1, I2.
  in_table I1; in_table I2; try reflexivity; exfalso; lra.
Qed.

Lemma classify_in_band (w : Q) (b : Z) :
  in_band b w -> first_band weight_classes w = b.
Proof.
  intros Hb.
  assert (Hex : Exists (holds w) weight_classes).
  { destruct Hb as (lo & hi & I & L & U).
    apply Exists_exists. exists (b, (lo, hi)). split; auto. split; auto. }
  destruct (first_band_hit Hex) as ([b' [lo' hi']] & I' & [L' U'] & Heq).
  rewrite Heq. simpl in *.
  apply (@bands_disjoint w); auto.
  exists lo', hi'. auto.
Qed.

Lemma classify_no_band (w : Q) :
  (forall b, ~ in_band b w) -> first_band weight_classes w = 8.
Proof.
  intros Hn. apply first_band_miss. apply Forall_forall.
  intros [b [lo hi]] I [L U]. apply (Hn b). exists lo, hi. auto.
Qed.

(** The class that [assign_weight_classes] stores for a weighed container
    is the one the constructor computes. *)
Lemma assign_weight_classes_weighed (rnd : Oracle) (k : nat) (c : Container)
    (w : Q) :
  weight c = Some w ->
  map weight_class (fst (assign_weight_classes rnd k [c]))
  = [fst (_determine_weight_class (Some w) rnd k)].
Proof.
  intros Hw. cbn [assign_weight_classes]. rewrite Hw.
  cbn [fst map weight_class set_weight_class _determine_weight_class].
  now rewrite band_break_first_band.
Qed.

(** C4.  With the gross weight present, classification returns the band
    whose closed interval contains the weight and returns 8 when no band
    contains it; 18.9 is in band 1, 19.0 in band 2, 50.0 in band 8 and
    60.0, outside every band, is classified 8.  The oracle is not
    consulted. *)
Theorem weight_class_is_containing_band (w : Q) (rnd : Oracle) (k : nat) :
  (forall b, in_band b w -> _determine_weight_class (Some w) rnd k = (b, k))
  /\ ((forall b, ~ in_band b w) ->
      _determine_weight_class (Some w) rnd k = (8, k))
  /\ _determine_weight_class (Some 18.9%Q) rnd k = (1, k)
  /\ _determine_weight_class (Some 19.0%Q) rnd k = (2, k)
  /\ _determine_weight_class (Some 50.0%Q) rnd k = (8, k)
  /\ _determine_weight_class (Some 60.0%Q) rnd k = (8, k).
Proof.
  unfold _determine_weight_class. repeat split.
  - intros b Hb. now rewrite (classify_in_band Hb).
  - intros Hn. now rewrite (classify_no_band Hn).
Qed.

Lemma weight_class_is_containing_band_witness :
  in_band 2 23.4%Q
  /\ _determine_weight_class (Some 23.4%Q) (fun _ => 0%nat) 0 = (2, 0%nat).
Proof.
  assert (H : in_band 2 23.4%Q).
  { exists 19%Q, 23.4%Q. repeat split.
    - simpl. auto.
    - unfold Qle. simpl. lia.
    - unfold Qle. simpl. lia. }
  split; [exact H|].
  now apply (@weight_class_is_containing_band 23.4%Q (fun _ => 0%nat) 0%nat).
Defined.

(** 18.95 tons is between 0 and 50, yet no band contains it; the table
    classifies it 8 by the fall-through. *)
Lemma bands_have_gaps :
  (0 <= 18.95)%Q /\ (18.95 <= 50)%Q
  /\ (forall b, ~ in_band b 18.95%Q)
  /\ first_band weight_classes 18.95%Q = 8.
Proof.
  repeat split; try (unfold Qle; simpl; lia).
  intros b (lo & hi & I & L & U). unfold weight_classes in I.
  in_table I; lra.
Qed.

(** The weights strictly between the upper bound of one band and the lower
    bound of the next. *)
Definition between_bands (w : Q) : Prop :=
  (18.9 < w /\ w < 19)%Q \/ (23.4 < w /\ w < 23.5)%Q
  \/ (25.4 < w /\ w < 25.5)%Q \/ (26.6 < w /\ w < 26.7)%Q
  \/ (28.4 < w /\ w < 28.5)%Q \/ (30 < w /\ w < 30.1)%Q
  \/ (31 < w /\ w < 31.1)%Q.

(** The table misses exactly the weights between two bands: every other
    weight from 0 to 50 tons lies in one band, which is its class; a weight
    between two bands lies in none and is classified 8, as is every weight
    above 50. *)
Lemma bands_cover_all_but_gaps (w : Q) :
  ((0 <= w)%Q -> (w <= 50)%Q -> ~ between_bands w ->
   exists b, in_band b w
             /\ (forall b', in_band b' w -> b' = b)
             /\ first_band weight_classes w = b)
  /\ (between_bands w ->
      (forall b, ~ in_band b w) /\ first_band weight_classes w = 8)
  /\ ((50 < w)%Q -> first_band weight_classes w = 8).
Proof.
  split; [|split].
  - intros H0 H50 Hgap.
    assert (Hex : exists b, in_band b w).
    { unfold in_band, weight_classes. unfold between_bands in Hgap.
      destruct (Qlt_le_dec 18.9 w) as [G1|G1];
        [|exists 1, 0%Q, 18.9%Q; split; [simpl; auto|split; auto]].
      destruct (Qlt_le_dec w 19) as [L1|L1]; [exfalso; tauto|].
      destruct (Qlt_le_dec 23.4 w) as [G2|G2];
        [|exists 2, 19%Q, 23.4%Q; split; [simpl; auto|split; auto]].
      destruct (Qlt_le_dec w 23.5) as [L2|L2]; [exfalso; tauto|].
      destruct (Qlt_le_dec 25.4 w) as [G3|G3];
        [|exists 3, 23.5%Q, 25.4%Q; split; [simpl; auto|split; auto]].
      destruct (Qlt_le_dec w 25.5) as [L3|L3]; [exfalso; tauto|].
      destruct (Qlt_le_dec 26.6 w) as [G4|G4];
        [|exists 4, 25.5%Q, 26.6%Q; split; [simpl; auto 10|split; auto]].
      destruct (Qlt_le_dec w 26.7) as [L4|L4]; [exfalso; tauto|].
      destruct (Qlt_le_dec 28.4 w) as [G5|G5];
        [|exists 5, 26.7%Q, 28.4%Q; split; [simpl; auto 10|split; auto]].
      destruct (Qlt_le_dec w 28.5) as [L5|L5]; [exfalso; tauto|].
      destruct (Qlt_le_dec 30 w) as [G6|G6];
        [|exists 6, 28.5%Q, 30%Q; split; [simpl; auto 10|split; auto]].
      destruct (Qlt_le_dec w 30.1) as [L6|L6]; [exfalso; tauto|].
      destruct (Qlt_le_dec 31 w) as [G7|G7];
        [|exists 7, 30.1%Q, 31%Q; split; [simpl; auto 10|split; auto]].
      destruct (Qlt_le_dec w 31.1) as [L7|L7]; [exfalso; tauto|].
      exists 8, 31.1%Q, 50%Q. split; [simpl; auto 10|split; auto]. }
    destruct Hex as [b Hb]. exists b. repeat split; auto.
    + intros b' Hb'. apply (@bands_disjoint w); auto.
    + now apply classify_in_band.
  - intros Hgap.
    assert (Hn : forall b, ~ in_band b w).
    { intros b (lo & hi & I & L & U). unfold weight_classes in I.
      unfold between_bands in Hgap.
      in_table I; lra. }
    split; auto. now apply classify_no_band.
  - intros Hw. apply classify_no_band.
    intros b (lo & hi & I & L & U). unfold weight_classes in I.
    in_table I; lra.
Qed.

(** C3.  The code at a weight between two bands.  18.95 tons is a
    non-negative weight below 50 tons that no band's interval contains;
    the constructor and [assign_weight_classes] both give it class 8, the
    class of the heaviest containers, although bands 1 and 2 lie on either
    side of it. *)
Theorem weight_between_bands_is_class_8 (rnd : Oracle) (k : nat)
    (c : Container) :
  (0 <= 18.95)%Q /\ (18.95 <= 50)%Q
  /\ between_bands 18.95%Q
  /\ (forall b, ~ in_band b 18.95%Q)
  /\ in_band 1 18.9%Q /\ in_band 2 19%Q
  /\ _determine_weight_class (Some 18.95%Q) rnd k = (8, k)
  /\ map weight_class
       (fst (assign_weight_classes rnd k
               [mkContainer (unit_number c) (iso_type c) (transporter c)
                            (Some 18.95%Q) (port c) (category c) (size c)
                            (weight_class c) (priority c)]))
     = [8].
Proof.
  destruct bands_have_gaps as (H0 & H50 & Hn & Hc).
  split; [exact H0|]. split; [exact H50|]. split.
  { left. split; reflexivity. }
  split; [exact Hn|]. split.
  { exists 0%Q, 18.9%Q. split; [simpl; auto|]. split; unfold Qle; simpl; lia. }
  split.
  { exists 19%Q, 23.4%Q. split; [simpl; auto|].
    split; unfold Qle; simpl; lia. }
  split.
  - cbn [_determine_weight_class]. now rewrite Hc.
  - match goal with
    | |- context [assign_weight_classes rnd k [?c0]] =>
        rewrite (@assign_weight_classes_weighed rnd k c0 18.95%Q eq_refl)
    end.
    cbn [_determine_weight_class fst]. now rewrite Hc.
Qed.

(** ** The placement search of a zone *)

(** The four conditions under which a slot takes a container. *)
Definition slot_accepts (p : YardPosition) (c : Container) (awc : list Z)
  : Prop :=
  container_length p = Some (size c)
  /\ 0 < available_tiers p
  /\ In (weight_class c) awc
  /\ (category c = "Reefer" -> is_reefer_position p = true).

(** The slot after one more container has been stacked on it. *)
Definition stacked (p : YardPosition) (c : Container) : YardPosition :=
  mkYardPosition (area p) (row p) (column p) (max_tiers p)
                 (containers p ++ [c]) (available_tiers p - 1)
                 (container_length p) (is_reefer_position p).

Definition with_positions (a : YardArea) (ps : list YardPosition) : YardArea :=
  mkYardArea (name a) (allowed_weight_classes a) (max_stack_height a) ps.

Lemma Z_in_iff (x : Z) (l : list Z) : Z_in x l = true <-> In x l.
Proof.
  unfold Z_in. rewrite existsb_exists. split.
  - intros (y & Hy & E). apply Z.eqb_eq in E. now subst.
  - intros H. exists x. split; auto. apply Z.eqb_refl.
Qed.

Lemma can_place_iff (p : YardPosition) (c : Container) (awc : list Z) :
  can_place_container p c awc = true <-> slot_accepts p c awc.
Proof.
  unfold can_place_container, slot_accepts, length_differs.
  destruct (container_length p) as [n|]; simpl.
  2:{ split; [discriminate | intros (H & _); discriminate]. }
  destruct (Z.eqb_spec n (size c)) as [->|Hne]; simpl.
  2:{ split; [discriminate | intros (H & _); congruence]. }
  destruct (Z.leb_spec (available_tiers p) 0); simpl.
  { split; [discriminate | intros (_ & H1 & _); lia]. }
  destruct (Z_in (weight_class c) awc) eqn:Ein; simpl.
  2:{ split; [discriminate | intros (_ & _ & H1 & _)].
      apply Z_in_iff in H1. congruence. }
  apply Z_in_iff in Ein.
  destruct (String.eqb_spec (category c) "Reefer") as [Hc|Hc]; simpl.
  - destruct (is_reefer_position p); simpl.
    + split; auto.
    + split; [discriminate | intros (_ & _ & _ & H1)].
      specialize (H1 Hc). discriminate.
  - split; auto. intros _. repeat split; auto; try lia.
Qed.

Lemma can_place_false (p : YardPosition) (c : Container) (awc : list Z) :
  can_place_container p c awc = false <-> ~ slot_accepts p c awc.
Proof.
  rewrite <- can_place_iff. destruct (can_place_container p c awc); split;
    congruence.
Qed.

Lemma slot_place_accepted (p : YardPosition) (c : Container) :
  0 < available_tiers p -> slot_place_container p c = (stacked p c, true).
Proof.
  intros H. unfold slot_place_container.
  destruct (Z.leb_spec (available_tiers p) 0); [lia | reflexivity].
Qed.

Lemma position_code_stacked (p : YardPosition) (c : Container) :
  get_position_code (stacked p c)
  = (area p ++ str_of_Z (row p) ++ column p
     ++ str_of_Z (Z.of_nat (List.length (containers p)) + 1))%string.
Proof.
  unfold get_position_code. simpl.
  destruct (containers p ++ [c]) eqn:E.
  - destruct (containers p); discriminate.
  - rewrite <- E, length_app. simpl.
    replace (Z.of_nat (List.length (containers p) + 1))
      with (Z.of_nat (List.length (containers p)) + 1) by lia.
    reflexivity.
Qed.

(** The first index returned by the scan splits the inventory into the
    rejected slots before it and the accepting slot at it. *)
Lemma available_from_head (ps : list YardPosition) (c : Container)
    (awc : list Z) (i j : nat) (js : list nat) :
  available_from i ps c awc = j :: js ->
  exists pre p post,
    ps = pre ++ p :: post
    /\ j = (i + List.length pre)%nat
    /\ Forall (fun q => can_place_container q c awc = false) pre
    /\ can_place_container p c awc = true.
Proof.
  revert i. induction ps as [|q ps IH]; intros i H; simpl in H.
  - discriminate.
  - destruct (can_place_container q c awc) eqn:E.
    + inversion H; subst. exists [], q, ps. simpl.
      repeat split; auto; lia.
    + destruct (IH _ H) as (pre & p & post & -> & -> & Hpre & Hp).
      exists (q :: pre), p, post. simpl. repeat split; auto; lia.
Qed.

Lemma available_from_nil (ps : list YardPosition) (c : Container)
    (awc : list Z) (i : nat) :
  available_from i ps c awc = [] ->
  Forall (fun q => can_place_container q c awc = false) ps.
Proof.
  revert i. induction ps as [|q ps IH]; intros i H; simpl in H; auto.
  destruct (can_place_container q c awc) eqn:E; [discriminate|].
  constructor; eauto.
Qed.

Lemma nth_error_middle {A} (pre post : list A) (x : A) :
  nth_error (pre ++ x :: post) (List.length pre) = Some x.
Proof.
  induction pre; simpl; auto.
Qed.

Lemma set_nth_middle {A} (pre post : list A) (x y : A) :
  set_nth (pre ++ x :: post) (List.length pre) y = pre ++ y :: post.
Proof.
  induction pre; simpl; auto. now rewrite IHpre.
Qed.

(** What [YardArea.place_container] does, case by case. *)
Inductive place_outcome (a : YardArea) (c : Container)
  : YardArea * option string -> Prop :=
| PlaceNone :
    Forall (fun q => ~ slot_accepts q c (allowed_weight_classes a))
           (positions a) ->
    place_outcome a c (a, None)
| PlaceSome (pre post : list YardPosition) (p : YardPosition) :
    positions a = pre ++ p :: post ->
    Forall (fun q => ~ slot_accepts q c (allowed_weight_classes a)) pre ->
    slot_accepts p c (allowed_weight_classes a) ->
    place_outcome a c
      (with_positions a (pre ++ stacked p c :: post),
       Some (get_position_code (stacked p c))).

Lemma area_place_outcome (a : YardArea) (c : Container) :
  place_outcome a c (area_place_container a c).
Proof.
  unfold area_place_container, get_available_positions.
  destruct (available_from 0 (positions a) c (allowed_weight_classes a))
    as [|j js] eqn:E.
  - apply PlaceNone. apply available_from_nil in E.
    eapply Forall_impl; [|exact E]. intros q. apply can_place_false.
  - apply available_from_head in E.
    destruct E as (pre & p & post & Hps & -> & Hpre & Hp). simpl.
    rewrite Hps, nth_error_middle.
    apply can_place_iff in Hp.
    rewrite slot_place_accepted by apply Hp.
    rewrite set_nth_middle.
    change (mkYardArea (name a) (allowed_weight_classes a)
              (max_stack_height a) (pre ++ stacked p c :: post))
      with (with_positions a (pre ++ stacked p c :: post)).
    eapply PlaceSome; eauto.
    eapply Forall_impl; [|exact Hpre]. intros q. apply can_place_false.
Qed.

(** Row and column of every slot of a constructed zone, in inventory
    order. *)
Definition inventory_order : list (Z * string) :=
  flat_map (fun r => map (fun col => (r, col)) columns_A_U)
           (filter (fun r => negb (r mod 4 =? 0)) rows_1_31).

(** C1.  The inventory of a constructed zone lists the rows 1 to 31 that
    are not multiples of 4 in ascending order and, within a row, the
    columns A to U in ascending order, and every slot carries the zone
    name.  The placement search takes the first slot of the inventory that
    has the container's length, a positive remaining-tier counter, a zone
    that permits the container's weight class and, for a Reefer container,
    reefer eligibility; it stacks the container there, decrements that
    counter, leaves every other slot as it was and returns the code made
    of the slot's zone name, row, column and new occupancy depth.  It
    returns none exactly when no slot of the zone satisfies the
    conditions. *)
Theorem zone_place_first_fit (a : YardArea) (c : Container)
    (zone : string) (height : Z) :
  (map (fun p => (row p, column p)) (_initialize_positions zone height)
   = inventory_order
   /\ Forall (fun p => area p = zone /\ available_tiers p = height)
             (_initialize_positions zone height))
  /\ match area_place_container a c with
     | (a', Some code) =>
         exists pre p post,
           positions a = pre ++ p :: post
           /\ Forall (fun q => ~ slot_accepts q c (allowed_weight_classes a))
                     pre
           /\ slot_accepts p c (allowed_weight_classes a)
           /\ a' = with_positions a (pre ++ stacked p c :: post)
           /\ available_tiers (stacked p c) = available_tiers p - 1
           /\ code = (area p ++ str_of_Z (row p) ++ column p
                      ++ str_of_Z (Z.of_nat (List.length (containers p)) + 1))
                     %string
     | (a', None) =>
         a' = a
         /\ Forall (fun q => ~ slot_accepts q c (allowed_weight_classes a))
                   (positions a)
     end.
Proof.
  split.
  - split.
    + reflexivity.
    + unfold _initialize_positions. apply Forall_forall. intros p Hp.
      apply in_flat_map in Hp. destruct Hp as (r & _ & Hp).
      apply in_flat_map in Hp. destruct Hp as (col & _ & Hp).
      destruct (r mod 4 =? 0); simpl in Hp; [contradiction|].
      destruct Hp as [<-|[]]. split; reflexivity.
  - destruct (area_place_outcome a c) as [Hnone|pre post p Hps Hpre Hp].
    + split; auto.
    + exists pre, p, post. repeat split; auto; try apply Hp.
      apply position_code_stacked.
Qed.

(** ** Dictionaries keyed by strings *)

Section StringDict.
Variable V : Type.
Implicit Types (d : dict string V) (k : string).

Lemma dict_get_split d k v :
  dict_get String.eqb d k = Some v ->
  exists pre post,
    d = pre ++ (k, v) :: post
    /\ ~ In k (map fst pre)
    /\ forall v', dict_set String.eqb d k v' = pre ++ (k, v') :: post.
Proof.
  induction d as [|[k1 v1] d IH]; simpl; intros H.
  - discriminate.
  - destruct (String.eqb_spec k1 k) as [->|Hne].
    + inversion H; subst. exists [], d. simpl. repeat split; auto.
    + destruct (IH H) as (pre & post & -> & Hpre & Hset).
      exists ((k1, v1) :: pre), post. simpl. repeat split.
      * intros [E|E]; auto.
      * intros v'. now rewrite Hset.
Qed.

Lemma dict_get_in_keys d k :
  In k (map fst d) -> exists v, dict_get String.eqb d k = Some v.
Proof.
  induction d as [|[k1 v1] d IH]; simpl; intros H.
  - contradiction.
  - destruct (String.eqb_spec k1 k) as [->|Hne]; eauto.
    destruct H as [H|H]; [contradiction|auto].
Qed.

Lemma dict_get_some_in d k v :
  dict_get String.eqb d k = Some v -> In (k, v) d.
Proof.
  intros H. destruct (dict_get_split _ _ H) as (pre & post & -> & _).
  apply in_or_app. right. now left.
Qed.

Lemma dict_get_none d k :
  dict_get String.eqb d k = None -> ~ In k (map fst d).
Proof.
  intros H Hin. destruct (dict_get_in_keys _ _ Hin) as [v Hv]. congruence.
Qed.

Lemma dict_set_keys_present d k v :
  In k (map fst d) -> map fst (dict_set String.eqb d k v) = map fst d.
Proof.
  induction d as [|[k1 v1] d IH]; simpl; intros H.
  - contradiction.
  - destruct (String.eqb_spec k1 k) as [->|Hne]; simpl; auto.
    destruct H as [H|H]; [contradiction|]. now rewrite IH.
Qed.

Lemma dict_get_set_same d k v :
  dict_get String.eqb (dict_set String.eqb d k v) k = Some v.
Proof.
  induction d as [|[k1 v1] d IH]; simpl.
  - now rewrite String.eqb_refl.
  - destruct (String.eqb_spec k1 k) as [->|Hne]; simpl.
    + now rewrite String.eqb_refl.
    + destruct (String.eqb_spec k1 k); [contradiction|auto].
Qed.

Lemma dict_get_set_other d k k' v :
  k' <> k ->
  dict_get String.eqb (dict_set String.eqb d k v) k'
  = dict_get String.eqb d k'.
Proof.
  intros Hne. induction d as [|[k1 v1] d IH]; simpl.
  - destruct (String.eqb_spec k k'); [congruence|auto].
  - destruct (String.eqb_spec k1 k) as [->|Hne1]; simpl.
    + destruct (String.eqb_spec k k'); [congruence|auto].
    + destruct (String.eqb_spec k1 k'); auto.
Qed.

Lemma dict_set_in d k v k1 v1 :
  In (k1, v1) (dict_set String.eqb d k v) ->
  (k1 = k /\ v1 = v) \/ In (k1, v1) d.
Proof.
  induction d as [|[k2 v2] d IH]; simpl.
  - intros [E|[]]. inversion E; auto.
  - destruct (String.eqb_spec k2 k) as [->|Hne]; simpl.
    + intros [E|H]; [inversion E; auto | auto].
    + intros [E|H]; auto. destruct (IH H); auto.
Qed.

Lemma dict_update_in d e k1 v1 :
  In (k1, v1) (dict_update String.eqb d e) -> In (k1, v1) d \/ In (k1, v1) e.
Proof.
  unfold dict_update. revert d.
  induction e as [|[k v] e IH]; simpl; intros d H; auto.
  destruct (IH _ H) as [H1|H1]; auto.
  apply dict_set_in in H1. destruct H1 as [[-> ->]|H1]; auto.
Qed.

End StringDict.

(** ** Position codes are never empty *)

Lemma str_of_Z_nonempty (z : Z) : str_of_Z z <> "".
Proof.
  unfold str_of_Z. destruct (Z.to_int z) as [d|d]; simpl.
  - destruct d; simpl; discriminate.
  - discriminate.
Qed.

Lemma append_nonempty_r (s1 s2 : string) :
  s2 <> "" -> (s1 ++ s2)%string <> "".
Proof.
  destruct s1; simpl; auto. discriminate.
Qed.

Lemma position_code_nonempty (p : YardPosition) : get_position_code p <> "".
Proof.
  unfold get_position_code.
  repeat apply append_nonempty_r. apply str_of_Z_nonempty.
Qed.

Lemma truthy_position_code (p : YardPosition) :
  truthy (Some (get_position_code p)) = Some (get_position_code p).
Proof.
  unfold truthy.
  destruct (String.eqb_spec (get_position_code p) ""); auto.
  now apply position_code_nonempty in e.
Qed.

(** ** How a run changes the yard *)

(** One call of [YardArea.place_container] on one zone of the yard. *)
Inductive yard_step : Areas -> Areas -> Prop :=
| YardStep (pre post : Areas) (n : string) (a : YardArea) (c : Container) :
    yard_step (pre ++ (n, a) :: post)
              (pre ++ (n, fst (area_place_container a c)) :: post).

Inductive yard_steps : Areas -> Areas -> Prop :=
| StepsRefl (ar : Areas) : yard_steps ar ar
| StepsCons (ar1 ar2 ar3 : Areas) :
    yard_step ar1 ar2 -> yard_steps ar2 ar3 -> yard_steps ar1 ar3.

Lemma yard_steps_trans (ar1 ar2 ar3 : Areas) :
  yard_steps ar1 ar2 -> yard_steps ar2 ar3 -> yard_steps ar1 ar3.
Proof.
  induction 1; intros; auto. eapply StepsCons; eauto.
Qed.

Lemma yard_steps_one (ar1 ar2 : Areas) : yard_step ar1 ar2 -> yard_steps ar1 ar2.
Proof.
  intros. eapply StepsCons; eauto. constructor.
Qed.

(** A slot only ever gains containers, and its counter drops by the number
    gained; everything else about it is fixed. *)
Definition slot_grows (p p' : YardPosition) : Prop :=
  area p' = area p /\ row p' = row p /\ column p' = column p
  /\ max_tiers p' = max_tiers p
  /\ container_length p' = container_length p
  /\ is_reefer_position p' = is_reefer_position p
  /\ exists extra,
      containers p' = containers p ++ extra
      /\ available_tiers p' = available_tiers p - Z.of_nat (List.length extra).

Definition area_grows (a a' : YardArea) : Prop :=
  name a' = name a
  /\ allowed_weight_classes a' = allowed_weight_classes a
  /\ max_stack_height a' = max_stack_height a
  /\ Forall2 slot_grows (positions a) (positions a').

Definition yard_grows (ar ar' : Areas) : Prop :=
  Forall2 (fun kv kv' => fst kv' = fst kv /\ area_grows (snd kv) (snd kv'))
          ar ar'.

Lemma Forall2_refl_on {A} (R : A -> A -> Prop) (l : list A) :
  (forall x, R x x) -> Forall2 R l l.
Proof.
  intros HR. induction l; constructor; auto.
Qed.

Lemma Forall2_trans_on {A} (R : A -> A -> Prop) (l1 l2 l3 : list A) :
  (forall x y z, R x y -> R y z -> R x z) ->
  Forall2 R l1 l2 -> Forall2 R l2 l3 -> Forall2 R l1 l3.
Proof.
  intros HR H12. revert l3.
  induction H12; intros l3 H23; inversion H23; subst; constructor; eauto.
Qed.

Lemma slot_grows_refl (p : YardPosition) : slot_grows p p.
Proof.
  unfold slot_grows. repeat split; auto.
  exists []. rewrite app_nil_r. simpl. split; auto. lia.
Qed.

Lemma slot_grows_trans (p q r : YardPosition) :
  slot_grows p q -> slot_grows q r -> slot_grows p r.
Proof.
  intros (A1 & A2 & A3 & A4 & A5 & A6 & e1 & C1 & T1)
         (B1 & B2 & B3 & B4 & B5 & B6 & e2 & C2 & T2).
  unfold slot_grows. repeat split; try congruence.
  exists (e1 ++ e2). rewrite C2, C1, app_assoc, length_app. split; auto. lia.
Qed.

Lemma slot_grows_stacked (p : YardPosition) (c : Container) :
  slot_grows p (stacked p c).
Proof.
  unfold slot_grows. simpl. repeat split; auto.
  exists [c]. simpl. split; auto.
Qed.

Lemma area_grows_refl (a : YardArea) : area_grows a a.
Proof.
  unfold area_grows. repeat split; auto.
  apply Forall2_refl_on, slot_grows_refl.
Qed.

Lemma area_grows_trans (a b c : YardArea) :
  area_grows a b -> area_grows b c -> area_grows a c.
Proof.
  intros (A1 & A2 & A3 & A4) (B1 & B2 & B3 & B4).
  unfold area_grows. repeat split; try congruence.
  eapply Forall2_trans_on; eauto using slot_grows_trans.
Qed.

Lemma area_grows_place (a : YardArea) (c : Container) :
  area_grows a (fst (area_place_container a c)).
Proof.
  destruct (area_place_outcome a c) as [|pre post p Hps _ _]; simpl.
  - apply area_grows_refl.
  - unfold area_grows. simpl. repeat split; auto. rewrite Hps.
    apply Forall2_app.
    + apply Forall2_refl_on, slot_grows_refl.
    + constructor.
      * apply slot_grows_stacked.
      * apply Forall2_refl_on, slot_grows_refl.
Qed.

Lemma yard_grows_refl (ar : Areas) : yard_grows ar ar.
Proof.
  apply Forall2_refl_on. intros; split; auto using area_grows_refl.
Qed.

Lemma yard_grows_trans (ar1 ar2 ar3 : Areas) :
  yard_grows ar1 ar2 -> yard_grows ar2 ar3 -> yard_grows ar1 ar3.
Proof.
  apply Forall2_trans_on.
  intros x y z [E1 G1] [E2 G2]. split; [congruence|].
  eapply area_grows_trans; eauto.
Qed.

Lemma yard_step_grows (ar ar' : Areas) : yard_step ar ar' -> yard_grows ar ar'.
Proof.
  intros [pre post n a c]. apply Forall2_app.
  - apply yard_grows_refl.
  - constructor.
    + simpl. split; auto. apply area_grows_place.
    + apply yard_grows_refl.
Qed.

Lemma yard_steps_grows (ar ar' : Areas) :
  yard_steps ar ar' -> yard_grows ar ar'.
Proof.
  induction 1.
  - apply yard_grows_refl.
  - eapply yard_grows_trans; eauto using yard_step_grows.
Qed.

Lemma yard_grows_keys (ar ar' : Areas) :
  yard_grows ar ar' -> map fst ar' = map fst ar.
Proof.
  induction 1 as [|x y l l' [E _] _ IH]; simpl; congruence.
Qed.

(** What must hold of every slot whatever has been stacked on it. *)
Definition slot_ok (awc : list Z) (p : YardPosition) : Prop :=
  0 <= available_tiers p
  /\ available_tiers p + Z.of_nat (List.length (containers p)) = max_tiers p
  /\ Forall (fun c => (category c = "Reefer" -> is_reefer_position p = true)
                      /\ container_length p = Some (size c)
                      /\ In (weight_class c) awc)
            (containers p).

Definition area_ok (a : YardArea) : Prop :=
  Forall (slot_ok (allowed_weight_classes a)) (positions a).

Definition yard_ok (ar : Areas) : Prop :=
  Forall (fun kv => area_ok (snd kv)) ar.

Lemma slot_ok_stacked (awc : list Z) (p : YardPosition) (c : Container) :
  slot_ok awc p -> slot_accepts p c awc -> slot_ok awc (stacked p c).
Proof.
  intros (H0 & Hsum & Hall) (Hlen & Hpos & Hwc & Hreef).
  unfold slot_ok. simpl. rewrite length_app. simpl. repeat split; try lia.
  apply Forall_app. split; auto.
Qed.

Lemma area_ok_place (a : YardArea) (c : Container) :
  area_ok a -> area_ok (fst (area_place_container a c)).
Proof.
  intros Hok. destruct (area_place_outcome a c) as [|pre post p Hps _ Hp];
    simpl; auto.
  unfold area_ok in *. simpl. rewrite Hps in Hok.
  apply Forall_app in Hok. destruct Hok as [H1 H2].
  inversion H2; subst.
  apply Forall_app. split; auto. constructor; auto.
  now apply slot_ok_stacked.
Qed.

Lemma yard_ok_step (ar ar' : Areas) : yard_step ar ar' -> yard_ok ar -> yard_ok ar'.
Proof.
  intros [pre post n a c] Hok. unfold yard_ok in *.
  apply Forall_app in Hok. destruct Hok as [H1 H2]. inversion H2; subst.
  apply Forall_app. split; auto. constructor; auto.
  simpl in *. now apply area_ok_place.
Qed.

Lemma yard_ok_steps (ar ar' : Areas) :
  yard_steps ar ar' -> yard_ok ar -> yard_ok ar'.
Proof.
  induction 1; eauto using yard_ok_step.
Qed.

(** Some zone of the yard permits the weight class. *)
Definition permits (ar : Areas) (wc : Z) : Prop :=
  exists kv, In kv ar /\ In wc (allowed_weight_classes (snd kv)).

Lemma yard_grows_permits (ar ar' : Areas) (wc : Z) :
  yard_grows ar ar' -> permits ar' wc -> permits ar wc.
Proof.
  induction 1 as [|x y l l' [E (_ & Ha & _)] _ IH]; intros (kv & Hin & Hwc).
  - contradiction.
  - destruct Hin as [<-|Hin].
    + exists x. split; [now left | congruence].
    + destruct IH as (kv' & Hin' & Hwc'); [now exists kv|].
      exists kv'. split; [now right | auto].
Qed.

(** ** Placing into a named zone and into any zone *)

Lemma place_in_area_found (ar : Areas) (n : string) (a : YardArea)
    (c : Container) :
  dict_get String.eqb ar n = Some a ->
  place_in_area ar n c
  = Ok (dict_set String.eqb ar n (fst (area_place_container a c)),
        snd (area_place_container a c))
  /\ yard_step ar (dict_set String.eqb ar n (fst (area_place_container a c))).
Proof.
  intros Hget. unfold place_in_area, dict_lookup. rewrite Hget. simpl.
  destruct (area_place_container a c) as [a' code] eqn:E. simpl. split; auto.
  destruct (dict_get_split _ _ Hget) as (pre & post & -> & _ & Hset).
  rewrite Hset. replace a' with (fst (area_place_container a c))
    by now rewrite E.
  constructor.
Qed.

Lemma usage_add_found (usage : Usage) (n : string) (v k : Z) :
  dict_get String.eqb usage n = Some v ->
  usage_add usage n k = Ok (dict_set String.eqb usage n (v + k)).
Proof.
  intros H. unfold usage_add, dict_lookup. now rewrite H.
Qed.

(** The zone has a slot that takes the container. *)
Definition zone_offers (a : YardArea) (c : Container) : Prop :=
  exists p, In p (positions a) /\ slot_accepts p c (allowed_weight_classes a).

Lemma place_none_no_offer (a a' : YardArea) (c : Container) :
  area_place_container a c = (a', None) -> a' = a /\ ~ zone_offers a c.
Proof.
  intros E. pose proof (area_place_outcome a c) as O. rewrite E in O.
  inversion O as [Hall|]; subst. split; auto.
  intros (p & Hin & Hp). rewrite Forall_forall in Hall. now apply (Hall p).
Qed.

Lemma place_some_offer (a a' : YardArea) (c : Container) (code : string) :
  area_place_container a c = (a', Some code) ->
  zone_offers a c /\ truthy (Some code) = Some code.
Proof.
  intros E. pose proof (area_place_outcome a c) as O. rewrite E in O.
  inversion O as [|pre post p Hps Hpre Hp]; subst. split.
  - exists p. split; auto. rewrite Hps. apply in_or_app. right. now left.
  - apply truthy_position_code.
Qed.

Lemma not_allowed_no_offer (a : YardArea) (c : Container) :
  Z_in (weight_class c) (allowed_weight_classes a) = false ->
  ~ zone_offers a c.
Proof.
  intros E (p & _ & _ & _ & Hwc & _). apply Z_in_iff in Hwc. congruence.
Qed.

(** What [_place_container_anywhere] does: the zones are looked at in
    declaration order and the container goes to the first one that has a
    slot for it. *)
Inductive anywhere_outcome (ar : Areas) (c : Container) (pm : PlacementMap)
    (usage : Usage)
  : result (Areas * PlacementMap * Usage * bool) -> Prop :=
| AnywhereNone :
    Forall (fun kv => ~ zone_offers (snd kv) c) ar ->
    anywhere_outcome ar c pm usage (Ok (ar, pm, usage, false))
| AnywhereSome (pre post : Areas) (n code : string) (a a' : YardArea)
               (usage' : Usage) :
    ar = pre ++ (n, a) :: post ->
    Forall (fun kv => ~ zone_offers (snd kv) c) pre ->
    zone_offers a c ->
    area_place_container a c = (a', Some code) ->
    usage_add usage n 1 = Ok usage' ->
    anywhere_outcome ar c pm usage
      (Ok (pre ++ (n, a') :: post,
           dict_set String.eqb pm (unit_number c) (anywhere_record c code n),
           usage', true))
| AnywhereRaise (pre post : Areas) (n : string) (a : YardArea) (e : Exn) :
    ar = pre ++ (n, a) :: post ->
    zone_offers a c ->
    usage_add usage n 1 = Raise e ->
    anywhere_outcome ar c pm usage (Raise e).

Lemma anywhere_loop_outcome (todo seen : Areas) (c : Container)
    (pm : PlacementMap) (usage : Usage) :
  Forall (fun kv => ~ zone_offers (snd kv) c) seen ->
  anywhere_outcome (seen ++ todo) c pm usage
                   (anywhere_loop seen todo c pm usage).
Proof.
  revert seen. induction todo as [|[n a] todo IH]; intros seen Hseen; simpl.
  - rewrite app_nil_r. now apply AnywhereNone.
  - assert (Hshift : forall x : string * YardArea,
               (seen ++ [x]) ++ todo = seen ++ x :: todo).
    { intros x. now rewrite <- app_assoc. }
    destruct (Z_in (weight_class c) (allowed_weight_classes a)) eqn:Ewc.
    + destruct (area_place_container a c) as [a' code] eqn:E.
      destruct code as [code|].
      * destruct (place_some_offer _ _ E) as [Hoff Htr]. rewrite Htr.
        destruct (usage_add usage n 1) as [usage'|e] eqn:Eu; simpl.
        -- eapply AnywhereSome; eauto.
        -- eapply AnywhereRaise; eauto.
      * destruct (place_none_no_offer _ _ E) as [-> Hno]. simpl.
        rewrite <- Hshift. apply IH.
        apply Forall_app. split; auto.
    + rewrite <- Hshift. apply IH.
      apply Forall_app. split; auto. constructor; auto.
      simpl. now apply not_allowed_no_offer.
Qed.

Lemma place_anywhere_outcome (c : Container) (st : RunState) :
  anywhere_outcome (rs_areas st) c (rs_map st) (rs_usage st)
    (anywhere_loop [] (rs_areas st) c (rs_map st) (rs_usage st)).
Proof.
  apply (@anywhere_loop_outcome (rs_areas st) [] c (rs_map st) (rs_usage st)).
  constructor.
Qed.

(** ** Remaining capacity of a zone *)

Definition free_tiers (a : YardArea) : Z :=
  sumZ (map available_tiers (positions a)).

Lemma fold_add_shift (l : list Z) (x : Z) :
  fold_left Z.add l x = x + fold_left Z.add l 0.
Proof.
  revert x. induction l as [|y l IH]; intros x; simpl; [lia|].
  rewrite (IH (x + y)), (IH y). lia.
Qed.

Lemma sumZ_cons (x : Z) (l : list Z) : sumZ (x :: l) = x + sumZ l.
Proof.
  unfold sumZ. simpl. apply fold_add_shift.
Qed.

Lemma sumZ_app (l1 l2 : list Z) : sumZ (l1 ++ l2) = sumZ l1 + sumZ l2.
Proof.
  induction l1 as [|x l1 IH]; cbn [app].
  - change (sumZ []) with 0. lia.
  - rewrite !sumZ_cons, IH. lia.
Qed.

(** A call of [YardArea.place_container] that returns a code takes one tier
    from the zone; a call that returns none takes nothing. *)
Lemma free_tiers_place (a : YardArea) (c : Container) :
  free_tiers (fst (area_place_container a c))
  = free_tiers a - match snd (area_place_container a c) with
                   | Some _ => 1
                   | None => 0
                   end.
Proof.
  destruct (area_place_outcome a c) as [|pre post p Hps _ _]; simpl.
  - lia.
  - unfold free_tiers. simpl. rewrite Hps, !map_app, !sumZ_app. simpl.
    rewrite !sumZ_cons. lia.
Qed.

(** ** One attempt of the inbound strategy in one candidate zone *)

(** Entry [(u, r)] of [temp_placements] was written for a container of the
    group that the zone [n] took. *)
Definition attempt_entry (n : string) (t : option string) (pm : PlacementMap)
    (g : list Container) (awc : list Z) (u : string) (r : Placement) : Prop :=
  exists c code,
    In c g /\ u = unit_number c /\ r = import_record c code n t
    /\ In (weight_class c) awc
    /\ dict_mem String.eqb pm u = false.

Lemma place_code_allowed (a : YardArea) (c : Container) (s : string) :
  snd (area_place_container a c) = Some s ->
  In (weight_class c) (allowed_weight_classes a).
Proof.
  intros E. destruct (area_place_container a c) as [a' code] eqn:E1.
  simpl in E. subst. apply place_some_offer in E1.
  destruct E1 as [(p & _ & _ & _ & H & _) _]. exact H.
Qed.

Lemma import_attempt_step_skip (n : string) (t : option string)
    (pm temp : PlacementMap) (ar : Areas) (cnt : Z) (c : Container) :
  dict_mem String.eqb pm (unit_number c) = true ->
  import_attempt_step n t pm (ar, temp, cnt) c = Ok (ar, temp, cnt).
Proof.
  intros E. unfold import_attempt_step. now rewrite E.
Qed.

Lemma import_attempt_step_place (n : string) (t : option string)
    (pm temp : PlacementMap) (ar : Areas) (cnt : Z) (c : Container)
    (a : YardArea) :
  dict_mem String.eqb pm (unit_number c) = false ->
  dict_get String.eqb ar n = Some a ->
  import_attempt_step n t pm (ar, temp, cnt) c
  = Ok match snd (area_place_container a c) with
       | Some s =>
           (dict_set String.eqb ar n (fst (area_place_container a c)),
            dict_set String.eqb temp (unit_number c)
                     (import_record c s n t),
            cnt + 1)
       | None =>
           (dict_set String.eqb ar n (fst (area_place_container a c)),
            temp, cnt)
       end.
Proof.
  intros E Hget. unfold import_attempt_step. rewrite E.
  destruct (@place_in_area_found ar n a c Hget) as [-> _]. cbn [bind].
  destruct (area_place_container a c) as [a1 code] eqn:E1. cbn [fst snd].
  destruct code as [s|]; [|reflexivity].
  apply place_some_offer in E1. destruct E1 as [_ ->]. reflexivity.
Qed.

Lemma import_attempt_fold (n : string) (t : option string)
    (pm : PlacementMap) (g : list Container) :
  forall (ar : Areas) (temp : PlacementMap) (cnt : Z) (a : YardArea),
    dict_get String.eqb ar n = Some a ->
    exists ar' temp' cnt' a',
      foldM (import_attempt_step n t pm) g (ar, temp, cnt)
      = Ok (ar', temp', cnt')
      /\ yard_steps ar ar'
      /\ dict_get String.eqb ar' n = Some a'
      /\ (forall m, m <> n ->
                    dict_get String.eqb ar' m = dict_get String.eqb ar m)
      /\ free_tiers a' = free_tiers a - (cnt' - cnt)
      /\ cnt <= cnt' <= cnt + Z.of_nat (List.length g)
      /\ (forall u r, In (u, r) temp' ->
            In (u, r) temp
            \/ attempt_entry n t pm g (allowed_weight_classes a) u r).
Proof.
  induction g as [|c g IH]; intros ar temp cnt a Hget.
  - exists ar, temp, cnt, a. simpl. repeat split; auto; try lia.
    constructor.
  - cbn [foldM].
    destruct (dict_mem String.eqb pm (unit_number c)) eqn:Emem.
    + rewrite import_attempt_step_skip by assumption. cbn [bind].
      destruct (IH ar temp cnt a Hget)
        as (ar' & temp' & cnt' & a' & Hf & Hs & Hg & Ho & Hfree & Hc & Ht).
      exists ar', temp', cnt', a'. cbn [List.length].
      repeat split; auto; try lia.
      intros u r Hin. destruct (Ht u r Hin) as [|(c1 & s & H1 & H2)]; auto.
      right. exists c1, s. split; [now right | exact H2].
    + rewrite (@import_attempt_step_place n t pm temp ar cnt c a Emem Hget).
      destruct (@place_in_area_found ar n a c Hget) as [_ Hstep].
      set (a1 := fst (area_place_container a c)) in *.
      set (ar1 := dict_set String.eqb ar n a1) in *.
      assert (Hget1 : dict_get String.eqb ar1 n = Some a1)
        by apply dict_get_set_same.
      assert (Hawc : allowed_weight_classes a1 = allowed_weight_classes a)
        by apply (area_grows_place a c).
      assert (Hother : forall m, m <> n ->
                dict_get String.eqb ar1 m = dict_get String.eqb ar m).
      { intros m Hm. unfold ar1. now apply dict_get_set_other. }
      pose proof (free_tiers_place a c) as Hft. fold a1 in Hft.
      destruct (snd (area_place_container a c)) as [s|] eqn:Ecode.
      * cbn [bind].
        destruct (IH ar1
                     (dict_set String.eqb temp (unit_number c)
                        (import_record c s n t))
                     (cnt + 1) a1 Hget1)
          as (ar' & temp' & cnt' & a' & Hf & Hs & Hg & Ho & Hfree & Hc & Ht).
        exists ar', temp', cnt', a'. cbn [List.length].
        repeat split; auto; try lia.
        -- eapply StepsCons; eauto.
        -- intros m Hm. rewrite (Ho m Hm). auto.
        -- intros u r Hin. rewrite Hawc in Ht.
           destruct (Ht u r Hin) as [H1|(c1 & s1 & H1 & H2)].
           ++ apply dict_set_in in H1. destruct H1 as [[-> ->]|H1]; auto.
              right. exists c, s. repeat split; auto.
              ** now left.
              ** eapply place_code_allowed; eauto.
           ++ right. exists c1, s1. split; [now right | exact H2].
      * cbn [bind].
        destruct (IH ar1 temp cnt a1 Hget1)
          as (ar' & temp' & cnt' & a' & Hf & Hs & Hg & Ho & Hfree & Hc & Ht).
        exists ar', temp', cnt', a'. cbn [List.length].
        repeat split; auto; try lia.
        -- eapply StepsCons; eauto.
        -- intros m Hm. rewrite (Ho m Hm). auto.
        -- intros u r Hin. rewrite Hawc in Ht.
           destruct (Ht u r Hin) as [H1|(c1 & s1 & H1 & H2)]; auto.
           right. exists c1, s1. split; [now right | exact H2].
Qed.

Lemma import_attempt_spec (n : string) (t : option string)
    (pm : PlacementMap) (g : list Container) (ar : Areas) (a : YardArea) :
  dict_get String.eqb ar n = Some a ->
  exists ar' temp cnt a',
    import_attempt n t g pm ar = Ok (ar', temp, cnt)
    /\ yard_steps ar ar'
    /\ dict_get String.eqb ar' n = Some a'
    /\ (forall m, m <> n ->
                  dict_get String.eqb ar' m = dict_get String.eqb ar m)
    /\ free_tiers a' = free_tiers a - cnt
    /\ 0 <= cnt <= Z.of_nat (List.length g)
    /\ (forall u r, In (u, r) temp ->
          attempt_entry n t pm g (allowed_weight_classes a) u r).
Proof.
  intros Hget. unfold import_attempt.
  destruct (@import_attempt_fold n t pm g ar [] 0 a Hget)
    as (ar' & temp & cnt & a' & Hf & Hs & Hg & Ho & Hfree & Hc & Ht).
  exists ar', temp, cnt, a'. repeat split; auto; try lia.
  intros u r Hin. destruct (Ht u r Hin) as [[]|H]. exact H.
Qed.

(** ** The threshold loop of the inbound strategy *)

(** The float comparison against [len * 0.8] decides [4 * len <= 5 * cnt]. *)
Lemma reaches_threshold_iff (cnt : Z) (g : list Container) :
  reaches_threshold cnt g = true <-> 4 * Z.of_nat (List.length g) <= 5 * cnt.
Proof.
  unfold reaches_threshold. rewrite Qle_bool_iff.
  unfold Qle, Qmult, inject_Z. cbn [Qnum Qden Pos.mul]. lia.
Qed.

Lemma reaches_threshold_false (cnt : Z) (g : list Container) :
  reaches_threshold cnt g = false <-> 5 * cnt < 4 * Z.of_nat (List.length g).
Proof.
  pose proof (reaches_threshold_iff cnt g) as H.
  destruct (reaches_threshold cnt g).
  - split; [discriminate|]. intros L.
    assert (4 * Z.of_nat (List.length g) <= 5 * cnt) by now apply H.
    lia.
  - split; auto. intros _.
    destruct (Z_lt_le_dec (5 * cnt) (4 * Z.of_nat (List.length g))) as [L|L];
      auto.
    apply H in L. discriminate.
Qed.

(** Attempts in the listed zones, one after the other, each ending below
    the threshold; the yard is handed from one attempt to the next. *)
Inductive attempts_below (t : option string) (g : list Container)
    (pm : PlacementMap) : list string -> Areas -> Areas -> Prop :=
| BelowNil (ar : Areas) : attempts_below t g pm [] ar ar
| BelowCons (n : string) (rest : list string) (ar ar' ar'' : Areas)
            (temp : PlacementMap) (cnt : Z) :
    import_attempt n t g pm ar = Ok (ar', temp, cnt) ->
    5 * cnt < 4 * Z.of_nat (List.length g) ->
    attempts_below t g pm rest ar' ar'' ->
    attempts_below t g pm (n :: rest) ar ar''.

Lemma yard_steps_keys (ar ar' : Areas) :
  yard_steps ar ar' -> map fst ar' = map fst ar.
Proof.
  intros H. now apply yard_grows_keys, yard_steps_grows.
Qed.

Lemma run_state_eta (st : RunState) :
  st = mkRunState (rs_areas st) (rs_map st) (rs_usage st) (rs_placed st).
Proof.
  now destruct st.
Qed.

Lemma import_try_areas_spec (t : option string) (g : list Container)
    (suitable : list string) :
  forall st : RunState,
    (forall n, In n suitable -> In n (map fst (rs_areas st))) ->
    map fst (rs_usage st) = map fst (rs_areas st) ->
    (exists pre n post ar_mid ar' temp cnt v a_mid a',
        suitable = pre ++ n :: post
        /\ attempts_below t g (rs_map st) pre (rs_areas st) ar_mid
        /\ import_attempt n t g (rs_map st) ar_mid = Ok (ar', temp, cnt)
        /\ 4 * Z.of_nat (List.length g) <= 5 * cnt
        /\ dict_get String.eqb (rs_usage st) n = Some v
        /\ import_try_areas suitable t g st
           = Ok (mkRunState ar' (dict_update String.eqb (rs_map st) temp)
                   (dict_set String.eqb (rs_usage st) n (v + cnt))
                   (rs_placed st + cnt), true)
        /\ (yard_steps (rs_areas st) ar_mid /\ yard_steps (rs_areas st) ar')
        /\ dict_get String.eqb ar_mid n = Some a_mid
        /\ dict_get String.eqb ar' n = Some a'
        /\ free_tiers a' = free_tiers a_mid - cnt
        /\ (forall u r, In (u, r) temp ->
              attempt_entry n t (rs_map st) g
                            (allowed_weight_classes a_mid) u r))
    \/ (exists ar_mid,
           attempts_below t g (rs_map st) suitable (rs_areas st) ar_mid
           /\ import_try_areas suitable t g st
              = Ok (mkRunState ar_mid (rs_map st) (rs_usage st)
                               (rs_placed st), false)
           /\ yard_steps (rs_areas st) ar_mid).
Proof.
  induction suitable as [|n rest IH]; intros st Hkeys Husage.
  - right. exists (rs_areas st). simpl. repeat split.
    + constructor.
    + now rewrite <- run_state_eta.
    + constructor.
  - assert (Hn : In n (map fst (rs_areas st))) by (apply Hkeys; now left).
    destruct (dict_get_in_keys _ _ Hn) as [a Ha].
    destruct (@import_attempt_spec n t (rs_map st) g (rs_areas st) a Ha)
      as (ar' & temp & cnt & a' & Hat & Hs & Hg & Ho & Hfree & Hc & Ht).
    cbn [import_try_areas]. rewrite Hat. cbn [bind].
    destruct (reaches_threshold cnt g) eqn:Ethr.
    + left. apply reaches_threshold_iff in Ethr.
      assert (Hu : In n (map fst (rs_usage st))) by now rewrite Husage.
      destruct (dict_get_in_keys _ _ Hu) as [v Hv].
      exists [], n, rest, (rs_areas st), ar', temp, cnt, v, a, a'.
      rewrite (usage_add_found _ _ cnt Hv). cbn [bind].
      repeat split; auto; constructor.
    + apply reaches_threshold_false in Ethr.
      set (st1 := mkRunState ar' (rs_map st) (rs_usage st) (rs_placed st)).
      assert (Hk1 : map fst ar' = map fst (rs_areas st))
        by now apply yard_steps_keys.
      destruct (IH st1) as
          [(pre & m & post & ar_mid & ar2 & temp2 & cnt2 & v & a_mid & a2
            & -> & Hb & Hat2 & Hthr & Hv & Heq & [Hs2 Hs3] & H1 & H2 & H3 & H4)
          |(ar_mid & Hb & Heq & Hs2)].
      * simpl. intros m Hm. rewrite Hk1. apply Hkeys. now right.
      * simpl. congruence.
      * left. simpl in *.
        exists (n :: pre), m, post, ar_mid, ar2, temp2, cnt2, v, a_mid, a2.
        repeat split; auto.
        -- eapply BelowCons; eauto.
        -- eapply yard_steps_trans; eauto.
        -- eapply yard_steps_trans; eauto.
      * right. simpl in *. exists ar_mid. repeat split; auto.
        -- eapply BelowCons; eauto.
        -- eapply yard_steps_trans; eauto.
Qed.

(** ** The inbound strategy on one carrier group *)

Lemma import_suitable_iff (ar : Areas) (g : list Container) (n : string) :
  In n (import_suitable_areas ar g)
  <-> exists a, In (n, a) ar
                /\ forall c, In c g ->
                             In (weight_class c) (allowed_weight_classes a).
Proof.
  unfold import_suitable_areas, can_accommodate.
  rewrite in_map_iff. split.
  - intros ([n' a] & <- & Hin). apply filter_In in Hin.
    destruct Hin as [Hin Hall]. exists a. split; auto.
    intros c Hc. simpl in Hall. rewrite forallb_forall in Hall.
    apply Z_in_iff. auto.
  - intros (a & Hin & Hall). exists (n, a). split; auto.
    apply filter_In. split; auto. simpl. apply forallb_forall.
    intros c Hc. apply Z_in_iff. auto.
Qed.

Lemma import_suitable_keys (ar : Areas) (g : list Container) (n : string) :
  In n (import_suitable_areas ar g) -> In n (map fst ar).
Proof.
  intros H. apply import_suitable_iff in H. destruct H as (a & Hin & _).
  apply in_map_iff. now exists (n, a).
Qed.


Lemma usage_add_inv (usage usage' : Usage) (n : string) (k : Z) :
  usage_add usage n k = Ok usage' ->
  exists v, dict_get String.eqb usage n = Some v
            /\ usage' = dict_set String.eqb usage n (v + k).
Proof.
  unfold usage_add, dict_lookup.
  destruct (dict_get String.eqb usage n) as [v|]; simpl; [|discriminate].
  intros H. inversion H. eauto.
Qed.

Lemma usage_add_raise (usage : Usage) (n : string) (k : Z) (e : Exn) :
  usage_add usage n k = Raise e -> ~ In n (map fst usage).
Proof.
  unfold usage_add, dict_lookup.
  destruct (dict_get String.eqb usage n) as [v|] eqn:E; simpl; [discriminate|].
  intros _. now apply dict_get_none.
Qed.

















(** ** Invariants of a run *)

Lemma foldM_inv {A S} (I : S -> Prop) (f : S -> A -> result S) (l : list A) :
  (forall s a, In a l -> I s -> exists s', f s a = Ok s' /\ I s') ->
  forall s, I s -> exists s', foldM f l s = Ok s' /\ I s'.
Proof.
  induction l as [|a l IH]; intros Hf s Hs; simpl.
  - eauto.
  - destruct (Hf s a (or_introl eq_refl) Hs) as (s1 & -> & H1). simpl.
    apply IH; auto. intros s2 b Hb. apply Hf. now right.
Qed.

Lemma dict_update_Forall {V} (P : string * V -> Prop) (d e : dict string V) :
  Forall P d -> Forall P e -> Forall P (dict_update String.eqb d e).
Proof.
  intros Hd He. apply Forall_forall. intros [k v] Hin.
  apply dict_update_in in Hin. rewrite Forall_forall in Hd, He.
  destruct Hin; auto.
Qed.

Lemma dict_set_Forall_in {V} (P : string * V -> Prop) (d : dict string V)
    (k : string) (v : V) :
  Forall P d -> P (k, v) -> Forall P (dict_set String.eqb d k v).
Proof.
  intros Hd Hkv. apply Forall_forall. intros [k1 v1] Hin.
  apply dict_set_in in Hin. rewrite Forall_forall in Hd.
  destruct Hin as [[-> ->]|Hin]; auto.
Qed.

Section RunInvariant.
Variable RP : Placement -> Prop.
Variable cs : list Container.
Variable areas0 : Areas.
Hypothesis RP_anywhere : forall c code n, RP (anywhere_record c code n).

(** An entry of the placement map belongs to a container of the batch
    whose weight class some zone permits. *)
Definition entry_ok (ur : string * Placement) : Prop :=
  RP (snd ur)
  /\ exists c, In c cs /\ unit_number c = fst ur
               /\ permits areas0 (weight_class c).

Record run_inv (st : RunState) : Prop := mkRunInv {
  inv_steps : yard_steps areas0 (rs_areas st);
  inv_usage : map fst (rs_usage st) = map fst areas0;
  inv_map : Forall entry_ok (rs_map st)
}.

Lemma run_inv_keys (st : RunState) :
  run_inv st -> map fst (rs_usage st) = map fst (rs_areas st).
Proof.
  intros [Hs Hu _]. rewrite Hu. symmetry. now apply yard_steps_keys.
Qed.

Lemma permits_of_allowed (ar : Areas) (n : string) (a : YardArea) (wc : Z) :
  yard_steps areas0 ar -> In (n, a) ar ->
  In wc (allowed_weight_classes a) -> permits areas0 wc.
Proof.
  intros Hs Hin Hwc. apply (@yard_grows_permits areas0 ar wc).
  - now apply yard_steps_grows.
  - exists (n, a). auto.
Qed.

Lemma offer_allowed (a : YardArea) (c : Container) :
  zone_offers a c -> In (weight_class c) (allowed_weight_classes a).
Proof.
  intros (p & _ & _ & _ & H & _). exact H.
Qed.

Lemma anywhere_inv (st : RunState) (c : Container) :
  run_inv st -> In c cs ->
  exists st' b, _place_container_anywhere c st = Ok (st', b) /\ run_inv st'.
Proof.
  intros Hinv Hc. pose proof (@run_inv_keys st Hinv) as Hkeys.
  destruct Hinv as [Hs Hu Hm]. unfold _place_container_anywhere.
  destruct (place_anywhere_outcome c st)
    as [Hnone|pre post n code a a' usage' Har Hpre Hoff Hpl Hadd
        |pre post n a e Har Hoff Hadd].
  - cbn [bind]. eexists; eexists. split; [reflexivity|].
    constructor; auto.
  - cbn [bind]. eexists; eexists. split; [reflexivity|].
    apply usage_add_inv in Hadd. destruct Hadd as (v & Hv & ->).
    constructor; cbn [rs_areas rs_usage rs_map].
    + eapply yard_steps_trans; [exact Hs|]. apply yard_steps_one.
      rewrite Har. replace a' with (fst (area_place_container a c))
        by now rewrite Hpl.
      constructor.
    + rewrite dict_set_keys_present; auto.
      apply dict_get_some_in in Hv. apply in_map_iff. now exists (n, v).
    + apply dict_set_Forall_in; auto. split; [apply RP_anywhere|].
      exists c. repeat split; auto.
      apply (@permits_of_allowed (rs_areas st) n a); auto.
      * rewrite Har. apply in_or_app. right. now left.
      * now apply offer_allowed.
  - exfalso. apply usage_add_raise in Hadd. apply Hadd.
    rewrite Hkeys, Har, map_app. apply in_or_app. right. now left.
Qed.

Lemma run_inv_add_placed (st : RunState) (k : Z) :
  run_inv st -> run_inv (add_placed st k).
Proof.
  intros [Hs Hu Hm]. constructor; auto.
Qed.

Lemma import_fallback_inv (st : RunState) (c : Container) :
  run_inv st -> In c cs ->
  exists st', import_fallback_step st c = Ok st' /\ run_inv st'.
Proof.
  intros Hinv Hc. unfold import_fallback_step.
  destruct (dict_mem String.eqb (rs_map st) (unit_number c)); eauto.
  destruct (@anywhere_inv st c Hinv Hc) as (st' & b & -> & Hinv'). cbn [bind].
  destruct b; eauto using run_inv_add_placed.
Qed.

Lemma export_fallback_inv (st : RunState) (c : Container) :
  run_inv st -> In c cs ->
  exists st', export_fallback_step st c = Ok st' /\ run_inv st'.
Proof.
  intros Hinv Hc. unfold export_fallback_step.
  destruct (@anywhere_inv st c Hinv Hc) as (st' & b & -> & Hinv'). cbn [bind].
  destruct b; eauto using run_inv_add_placed.
Qed.

Lemma import_group_inv (st : RunState) (t : option string)
    (g : list Container) :
  (forall c code n t', RP (import_record c code n t')) ->
  run_inv st -> (forall c, In c g -> In c cs) ->
  exists st', import_group st (t, g) = Ok st' /\ run_inv st'.
Proof.
  intros RPi Hinv Hg. pose proof (@run_inv_keys st Hinv) as Hkeys.
  destruct Hinv as [Hs Hu Hm]. unfold import_group.
  destruct (@import_try_areas_spec t g
              (import_suitable_areas (rs_areas st) g) st)
    as [(pre & n & post & ar_mid & ar' & temp & cnt & v & a_mid & a'
         & Hsplit & Hb & Hat & Hthr & Hv & Heq & [Hs1 Hs2] & H1 & H2 & H3 & H4)
       |(ar_mid & Hb & Heq & Hs1)]; auto.
  - intros n. apply import_suitable_keys.
  - rewrite Heq. cbn [bind]. eexists. split; [reflexivity|].
    constructor; cbn [rs_areas rs_usage rs_map].
    + eapply yard_steps_trans; eauto.
    + rewrite dict_set_keys_present; auto.
      apply dict_get_some_in in Hv. apply in_map_iff. now exists (n, v).
    + apply dict_update_Forall; auto. apply Forall_forall.
      intros [u r] Hin. destruct (H4 u r Hin) as (c & code & Hc & -> & -> & Hwc & _).
      split; [apply RPi|]. exists c. repeat split; auto.
      apply (@permits_of_allowed ar_mid n a_mid); auto.
      * eapply yard_steps_trans; eauto.
      * now apply dict_get_some_in.
  - rewrite Heq. cbn [bind].
    apply (foldM_inv run_inv).
    + intros s c Hc Hi. apply import_fallback_inv; auto.
    + constructor; cbn [rs_areas rs_usage rs_map]; auto.
      eapply yard_steps_trans; eauto.
Qed.
Lemma export_suitable_keys (ar : Areas) (wc : Z) (n : string) :
  In n (export_suitable_areas ar wc) -> In n (map fst ar).
Proof.
  unfold export_suitable_areas. intros H. apply in_map_iff in H.
  destruct H as (kv & <- & Hin). apply filter_In in Hin.
  apply in_map. apply Hin.
Qed.

Hypothesis RP_export :
  forall c code n p w, RP (export_record c code n p w).

Lemma export_drain_step_inv (n : string) (port0 : option string) (wc : Z)
    (st : RunState) (kept : list Container) (c : Container) :
  run_inv st -> In c cs -> In n (map fst areas0) ->
  exists st' kept',
    export_drain_step n port0 wc (st, kept) c = Ok (st', kept')
    /\ run_inv st' /\ (kept' = kept \/ kept' = kept ++ [c]).
Proof.
  intros Hinv Hc Hn. pose proof (@run_inv_keys st Hinv) as Hkeys.
  destruct Hinv as [Hs Hu Hm]. unfold export_drain_step.
  destruct (dict_mem String.eqb (rs_map st) (unit_number c)).
  { exists st, (kept ++ [c]). repeat split; auto. }
  assert (Hn1 : In n (map fst (rs_areas st))).
  { now rewrite (yard_steps_keys Hs). }
  destruct (dict_get_in_keys _ _ Hn1) as [a Ha].
  destruct (@place_in_area_found (rs_areas st) n a c Ha) as [-> Hstep].
  cbn [bind].
  destruct (area_place_container a c) as [a1 code] eqn:E. cbn [fst snd] in *.
  assert (Hs1 : yard_steps areas0 (dict_set String.eqb (rs_areas st) n a1)).
  { eapply yard_steps_trans; [exact Hs|]. now apply yard_steps_one. }
  destruct code as [s|].
  - destruct (place_some_offer _ _ E) as [Hoff ->].
    assert (Hn2 : In n (map fst (rs_usage st))) by now rewrite Hu.
    destruct (dict_get_in_keys _ _ Hn2) as [v Hv].
    rewrite (usage_add_found _ _ 1 Hv). cbn [bind].
    eexists; eexists. split; [reflexivity|]. split; auto.
    constructor; cbn [rs_areas rs_usage rs_map]; auto.
    + rewrite dict_set_keys_present; auto.
    + apply dict_set_Forall_in; auto. split; [apply RP_export|].
      exists c. repeat split; auto.
      apply (@permits_of_allowed (rs_areas st) n a); auto.
      * now apply dict_get_some_in.
      * now apply offer_allowed.
  - cbn [truthy]. eexists; eexists. split; [reflexivity|]. split; auto.
    constructor; cbn [rs_areas rs_usage rs_map]; auto.
Qed.

Lemma export_try_areas_inv (port0 : option string) (wc : Z)
    (suitable : list string) :
  forall (cc : list Container) (st : RunState),
    run_inv st -> (forall c, In c cc -> In c cs) ->
    (forall n, In n suitable -> In n (map fst areas0)) ->
    exists st', export_try_areas suitable port0 wc cc st = Ok st'
                /\ run_inv st'.
Proof.
  induction suitable as [|n rest IH]; intros cc st Hinv Hcc Hsuit;
    cbn [export_try_areas].
  - eauto.
  - destruct cc as [|c0 cc0]; [eauto|].
    set (cc := c0 :: cc0) in *.
    destruct (@foldM_inv Container (RunState * list Container)
                (fun acc => run_inv (fst acc)
                            /\ forall c, In c (snd acc) -> In c cs)
                (export_drain_step n port0 wc) cc) with (s := (st, @nil Container))
      as ([st1 kept1] & -> & Hinv1 & Hkept1).
    + intros [s kept] c Hc [Hi Hk]. cbn [fst snd] in *.
      destruct (@export_drain_step_inv n port0 wc s kept c)
        as (s' & kept' & -> & Hi' & Hk'); auto.
      { apply Hsuit. now left. }
      exists (s', kept'). cbn [fst snd].
      split; [reflexivity|]. split; [exact Hi'|].
      intros c1 Hc1. destruct Hk' as [->| ->]; auto.
      apply in_app_or in Hc1. destruct Hc1 as [|[<-|[]]]; auto.
    + cbn [fst snd]. split; auto. intros c [].
    + cbn [bind fst snd] in *. apply IH; auto.
      intros m Hm. apply Hsuit. now right.
Qed.
End RunInvariant.

(** ** Groups hold containers of the batch *)

Section AnyDict.
Variables K V : Type.
Variable eqb : K -> K -> bool.

Lemma dict_set_in_value (d : dict K V) (k k1 : K) (v v1 : V) :
  In (k1, v1) (dict_set eqb d k v) -> v1 = v \/ In (k1, v1) d.
Proof.
  induction d as [|[k2 v2] d IH]; simpl.
  - intros [E|[]]. inversion E; auto.
  - destruct (eqb k2 k); simpl.
    + intros [E|H]; [inversion E; auto | auto].
    + intros [E|H]; auto. destruct (IH H); auto.
Qed.

Lemma dict_get_value_in (d : dict K V) (k : K) (v : V) :
  dict_get eqb d k = Some v -> exists k', In (k', v) d.
Proof.
  induction d as [|[k2 v2] d IH]; simpl; [discriminate|].
  destruct (eqb k2 k).
  - intros E. inversion E; subst. eauto.
  - intros E. destruct (IH E) as [k' H]. eauto.
Qed.
End AnyDict.

Lemma lookup_or_empty_within {K V} (eqb : K -> K -> bool)
    (groups : dict K (list V)) (key : K) (Q : list V -> Prop) :
  (forall k w, In (k, w) groups -> Q w) -> Q [] ->
  Q match dict_get eqb groups key with
    | Some wg => wg
    | None => []
    end.
Proof.
  intros Hg Hnil. destruct (dict_get eqb groups key) as [w0|] eqn:E; auto.
  apply dict_get_value_in in E. destruct E as [k' E]. eauto.
Qed.

Lemma group_append_within {K} (eqb : K -> K -> bool)
    (groups : dict K (list Container)) (key : K) (c : Container)
    (P : Container -> Prop) :
  (forall k l, In (k, l) groups -> Forall P l) -> P c ->
  forall k l, In (k, l) (group_append eqb groups key c) -> Forall P l.
Proof.
  intros Hg Hc k l Hin. unfold group_append in Hin.
  destruct (dict_get eqb groups key) as [l0|] eqn:E.
  - apply dict_set_in_value in Hin. destruct Hin as [->|Hin]; eauto.
    apply dict_get_value_in in E. destruct E as [k' E].
    apply Forall_app. split; eauto.
  - apply dict_set_in_value in Hin. destruct Hin as [->|Hin]; eauto.
Qed.

Lemma transporter_groups_within (cs : list Container) (t : option string)
    (g : list Container) :
  In (t, g) (transporter_groups cs) -> forall c, In c g -> In c cs.
Proof.
  unfold transporter_groups.
  assert (H : forall rest groups,
             (forall k l, In (k, l) groups -> Forall (fun c => In c cs) l) ->
             (forall c, In c rest -> In c cs) ->
             forall k l,
               In (k, l)
                  (fold_left (fun g c => group_append oeqb g (transporter c) c)
                             rest groups) ->
               Forall (fun c => In c cs) l).
  { induction rest as [|c rest IH]; intros groups Hg Hrest k l; simpl; eauto.
    apply IH.
    - apply group_append_within; auto. apply Hrest. now left.
    - intros c1 Hc1. apply Hrest. now right. }
  intros Hin c Hc.
  specialize (H cs [] (fun k l (F : In (k, l) []) => match F with end)
                (fun c H => H) t g Hin).
  rewrite Forall_forall in H. auto.
Qed.

Lemma port_groups_within (cs : list Container) (p : option string)
    (wg : dict Z (list Container)) (wc : Z) (cc : list Container) :
  In (p, wg) (port_groups cs) -> In (wc, cc) wg ->
  forall c, In c cc -> In c cs.
Proof.
  unfold port_groups.
  set (Q := fun wg : dict Z (list Container) =>
              forall k l, In (k, l) wg -> Forall (fun c => In c cs) l).
  assert (H : forall rest groups,
             (forall k w, In (k, w) groups -> Q w) ->
             (forall c, In c rest -> In c cs) ->
             forall k w,
               In (k, w)
                  (fold_left
                     (fun g c =>
                        let wg := match dict_get oeqb g (port c) with
                                  | Some wg => wg
                                  | None => []
                                  end in
                        dict_set oeqb g (port c)
                          (group_append Z.eqb wg (weight_class c) c))
                     rest groups) ->
               Q w).
  { induction rest as [|c rest IH]; intros groups Hg Hrest k w; simpl; eauto.
    apply IH.
    - intros k1 w1 Hin. apply dict_set_in_value in Hin.
      destruct Hin as [->|Hin]; eauto.
      unfold Q. apply group_append_within.
      + apply (@lookup_or_empty_within (option string) _ oeqb groups (port c) Q).
        * exact Hg.
        * intros ? ? [].
      + apply Hrest. now left.
    - intros c1 Hc1. apply Hrest. now right. }
  intros Hin Hwg c Hc.
  specialize (H cs [] (fun k w (F : In (k, w) []) => match F with end)
                (fun c H => H) p wg Hin wc cc Hwg).
  rewrite Forall_forall in H. auto.
Qed.

(** ** Result compilation returns *)

Definition has_transporter (r : Placement) : Prop := p_transporter r <> None.
Definition has_port (r : Placement) : Prop := p_port r <> None.

Lemma pair_grouped_import (r1 r2 : Placement) :
  has_transporter r1 -> has_transporter r2 ->
  exists b, pair_grouped "IMPORT" r1 r2 = Ok b.
Proof.
  unfold has_transporter, pair_grouped. intros H1 H2. cbn [String.eqb].
  replace ("IMPORT" =? "IMPORT")%string with true by reflexivity.
  destruct (p_transporter r1); [|congruence].
  destruct (p_transporter r2); [|congruence]. simpl. eauto.
Qed.

Lemma pair_grouped_export (r1 r2 : Placement) :
  has_port r1 -> has_port r2 ->
  exists b, pair_grouped "EXPORT" r1 r2 = Ok b.
Proof.
  unfold has_port, pair_grouped. intros H1 H2.
  replace ("EXPORT" =? "IMPORT")%string with false by reflexivity.
  destruct (p_port r1); [|congruence].
  destruct (p_port r2); [|congruence]. simpl. eauto.
Qed.

Lemma count_pairs_total (op : string) (F : Placement -> Prop)
    (l : list Placement) :
  (forall r1 r2, F r1 -> F r2 -> exists b, pair_grouped op r1 r2 = Ok b) ->
  Forall F l -> exists k, count_grouped_pairs op l = Ok k.
Proof.
  intros Hp. induction l as [|r1 l IH]; intros Hall.
  - simpl. eauto.
  - inversion Hall as [|? ? H1 Hl]; subst.
    destruct l as [|r2 l'].
    + simpl. eauto.
    + inversion Hl as [|? ? H2 _]; subst.
      destruct (Hp r1 r2 H1 H2) as [b Hb].
      destruct (IH Hl) as [k Hk].
      cbn [count_grouped_pairs]. rewrite Hb. cbn [bind].
      cbn [count_grouped_pairs] in Hk. rewrite Hk. cbn [bind]. eauto.
Qed.

Lemma py_div_nonzero (a b : Z) :
  b <> 0 -> py_div a b = Ok (inject_Z a / inject_Z b)%Q.
Proof.
  intros H. unfold py_div. destruct (Z.eqb_spec b 0); congruence.
Qed.

Lemma grouping_efficiency_total (op : string) (F : Placement -> Prop)
    (pm : PlacementMap) :
  (forall r1 r2, F r1 -> F r2 -> exists b, pair_grouped op r1 r2 = Ok b) ->
  Forall (fun ur => F (snd ur)) pm ->
  exists q, _calculate_grouping_efficiency pm op = Ok q.
Proof.
  intros Hp Hall. unfold _calculate_grouping_efficiency.
  destruct pm as [|ur pm]; [eauto|].
  destruct (@count_pairs_total op F (dict_values (ur :: pm)) Hp) as [k ->].
  { unfold dict_values. apply Forall_map. exact Hall. }
  cbn [bind].
  destruct (Z.ltb_spec 0 (Z.of_nat (List.length (dict_values (ur :: pm))) - 1));
    [|eauto].
  rewrite py_div_nonzero by lia. cbn [bind]. eauto.
Qed.

(** Every zone has slots. *)
Definition stocked (ar : Areas) : Prop :=
  Forall (fun kv => positions (snd kv) <> []) ar.

Lemma yard_grows_stocked (ar ar' : Areas) :
  yard_grows ar ar' -> stocked ar -> stocked ar'.
Proof.
  unfold stocked. induction 1 as [|x y l l' [_ (_ & _ & _ & Hp)] _ IH];
    intros Hs; inversion Hs; subst; constructor; auto.
  intros E. rewrite E in Hp. inversion Hp; subst. congruence.
Qed.

Lemma area_details_total (areas : Areas) (usage : Usage) :
  stocked areas ->
  (forall n, In n (map fst usage) -> In n (map fst areas)) ->
  forall acc, exists d, foldM (area_detail_step areas) usage acc = Ok d.
Proof.
  intros Hst Hkeys acc.
  destruct (@foldM_inv (string * Z) (dict string AreaDetail)
              (fun _ => True) (area_detail_step areas) usage) with (s := acc)
    as (d & Hd & _); eauto.
  intros s [n u] Hin _. unfold area_detail_step.
  destruct (0 <? u); [|eauto].
  assert (Hn : In n (map fst areas)).
  { apply Hkeys. apply in_map_iff. now exists (n, u). }
  destruct (dict_get_in_keys _ _ Hn) as [a Ha].
  unfold dict_lookup. rewrite Ha. cbn [bind].
  rewrite py_div_nonzero; [cbn [bind]; eauto|].
  apply dict_get_some_in in Ha. unfold stocked in Hst.
  rewrite Forall_forall in Hst. specialize (Hst _ Ha). simpl in Hst.
  destruct (positions a); [congruence | simpl; lia].
Qed.

Lemma compile_result_total (now : string) (areas : Areas)
    (cs : list Container) (pm : PlacementMap) (usage : Usage) (op : string)
    (F : Placement -> Prop) :
  cs <> [] -> stocked areas -> map fst usage = map fst areas ->
  (forall r1 r2, F r1 -> F r2 -> exists b, pair_grouped op r1 r2 = Ok b) ->
  Forall (fun ur => F (snd ur)) pm ->
  exists r,
    _compile_result now areas cs pm usage op = Ok r
    /\ placement_map r = pm
    /\ efficiency r
       = (inject_Z (Z.of_nat (List.length pm))
          / inject_Z (Z.of_nat (List.length cs)) * 100)%Q.
Proof.
  intros Hcs Hst Hkeys Hp Hall. unfold _compile_result.
  match goal with
  | |- context [if 0 <? ?t then _ else _] => destruct (Z.ltb_spec 0 t)
  end.
  - rewrite py_div_nonzero by lia. cbn [bind].
    destruct (@grouping_efficiency_total op F pm Hp Hall) as [q ->].
    cbn [bind].
    destruct (@area_details_total areas usage Hst) with (acc := @nil (string * AreaDetail))
      as [d ->].
    { intros n. now rewrite Hkeys. }
    cbn [bind]. rewrite py_div_nonzero.
    + cbn [bind]. eexists. repeat split.
    + destruct cs; [congruence | simpl; lia].
  - cbn [bind].
    destruct (@grouping_efficiency_total op F pm Hp Hall) as [q ->].
    cbn [bind].
    destruct (@area_details_total areas usage Hst) with (acc := @nil (string * AreaDetail))
      as [d ->].
    { intros n. now rewrite Hkeys. }
    cbn [bind]. rewrite py_div_nonzero.
    + cbn [bind]. eexists. repeat split.
    + destruct cs; [congruence | simpl; lia].
Qed.

(** ** Configuration leaves the slots alone *)

Definition skeleton (ar : Areas) : list (string * list YardPosition) :=
  map (fun kv => (fst kv, positions (snd kv))) ar.

Lemma skeleton_keys (ar : Areas) : map fst (skeleton ar) = map fst ar.
Proof.
  unfold skeleton. rewrite map_map. reflexivity.
Qed.

Lemma skeleton_set_allowed (ar : Areas) (k : string) (a : YardArea)
    (wcs : list Z) :
  dict_get String.eqb ar k = Some a ->
  skeleton (dict_set String.eqb ar k (with_allowed a wcs)) = skeleton ar.
Proof.
  intros H. destruct (dict_get_split _ _ H) as (pre & post & -> & _ & Hset).
  rewrite Hset. unfold skeleton. rewrite !map_app. reflexivity.
Qed.

Lemma set_area_weight_classes_skeleton (cfg : dict string (list Z)) :
  forall ar, skeleton (set_area_weight_classes ar cfg) = skeleton ar.
Proof.
  unfold set_area_weight_classes.
  induction cfg as [|[k wcs] cfg IH]; intros ar; simpl; auto.
  rewrite IH. destruct (dict_get String.eqb ar k) as [a|] eqn:E; auto.
  now apply skeleton_set_allowed.
Qed.

Lemma stocked_skeleton (ar ar' : Areas) :
  skeleton ar' = skeleton ar -> stocked ar -> stocked ar'.
Proof.
  unfold stocked, skeleton. revert ar'.
  induction ar as [|x ar IH]; intros [|y ar'] E Hs; simpl in E;
    try discriminate; constructor; inversion E; inversion Hs; subst.
  - congruence.
  - apply IH; auto.
Qed.

(** Nothing has been stacked yet. *)
Definition fresh_yard (ar : Areas) : Prop :=
  Forall (fun kp => Forall (fun p => containers p = []
                                     /\ available_tiers p = max_tiers p
                                     /\ 0 <= max_tiers p)
                           (snd kp))
         (skeleton ar).

Lemma fresh_yard_ok (ar : Areas) : fresh_yard ar -> yard_ok ar.
Proof.
  unfold fresh_yard, yard_ok, skeleton, area_ok. rewrite Forall_map.
  apply Forall_impl. intros [n a]. simpl. apply Forall_impl.
  intros p (Hc & Ha & Hm). unfold slot_ok. rewrite Hc. simpl.
  repeat split; auto; lia.
Qed.

Lemma initialize_positions_fresh (zone : string) (height : Z) :
  0 <= height ->
  Forall (fun p => containers p = [] /\ available_tiers p = max_tiers p
                   /\ 0 <= max_tiers p)
         (_initialize_positions zone height).
Proof.
  intros Hh. unfold _initialize_positions. apply Forall_forall. intros p Hp.
  apply in_flat_map in Hp. destruct Hp as (r & _ & Hp).
  apply in_flat_map in Hp. destruct Hp as (col & _ & Hp).
  destruct (r mod 4 =? 0); simpl in Hp; [contradiction|].
  destruct Hp as [<-|[]]. simpl. auto.
Qed.

Lemma initialize_positions_nonempty (zone : string) (height : Z) :
  _initialize_positions zone height <> [].
Proof.
  intros E. apply (f_equal (@List.length YardPosition)) in E.
  vm_compute in E. discriminate.
Qed.

Lemma initialize_areas_fresh : fresh_yard _initialize_areas.
Proof.
  unfold fresh_yard, skeleton, _initialize_areas, YardArea_init.
  cbn [map fst snd positions].
  repeat (apply Forall_cons; [apply initialize_positions_fresh; lia|]).
  apply Forall_nil.
Qed.

Lemma initialize_areas_stocked : stocked _initialize_areas.
Proof.
  unfold stocked, _initialize_areas, YardArea_init.
  repeat (apply Forall_cons;
          [cbn [snd positions]; apply initialize_positions_nonempty|]).
  apply Forall_nil.
Qed.

Lemma configured_fresh (ar : Areas) (cfg : dict string (list Z)) :
  fresh_yard ar -> fresh_yard (set_area_weight_classes ar cfg).
Proof.
  unfold fresh_yard. now rewrite set_area_weight_classes_skeleton.
Qed.

Lemma configured_stocked (ar : Areas) (cfg : dict string (list Z)) :
  stocked ar -> stocked (set_area_weight_classes ar cfg).
Proof.
  apply stocked_skeleton, set_area_weight_classes_skeleton.
Qed.

Lemma initial_usage_keys (ar : Areas) : map fst (initial_usage ar) = map fst ar.
Proof.
  unfold initial_usage. rewrite map_map. reflexivity.
Qed.

Lemma assign_weight_classes_length (rnd : Oracle) (cs : list Container) :
  forall k, List.length (fst (assign_weight_classes rnd k cs)) = List.length cs.
Proof.
  induction cs as [|c cs IH]; intros k; simpl; auto.
  destruct (weight c).
  - specialize (IH k). destruct (assign_weight_classes rnd k cs). simpl in *.
    congruence.
  - specialize (IH (S k)). destruct (assign_weight_classes rnd (S k) cs).
    simpl in *. congruence.
Qed.

(** ** Both strategies return, and what they leave behind *)

Lemma anywhere_has_transporter (c : Container) (code n : string) :
  has_transporter (anywhere_record c code n).
Proof.
  unfold has_transporter. simpl. discriminate.
Qed.

Lemma anywhere_has_port (c : Container) (code n : string) :
  has_port (anywhere_record c code n).
Proof.
  unfold has_port. simpl. discriminate.
Qed.

Lemma import_has_transporter (c : Container) (code n : string)
    (t : option string) : has_transporter (import_record c code n t).
Proof.
  unfold has_transporter. simpl. discriminate.
Qed.

Lemma export_has_port (c : Container) (code n : string) (p : option string)
    (w : Z) : has_port (export_record c code n p w).
Proof.
  unfold has_port. simpl. discriminate.
Qed.

Lemma import_groups_inv (cs1 : list Container) (areas1 : Areas) :
  exists st,
    foldM import_group (transporter_groups cs1)
          (mkRunState areas1 [] (initial_usage areas1) 0) = Ok st
    /\ run_inv has_transporter cs1 areas1 st.
Proof.
  apply (foldM_inv (run_inv has_transporter cs1 areas1)).
  - intros s [t g] Hin Hi.
    apply (@import_group_inv has_transporter cs1 areas1
             anywhere_has_transporter s t g import_has_transporter Hi).
    now apply transporter_groups_within with (t := t).
  - constructor; cbn [rs_areas rs_usage rs_map].
    + constructor.
    + apply initial_usage_keys.
    + constructor.
Qed.

Lemma export_groups_inv (cs1 : list Container) (areas1 : Areas) :
  exists st,
    foldM export_port_group (port_groups cs1)
          (mkRunState areas1 [] (initial_usage areas1) 0) = Ok st
    /\ run_inv has_port cs1 areas1 st.
Proof.
  apply (foldM_inv (run_inv has_port cs1 areas1)).
  - intros s [p wg] Hin Hi. unfold export_port_group.
    apply (foldM_inv (run_inv has_port cs1 areas1)); auto.
    intros s1 [wc cc] Hin1 Hi1. unfold export_weight_group.
    apply (@export_try_areas_inv has_port cs1 areas1
             export_has_port p wc (export_suitable_areas (rs_areas s1) wc)
             cc s1 Hi1).
    + now apply port_groups_within with (p := p) (wg := wg) (wc := wc).
    + intros n Hn. apply export_suitable_keys in Hn.
      now rewrite (yard_steps_keys (inv_steps Hi1)) in Hn.
  - constructor; cbn [rs_areas rs_usage rs_map].
    + constructor.
    + apply initial_usage_keys.
    + constructor.
Qed.

Lemma run_inv_stocked (RP : Placement -> Prop) (cs1 : list Container)
    (areas1 : Areas) (st : RunState) :
  stocked areas1 -> run_inv RP cs1 areas1 st -> stocked (rs_areas st).
Proof.
  intros Hst Hi. apply (@yard_grows_stocked areas1); auto.
  apply yard_steps_grows, Hi.
Qed.

Lemma entry_ok_weaken (RP : Placement -> Prop) (cs1 : list Container)
    (areas1 : Areas) (pm : PlacementMap) :
  Forall (entry_ok RP cs1 areas1) pm -> Forall (fun ur => RP (snd ur)) pm.
Proof.
  apply Forall_impl. intros ur H. apply H.
Qed.

(** What a completed run of either strategy guarantees. *)
Definition run_summary (RP : Placement -> Prop) (rnd : Oracle) (k : nat)
    (areas : Areas) (cs : list Container) (cfg : dict string (list Z))
    (out : RunOut) : Prop :=
  yard_steps (set_area_weight_classes areas cfg) (out_areas out)
  /\ out_containers out = fst (assign_weight_classes rnd k cs)
  /\ out_cursor out = snd (assign_weight_classes rnd k cs)
  /\ Forall (entry_ok RP (out_containers out)
                      (set_area_weight_classes areas cfg))
            (placement_map (out_result out))
  /\ efficiency (out_result out)
     = (inject_Z (Z.of_nat (List.length (placement_map (out_result out))))
        / inject_Z (Z.of_nat (List.length cs)) * 100)%Q.

Lemma import_run (now : string) (rnd : Oracle) (k : nat) (areas : Areas)
    (cs : list Container) (cfg : dict string (list Z)) :
  cs <> [] -> stocked areas ->
  exists out,
    optimize_import_layout now rnd k areas cs cfg = Ok out
    /\ run_summary has_transporter rnd k areas cs cfg out.
Proof.
  intros Hcs Hst. unfold optimize_import_layout, run_summary.
  pose proof (assign_weight_classes_length rnd cs k) as Hlen.
  destruct (assign_weight_classes rnd k cs) as [cs1 k1]. cbn [fst snd] in *.
  set (areas1 := set_area_weight_classes areas cfg).
  destruct (import_groups_inv cs1 areas1) as (st & -> & Hi). cbn [bind].
  destruct (@compile_result_total now (rs_areas st) cs1 (rs_map st)
              (rs_usage st) "IMPORT" has_transporter)
    as (r & -> & Hpm & Heff).
  - intros E. subst cs1. destruct cs; [congruence | discriminate].
  - apply (@run_inv_stocked has_transporter cs1 areas1 st); auto.
    now apply configured_stocked.
  - apply (@run_inv_keys has_transporter cs1 areas1 st Hi).
  - apply pair_grouped_import.
  - eapply entry_ok_weaken, Hi.
  - cbn [bind]. eexists. split; [reflexivity|].
    cbn [out_areas out_containers out_cursor out_result].
    rewrite Hpm, Heff, Hlen. repeat split; auto; apply Hi.
Qed.

Lemma remaining_within (cs1 : list Container) (pm : PlacementMap)
    (c : Container) :
  In c (remaining_containers cs1 pm) ->
  In c cs1 /\ dict_mem String.eqb pm (unit_number c) = false.
Proof.
  unfold remaining_containers. intros H. apply filter_In in H.
  destruct H as [H1 H2]. split; auto.
  now destruct (dict_mem String.eqb pm (unit_number c)).
Qed.

Lemma export_run (now : string) (rnd : Oracle) (k : nat) (areas : Areas)
    (cs : list Container) (cfg : dict string (list Z)) :
  cs <> [] -> stocked areas ->
  exists out,
    optimize_export_layout now rnd k areas cs cfg = Ok out
    /\ run_summary has_port rnd k areas cs cfg out.
Proof.
  intros Hcs Hst. unfold optimize_export_layout, run_summary.
  pose proof (assign_weight_classes_length rnd cs k) as Hlen.
  destruct (assign_weight_classes rnd k cs) as [cs1 k1]. cbn [fst snd] in *.
  set (areas1 := set_area_weight_classes areas cfg).
  destruct (export_groups_inv cs1 areas1) as (st1 & -> & Hi1). cbn [bind].
  destruct (@foldM_inv Container RunState (run_inv has_port cs1 areas1)
              export_fallback_step (remaining_containers cs1 (rs_map st1)))
    with (s := st1) as (st & -> & Hi); auto.
  { intros s c Hc Hs.
    apply (@export_fallback_inv has_port cs1 areas1 anywhere_has_port s c Hs).
    now apply remaining_within in Hc. }
  cbn [bind].
  destruct (@compile_result_total now (rs_areas st) cs1 (rs_map st)
              (rs_usage st) "EXPORT" has_port)
    as (r & -> & Hpm & Heff).
  - intros E. subst cs1. destruct cs; [congruence | discriminate].
  - apply (@run_inv_stocked has_port cs1 areas1 st); auto.
    now apply configured_stocked.
  - apply (@run_inv_keys has_port cs1 areas1 st Hi).
  - apply pair_grouped_export.
  - eapply entry_ok_weaken, Hi.
  - cbn [bind]. eexists. split; [reflexivity|].
    cbn [out_areas out_containers out_cursor out_result].
    rewrite Hpm, Heff, Hlen. repeat split; auto; apply Hi.
Qed.

(** ** The empty batch *)

Lemma area_details_unused (ar ar' : Areas) (acc : dict string AreaDetail) :
  foldM (area_detail_step ar) (initial_usage ar') acc = Ok acc.
Proof.
  induction ar' as [|[n a] ar' IH]; simpl; auto.
Qed.

Lemma compile_empty_batch (now : string) (ar ar' : Areas) (op : string) :
  _compile_result now ar [] [] (initial_usage ar') op
  = Raise ZeroDivisionError.
Proof.
  unfold _compile_result.
  match goal with
  | |- context [if 0 <? ?t then _ else _] => destruct (Z.ltb_spec 0 t)
  end.
  - rewrite py_div_nonzero by lia. cbn [bind _calculate_grouping_efficiency].
    rewrite area_details_unused. reflexivity.
  - cbn [bind _calculate_grouping_efficiency].
    rewrite area_details_unused. reflexivity.
Qed.

Lemma grouping_guarded (ur : string * Placement) (op : string) :
  _calculate_grouping_efficiency [] op = Ok 0%Q
  /\ _calculate_grouping_efficiency [ur] op = Ok 0%Q.
Proof.
  split; reflexivity.
Qed.

Lemma space_guarded (now : string) (c : Container) (cs : list Container)
    (op : string) :
  exists r, _compile_result now [] (c :: cs) [] [] op = Ok r
            /\ space_utilization r = 0%Q /\ grouping_efficiency r = 0%Q.
Proof.
  unfold _compile_result. cbn [dict_values map sumZ fold_left Z.ltb Z.compare
                               bind _calculate_grouping_efficiency foldM].
  rewrite py_div_nonzero by (simpl; lia). cbn [bind].
  eexists. repeat split.
Qed.

(** C10.  On an empty container list both strategies raise
    ZeroDivisionError: the efficiency division has no guard.  The
    grouping-efficiency division is guarded (an empty or one-entry map
    yields 0) and so is the space-utilization division (a yard without
    slots yields 0).  On every non-empty list, in a yard whose zones have
    slots, both strategies return a result. *)
Theorem empty_batch_divides_by_zero (now : string) (rnd : Oracle) (k : nat)
    (areas : Areas) (cfg : dict string (list Z)) :
  optimize_import_layout now rnd k areas [] cfg = Raise ZeroDivisionError
  /\ optimize_export_layout now rnd k areas [] cfg = Raise ZeroDivisionError
  /\ (forall ur op,
         _calculate_grouping_efficiency [] op = Ok 0%Q
         /\ _calculate_grouping_efficiency [ur] op = Ok 0%Q)
  /\ (forall c cs op,
         exists r, _compile_result now [] (c :: cs) [] [] op = Ok r
                   /\ space_utilization r = 0%Q)
  /\ (forall cs, cs <> [] -> stocked areas ->
         (exists out, optimize_import_layout now rnd k areas cs cfg = Ok out)
         /\ (exists out,
                optimize_export_layout now rnd k areas cs cfg = Ok out)).
Proof.
  split; [|split; [|split; [|split]]].
  - unfold optimize_import_layout.
    cbn [assign_weight_classes transporter_groups fold_left foldM bind
         rs_areas rs_map rs_usage].
    now rewrite compile_empty_batch.
  - unfold optimize_export_layout.
    cbn [assign_weight_classes port_groups fold_left foldM bind
         rs_areas rs_map rs_usage remaining_containers filter].
    now rewrite compile_empty_batch.
  - intros ur op. apply grouping_guarded.
  - intros c cs op. destruct (space_guarded now c cs op) as (r & H1 & H2 & _).
    eauto.
  - intros cs Hcs Hst. split.
    + destruct (@import_run now rnd k areas cs cfg Hcs Hst) as (out & H & _).
      eauto.
    + destruct (@export_run now rnd k areas cs cfg Hcs Hst) as (out & H & _).
      eauto.
Qed.

(** ** Containers that no zone permits *)

Lemma assign_weight_classes_units (rnd : Oracle) (cs : list Container) :
  forall k,
    map unit_number (fst (assign_weight_classes rnd k cs))
    = map unit_number cs.
Proof.
  induction cs as [|c cs IH]; intros k; simpl; auto.
  destruct (weight c).
  - specialize (IH k). destruct (assign_weight_classes rnd k cs). simpl in *.
    congruence.
  - specialize (IH (S k)). destruct (assign_weight_classes rnd (S k) cs).
    simpl in *. congruence.
Qed.

Lemma NoDup_map_unique {A B} (f : A -> B) (l : list A) (x y : A) :
  NoDup (map f l) -> In x l -> In y l -> f x = f y -> x = y.
Proof.
  induction l as [|a l IH]; simpl; intros Hnd Hx Hy E; [contradiction|].
  inversion Hnd as [|? ? Hnotin Hnd']; subst.
  destruct Hx as [->|Hx], Hy as [->|Hy]; auto.
  - exfalso. apply Hnotin. rewrite E. now apply in_map.
  - exfalso. apply Hnotin. rewrite <- E. now apply in_map.
Qed.

(** C8.  In an outbound run over containers with distinct unit numbers, a
    container whose weight class no configured zone permits is in the
    result map neither after the group pass nor after the individual
    retry, and the run returns normally; when no container of the batch is
    permitted anywhere the map is empty and the efficiency is 0. *)
Theorem outbound_unpermitted_absent (now : string) (rnd : Oracle) (k : nat)
    (areas : Areas) (cs : list Container) (cfg : dict string (list Z))
    (c : Container) :
  stocked areas ->
  NoDup (map unit_number cs) ->
  In c (fst (assign_weight_classes rnd k cs)) ->
  ~ permits (set_area_weight_classes areas cfg) (weight_class c) ->
  exists out,
    optimize_export_layout now rnd k areas cs cfg = Ok out
    /\ dict_get String.eqb (placement_map (out_result out)) (unit_number c)
       = None
    /\ ((forall c', In c' (fst (assign_weight_classes rnd k cs)) ->
                    ~ permits (set_area_weight_classes areas cfg)
                              (weight_class c')) ->
        placement_map (out_result out) = []
        /\ (efficiency (out_result out) == 0)%Q).
Proof.
  intros Hst Hnd Hc Hno.
  assert (Hcs : cs <> []).
  { intros ->. simpl in Hc. contradiction. }
  destruct (@export_run now rnd k areas cs cfg Hcs Hst)
    as (out & Hrun & Hs & Hcont & Hcur & Hmap & Heff).
  exists out. split; [exact Hrun|]. rewrite Hcont in Hmap.
  rewrite Forall_forall in Hmap. split.
  - destruct (dict_get String.eqb (placement_map (out_result out))
                       (unit_number c)) as [r|] eqn:E; auto.
    exfalso. apply dict_get_some_in in E.
    destruct (Hmap _ E) as (_ & c' & Hc' & Hu & Hp). simpl in Hu.
    assert (c' = c).
    { apply (@NoDup_map_unique _ _ unit_number
               (fst (assign_weight_classes rnd k cs))); auto.
      now rewrite assign_weight_classes_units. }
    subst c'. contradiction.
  - intros Hall.
    assert (Hnil : placement_map (out_result out) = []).
    { destruct (placement_map (out_result out)) as [|ur pm]; auto.
      exfalso. destruct (Hmap ur (or_introl eq_refl))
        as (_ & c' & Hc' & _ & Hp).
      exact (Hall c' Hc' Hp). }
    split; auto. rewrite Heff, Hnil. simpl. unfold Qdiv.
    now rewrite !Qmult_0_l.
Qed.

(** ** Scenarios *)

Definition no_random : Oracle := fun _ => 0%nat.

Definition container_of (u iso : string) (t : option string) (w : option Q)
    (p : option string) (cat : string) : Container :=
  fst (Container_init no_random 0 u iso t w p cat).

(** A standard and a reefer 20-foot box of one carrier. *)
Definition mixed_pair : list Container :=
  [ container_of "A1" "22G1" (Some "T1") (Some 10%Q) None "Standard";
    container_of "A2" "22R1" (Some "T1") (Some 10%Q) None "Reefer" ].

(** Some reefer-eligible slot of the yard holds a container that is not a
    Reefer. *)
Definition standard_on_reefer_slot (ar : Areas) : bool :=
  existsb
    (fun kv =>
       existsb
         (fun p =>
            is_reefer_position p
            && existsb (fun c => negb (String.eqb (category c) "Reefer"))
                       (containers p))
         (positions (snd kv)))
    ar.

(** ** Reefer containers and reefer slots *)

Definition reefer_safe (ar : Areas) : Prop :=
  forall n a p c,
    In (n, a) ar -> In p (positions a) -> In c (containers p) ->
    category c = "Reefer" -> is_reefer_position p = true.

Lemma yard_ok_reefer_safe (ar : Areas) : yard_ok ar -> reefer_safe ar.
Proof.
  unfold yard_ok, area_ok, reefer_safe. intros Hok n a p c Hin Hp Hc Hcat.
  rewrite Forall_forall in Hok. specialize (Hok _ Hin). simpl in Hok.
  rewrite Forall_forall in Hok. destruct (Hok _ Hp) as (_ & _ & Hall).
  rewrite Forall_forall in Hall. now apply (Hall c Hc).
Qed.

Lemma place_reefer_on_reefer_slot (a : YardArea) (c : Container) :
  category c = "Reefer" ->
  match area_place_container a c with
  | (a', Some _) =>
      exists pre p post,
        positions a = pre ++ p :: post
        /\ positions a' = pre ++ stacked p c :: post
        /\ is_reefer_position p = true
  | (_, None) => True
  end.
Proof.
  intros Hcat.
  destruct (area_place_outcome a c) as [|pre post p Hps _ (_ & _ & _ & Hr)];
    auto.
  exists pre, p, post. auto.
Qed.

(** C5.  Started on a yard on which nothing is stacked, the inbound and the
    outbound strategy (each with its individual retry) return with every
    Reefer container in the yard standing on a reefer-eligible slot; every
    single placement of a Reefer container, on whichever path, goes through
    the zone's placement search, which puts it on a reefer-eligible slot.
    The other direction is open: the inbound run on the standard and the
    reefer box of one carrier leaves the standard box on a reefer-eligible
    slot. *)
Theorem reefer_only_on_reefer_slots (now : string) (rnd : Oracle) (k : nat)
    (areas : Areas) (cs : list Container) (cfg : dict string (list Z)) :
  fresh_yard areas -> stocked areas -> cs <> [] ->
  (exists out, optimize_import_layout now rnd k areas cs cfg = Ok out
               /\ reefer_safe (out_areas out))
  /\ (exists out, optimize_export_layout now rnd k areas cs cfg = Ok out
                  /\ reefer_safe (out_areas out))
  /\ (forall a c,
         category c = "Reefer" ->
         match area_place_container a c with
         | (a', Some _) =>
             exists pre p post,
               positions a = pre ++ p :: post
               /\ positions a' = pre ++ stacked p c :: post
               /\ is_reefer_position p = true
         | (_, None) => True
         end)
  /\ match optimize_import_layout now no_random 0 _initialize_areas
                                  mixed_pair [] with
     | Ok out => standard_on_reefer_slot (out_areas out) = true
     | Raise _ => False
     end.
Proof.
  intros Hfresh Hst Hcs.
  assert (Hok : yard_ok (set_area_weight_classes areas cfg))
    by now apply fresh_yard_ok, configured_fresh.
  split; [|split; [|split]].
  - destruct (@import_run now rnd k areas cs cfg Hcs Hst)
      as (out & Hrun & Hs & _).
    exists out. split; auto. apply yard_ok_reefer_safe.
    eapply yard_ok_steps; eauto.
  - destruct (@export_run now rnd k areas cs cfg Hcs Hst)
      as (out & Hrun & Hs & _).
    exists out. split; auto. apply yard_ok_reefer_safe.
    eapply yard_ok_steps; eauto.
  - intros a c. apply place_reefer_on_reefer_slot.
  - vm_compute. reflexivity.
Qed.

Lemma reefer_only_on_reefer_slots_witness :
  (exists out,
      optimize_import_layout "noon" no_random 0 _initialize_areas
                             mixed_pair [] = Ok out
      /\ reefer_safe (out_areas out))
  /\ (exists out,
         optimize_export_layout "noon" no_random 0 _initialize_areas
                                mixed_pair [] = Ok out
         /\ reefer_safe (out_areas out)).
Proof.
  destruct (@reefer_only_on_reefer_slots "noon" no_random 0 _initialize_areas
              mixed_pair [] initialize_areas_fresh initialize_areas_stocked)
    as (H1 & H2 & _).
  - discriminate.
  - split; assumption.
Defined.

(** ** Stack height, counters and tier numbers *)

Definition capacity_ok (ar : Areas) : Prop :=
  forall n a p,
    In (n, a) ar -> In p (positions a) ->
    0 <= available_tiers p <= max_tiers p
    /\ Z.of_nat (List.length (containers p)) <= max_tiers p
    /\ available_tiers p + Z.of_nat (List.length (containers p))
       = max_tiers p.

(** Slot by slot, the counter after is at most the counter before. *)
Definition never_incremented (ar ar' : Areas) : Prop :=
  Forall2 (fun kv kv' =>
             Forall2 (fun p p' => available_tiers p' <= available_tiers p)
                     (positions (snd kv)) (positions (snd kv')))
          ar ar'.

Lemma yard_ok_capacity (ar : Areas) : yard_ok ar -> capacity_ok ar.
Proof.
  unfold yard_ok, area_ok, capacity_ok. intros Hok n a p Hin Hp.
  rewrite Forall_forall in Hok. specialize (Hok _ Hin). simpl in Hok.
  rewrite Forall_forall in Hok. destruct (Hok _ Hp) as (H0 & Hsum & _).
  lia.
Qed.

Lemma yard_grows_never_incremented (ar ar' : Areas) :
  yard_grows ar ar' -> never_incremented ar ar'.
Proof.
  unfold yard_grows, never_incremented. apply Forall2_impl.
  intros kv kv' (_ & _ & _ & _ & Hp). revert Hp. apply Forall2_impl.
  intros p p' (_ & _ & _ & _ & _ & _ & extra & _ & Hav). lia.
Qed.

(** Successive calls of [YardPosition.place_container] on one slot, each
    followed by [get_position_code] when it succeeds: the slot at the end
    and the codes issued. *)
Fixpoint place_successively (p : YardPosition) (cs : list Container)
  : YardPosition * list string :=
  match cs with
  | [] => (p, [])
  | c :: cs' =>
      let '(p1, ok) := slot_place_container p c in
      let '(p2, codes) := place_successively p1 cs' in
      (p2, if ok : bool then get_position_code p1 :: codes else codes)
  end.

Definition code_with_tier (p : YardPosition) (t : nat) : string :=
  (area p ++ str_of_Z (row p) ++ column p ++ str_of_Z (Z.of_nat t))%string.

Lemma place_successively_codes (cs : list Container) :
  forall p,
    snd (place_successively p cs)
    = map (code_with_tier p)
          (seq (List.length (containers p) + 1)
               (Nat.min (List.length cs) (Z.to_nat (available_tiers p)))).
Proof.
  induction cs as [|c cs IH]; intros p; cbn [place_successively].
  - reflexivity.
  - unfold slot_place_container.
    destruct (Z.leb_spec (available_tiers p) 0) as [Hle|Hgt].
    + specialize (IH p). destruct (place_successively p cs) as [p2 codes].
      cbn [snd] in *. rewrite IH.
      replace (Z.to_nat (available_tiers p)) with 0%nat by lia.
      now rewrite !Nat.min_0_r.
    + fold (stacked p c). specialize (IH (stacked p c)).
      destruct (place_successively (stacked p c) cs) as [p2 codes].
      cbn [snd] in *. rewrite IH, position_code_stacked.
      change (code_with_tier (stacked p c)) with (code_with_tier p).
      cbn [stacked containers available_tiers List.length].
      replace (Z.to_nat (available_tiers p))
        with (S (Z.to_nat (available_tiers p - 1))) by lia.
      rewrite <- Nat.succ_min_distr. cbn [seq map].
      rewrite length_app. cbn [List.length].
      replace (S (List.length (containers p) + 1))
        with (List.length (containers p) + 1 + 1)%nat by lia.
      f_equal. unfold code_with_tier.
      replace (Z.of_nat (List.length (containers p) + 1))
        with (Z.of_nat (List.length (containers p)) + 1) by lia.
      reflexivity.
Qed.

(** C6.  Started on a yard on which nothing is stacked, either strategy
    returns with every slot holding at most [max_tiers] containers and its
    remaining-tier counter within [0, max_tiers]; slot by slot the counter
    at the end is at most the counter at the start, and so it is across
    every single placement.  On a slot that starts empty with [h]
    remaining tiers, the codes issued by successive placements carry the
    tier numbers 1, 2, 3, ... up to [h], after which no code is issued. *)
Theorem stack_height_and_tiers (now : string) (rnd : Oracle) (k : nat)
    (areas : Areas) (cs : list Container) (cfg : dict string (list Z))
    (p : YardPosition) (batch : list Container) :
  fresh_yard areas -> stocked areas -> cs <> [] ->
  containers p = [] -> 0 <= available_tiers p ->
  (exists out, optimize_import_layout now rnd k areas cs cfg = Ok out
               /\ capacity_ok (out_areas out)
               /\ never_incremented (set_area_weight_classes areas cfg)
                                    (out_areas out))
  /\ (exists out, optimize_export_layout now rnd k areas cs cfg = Ok out
                  /\ capacity_ok (out_areas out)
                  /\ never_incremented (set_area_weight_classes areas cfg)
                                       (out_areas out))
  /\ (forall ar ar',
         yard_step ar ar' ->
         never_incremented ar ar' /\ (yard_ok ar -> capacity_ok ar'))
  /\ snd (place_successively p batch)
     = map (code_with_tier p)
           (seq 1 (Nat.min (List.length batch)
                           (Z.to_nat (available_tiers p)))).
Proof.
  intros Hfresh Hst Hcs Hempty Hav.
  assert (Hok : yard_ok (set_area_weight_classes areas cfg))
    by now apply fresh_yard_ok, configured_fresh.
  split; [|split; [|split]].
  - destruct (@import_run now rnd k areas cs cfg Hcs Hst)
      as (out & Hrun & Hs & _).
    exists out. split; [exact Hrun|]. split.
    + apply yard_ok_capacity. eapply yard_ok_steps; eauto.
    + now apply yard_grows_never_incremented, yard_steps_grows.
  - destruct (@export_run now rnd k areas cs cfg Hcs Hst)
      as (out & Hrun & Hs & _).
    exists out. split; [exact Hrun|]. split.
    + apply yard_ok_capacity. eapply yard_ok_steps; eauto.
    + now apply yard_grows_never_incremented, yard_steps_grows.
  - intros ar ar' Hstep. split.
    + now apply yard_grows_never_incremented, yard_step_grows.
    + intros H. apply yard_ok_capacity. eapply yard_ok_step; eauto.
  - rewrite place_successively_codes, Hempty. reflexivity.
Qed.

Definition ground_slot : YardPosition := YardPosition_init "M1" 1 "A" 5.

Lemma stack_height_and_tiers_witness :
  (exists out,
      optimize_import_layout "noon" no_random 0 _initialize_areas
                             mixed_pair [] = Ok out
      /\ capacity_ok (out_areas out)
      /\ never_incremented (set_area_weight_classes _initialize_areas [])
                           (out_areas out))
  /\ snd (place_successively ground_slot
            (mixed_pair ++ mixed_pair ++ mixed_pair))
     = ["M11A1"; "M11A2"; "M11A3"; "M11A4"; "M11A5"].
Proof.
  destruct (@stack_height_and_tiers "noon" no_random 0 _initialize_areas
              mixed_pair [] ground_slot
              (mixed_pair ++ mixed_pair ++ mixed_pair)
              initialize_areas_fresh initialize_areas_stocked)
    as (H1 & _ & _ & H4).
  - discriminate.
  - reflexivity.
  - simpl. lia.
  - split; [exact H1 | exact H4].
Defined.

(** ** Determinism *)

(** A record as the caller reads it from the uploaded table. *)
Record Row : Type := mkRow {
  row_unit : string;
  row_iso : string;
  row_transporter : option string;
  row_weight : option Q;
  row_port : option string;
  row_category : string
}.

(** The caller's loop [for _, row in df.iterrows(): Container(...)]. *)
Fixpoint build_containers (rnd : Oracle) (k : nat) (rows : list Row)
  : list Container * nat :=
  match rows with
  | [] => ([], k)
  | r :: rows' =>
      let '(c, k1) := Container_init rnd k (row_unit r) (row_iso r)
                        (row_transporter r) (row_weight r) (row_port r)
                        (row_category r) in
      let '(cs, k2) := build_containers rnd k1 rows' in
      (c :: cs, k2)
  end.

(** The ISO code matches the long or the short pattern. *)
Definition iso_determined (iso : string) : bool :=
  negb (String.eqb iso "")
  && (str_contains "45" iso || str_contains "22" iso || str_contains "20" iso).

Definition weighed (c : Container) : Prop := weight c <> None.

(** What [assign_weight_classes] stores when every weight is present. *)
Definition reclassify (cs : list Container) : list Container :=
  map (fun c => match weight c with
                | Some w => set_weight_class c (first_band weight_classes w)
                | None => c
                end) cs.

Definition result_map {A B} (f : A -> B) (m : result A) : result B :=
  match m with
  | Ok a => Ok (f a)
  | Raise e => Raise e
  end.

Definition out_map (out : RunOut) : PlacementMap :=
  placement_map (out_result out).

Definition run_strategy (operation_type : string) (now : string)
    (rnd : Oracle) (k : nat) (areas : Areas) (cs : list Container)
    (cfg : dict string (list Z)) : result RunOut :=
  if String.eqb operation_type "IMPORT"
  then optimize_import_layout now rnd k areas cs cfg
  else optimize_export_layout now rnd k areas cs cfg.

Lemma determine_size_determined (iso : string) (rnd1 rnd2 : Oracle)
    (k1 k2 : nat) :
  iso_determined iso = true ->
  fst (_determine_size iso rnd1 k1) = fst (_determine_size iso rnd2 k2)
  /\ snd (_determine_size iso rnd1 k1) = k1.
Proof.
  unfold iso_determined, _determine_size. intros H.
  destruct (negb (iso =? "")%string); simpl in *; [|discriminate].
  destruct (str_contains "45" iso); simpl in *; auto.
  rewrite H. auto.
Qed.

Lemma build_containers_determined (rows : list Row) :
  Forall (fun r => iso_determined (row_iso r) = true
                   /\ row_weight r <> None) rows ->
  forall rnd1 rnd2 k1 k2,
    fst (build_containers rnd1 k1 rows) = fst (build_containers rnd2 k2 rows)
    /\ snd (build_containers rnd1 k1 rows) = k1
    /\ Forall weighed (fst (build_containers rnd1 k1 rows)).
Proof.
  induction 1 as [|r rows [Hiso Hw] _ IH]; intros rnd1 rnd2 k1 k2.
  - simpl. auto.
  - cbn [build_containers]. unfold Container_init.
    destruct (determine_size_determined (row_iso r) rnd1 rnd2 k1 k2 Hiso)
      as [Hsz Hk].
    destruct (determine_size_determined (row_iso r) rnd2 rnd1 k2 k1 Hiso)
      as [_ Hk'].
    destruct (_determine_size (row_iso r) rnd1 k1) as [sz1 j1].
    destruct (_determine_size (row_iso r) rnd2 k2) as [sz2 j2].
    cbn [fst snd] in *. subst j1 j2 sz2.
    destruct (row_weight r) as [w|] eqn:Ew; [|congruence].
    cbn [_determine_weight_class].
    destruct (IH rnd1 rnd2 k1 k2) as (Hcs & Hk2 & Hall).
    destruct (build_containers rnd1 k1 rows) as [cs1 j1].
    destruct (build_containers rnd2 k2 rows) as [cs2 j2].
    cbn [fst snd] in *. subst.
    repeat split; auto; constructor; auto; unfold weighed; simpl; discriminate.
Qed.

Lemma assign_weight_classes_weighed_all (rnd : Oracle) (cs : list Container) :
  Forall weighed cs ->
  forall k, assign_weight_classes rnd k cs = (reclassify cs, k).
Proof.
  induction 1 as [|c cs Hw _ IH]; intros k; cbn [assign_weight_classes].
  - reflexivity.
  - unfold weighed in Hw. cbn [reclassify map].
    destruct (weight c) as [w|]; [|congruence].
    rewrite IH, band_break_first_band. reflexivity.
Qed.

Lemma reclassify_weighed (cs : list Container) :
  Forall weighed cs -> Forall weighed (reclassify cs).
Proof.
  unfold reclassify. intros H. apply Forall_map. revert H.
  apply Forall_impl. intros c Hc. unfold weighed in *.
  destruct (weight c) eqn:E; simpl; congruence.
Qed.

Lemma reclassify_idempotent (cs : list Container) :
  reclassify (reclassify cs) = reclassify cs.
Proof.
  unfold reclassify. rewrite map_map. apply map_ext. intros c.
  destruct (weight c) as [w|] eqn:E; cbn [weight set_weight_class];
    rewrite ?E; reflexivity.
Qed.

Lemma compile_result_map_indep (now1 now2 : string) (areas : Areas)
    (cs : list Container) (pm : PlacementMap) (usage : Usage) (op : string) :
  result_map placement_map (_compile_result now1 areas cs pm usage op)
  = result_map placement_map (_compile_result now2 areas cs pm usage op).
Proof.
  unfold _compile_result.
  repeat match goal with
         | |- context [bind ?m _] =>
             match m with
             | context [bind] => fail 1
             | _ => destruct m; cbn [bind result_map]; try reflexivity
             end
         end.
Qed.

Lemma compile_then_pack (now : string) (cs : list Container)
    (k : nat) (st : RunState) (op : string) :
  result_map out_map
    (r <- _compile_result now (rs_areas st) cs (rs_map st) (rs_usage st) op ;;
     Ok (mkRunOut (rs_areas st) cs k r))
  = result_map placement_map
      (_compile_result now (rs_areas st) cs (rs_map st) (rs_usage st) op).
Proof.
  destruct (_compile_result now (rs_areas st) cs (rs_map st) (rs_usage st) op);
    reflexivity.
Qed.

Lemma run_strategy_indep (op now1 now2 : string) (rnd1 rnd2 : Oracle)
    (k1 k2 : nat) (areas : Areas) (cs : list Container)
    (cfg : dict string (list Z)) :
  Forall weighed cs ->
  result_map out_map (run_strategy op now1 rnd1 k1 areas cs cfg)
  = result_map out_map (run_strategy op now2 rnd2 k2 areas cs cfg).
Proof.
  intros Hw. unfold run_strategy, optimize_import_layout,
               optimize_export_layout.
  rewrite !(assign_weight_classes_weighed_all _ Hw).
  destruct (op =? "IMPORT")%string.
  - destruct (foldM import_group _ _) as [st|e]; [|reflexivity].
    cbn [bind]. rewrite !compile_then_pack.
    apply compile_result_map_indep.
  - destruct (foldM export_port_group _ _) as [st1|e]; [|reflexivity].
    cbn [bind].
    destruct (foldM export_fallback_step _ _) as [st|e]; [|reflexivity].
    cbn [bind]. rewrite !compile_then_pack.
    apply compile_result_map_indep.
Qed.

Lemma run_strategy_reclassify (op now : string) (rnd : Oracle) (k : nat)
    (areas : Areas) (cs : list Container) (cfg : dict string (list Z)) :
  Forall weighed cs ->
  run_strategy op now rnd k areas (reclassify cs) cfg
  = run_strategy op now rnd k areas cs cfg.
Proof.
  intros Hw. unfold run_strategy, optimize_import_layout,
               optimize_export_layout.
  rewrite (assign_weight_classes_weighed_all _ Hw).
  rewrite (assign_weight_classes_weighed_all _ (reclassify_weighed Hw)).
  now rewrite reclassify_idempotent.
Qed.

Lemma run_strategy_leaves (op now : string) (rnd : Oracle) (k : nat)
    (areas : Areas) (cs : list Container) (cfg : dict string (list Z))
    (out : RunOut) :
  Forall weighed cs ->
  run_strategy op now rnd k areas cs cfg = Ok out ->
  out_containers out = reclassify cs /\ out_cursor out = k.
Proof.
  intros Hw. unfold run_strategy, optimize_import_layout,
               optimize_export_layout.
  rewrite !(assign_weight_classes_weighed_all _ Hw).
  destruct (op =? "IMPORT")%string.
  - destruct (foldM import_group _ _) as [st|e]; [|discriminate].
    cbn [bind]. destruct (_compile_result _ _ _ _ _ _); [|discriminate].
    cbn [bind]. intros E. inversion E. auto.
  - destruct (foldM export_port_group _ _) as [st1|e]; [|discriminate].
    cbn [bind].
    destruct (foldM export_fallback_step _ _) as [st|e]; [|discriminate].
    cbn [bind]. destruct (_compile_result _ _ _ _ _ _); [|discriminate].
    cbn [bind]. intros E. inversion E. auto.
Qed.

Lemma proposals_loop_step (clock : nat -> string) (rnd : Oracle) (k : nat)
    (cs : list Container) (op : string) (cfg : dict string (list Z))
    (i0 n : nat) :
  proposals_loop clock rnd k cs op cfg i0 (S n)
  = (out <- run_strategy op (clock i0) rnd k _initialize_areas cs cfg ;;
     ps <- proposals_loop clock rnd (out_cursor out) (out_containers out)
                          op cfg (S i0) n ;;
     Ok (mkProposal (Z.of_nat i0 + 1)
           (py_round (efficiency_float (out_result out)))
           (space_utilization (out_result out))
           (grouping_efficiency (out_result out)) (details (out_result out))
           (out_map out) (area_usage (out_result out))
           (total_placed (out_result out)) (total_containers (out_result out))
           (timestamp (out_result out))
           ("Proposal " ++ str_of_Z (Z.of_nat i0 + 1))%string :: ps)).
Proof.
  reflexivity.
Qed.

(** Every proposal of one call carries the placement map of a single run
    of the strategy on the fresh yard. *)
Lemma proposals_loop_maps (clock : nat -> string) (rnd : Oracle)
    (op : string) (cfg : dict string (list Z)) (n : nat) :
  forall (i0 k : nat) (cs : list Container) (ps : list Proposal),
    Forall weighed cs ->
    proposals_loop clock rnd k cs op cfg i0 n = Ok ps ->
    List.length ps = n
    /\ forall p, In p ps ->
         result_map out_map
           (run_strategy op "" no_random 0 _initialize_areas cs cfg)
         = Ok (prop_placement_map p).
Proof.
  induction n as [|n IH]; intros i0 k cs ps Hw Hps.
  - simpl in Hps. inversion Hps. split; auto. intros p [].
  - rewrite proposals_loop_step in Hps.
    destruct (run_strategy op (clock i0) rnd k _initialize_areas cs cfg)
      as [out|e] eqn:Erun; [|discriminate].
    cbn [bind] in Hps.
    destruct (@run_strategy_leaves op (clock i0) rnd k _initialize_areas cs
                cfg out Hw Erun) as [Hc Hk].
    rewrite Hc, Hk in Hps.
    destruct (proposals_loop clock rnd k (reclassify cs) op cfg (S i0) n)
      as [ps'|e] eqn:Erest; [|discriminate].
    cbn [bind] in Hps. inversion Hps; subst ps. clear Hps.
    destruct (IH (S i0) k (reclassify cs) ps' (reclassify_weighed Hw) Erest)
      as [Hlen Hall].
    split; [simpl; congruence|].
    intros p [<-|Hp].
    + cbn [prop_placement_map].
      rewrite (@run_strategy_indep op "" (clock i0) no_random rnd 0%nat k
                 _initialize_areas cs cfg Hw).
      now rewrite Erun.
    + rewrite <- (Hall p Hp). now rewrite run_strategy_reclassify.
Qed.

Lemma run_strategy_total (op now : string) (rnd : Oracle) (k : nat)
    (areas : Areas) (cs : list Container) (cfg : dict string (list Z)) :
  cs <> [] -> stocked areas ->
  exists out, run_strategy op now rnd k areas cs cfg = Ok out
              /\ out_containers out <> [].
Proof.
  intros Hcs Hst. unfold run_strategy.
  assert (Hne : fst (assign_weight_classes rnd k cs) <> []).
  { intros E. apply (f_equal (@List.length Container)) in E.
    rewrite assign_weight_classes_length in E.
    destruct cs; [congruence | discriminate]. }
  destruct (op =? "IMPORT")%string.
  - destruct (@import_run now rnd k areas cs cfg Hcs Hst)
      as (out & H & _ & Hc & _).
    exists out. split; auto. now rewrite Hc.
  - destruct (@export_run now rnd k areas cs cfg Hcs Hst)
      as (out & H & _ & Hc & _).
    exists out. split; auto. now rewrite Hc.
Qed.

Lemma proposals_loop_total (clock : nat -> string) (rnd : Oracle)
    (op : string) (cfg : dict string (list Z)) (n : nat) :
  forall (i0 k : nat) (cs : list Container),
    cs <> [] -> exists ps, proposals_loop clock rnd k cs op cfg i0 n = Ok ps.
Proof.
  induction n as [|n IH]; intros i0 k cs Hcs.
  - simpl. eauto.
  - rewrite proposals_loop_step.
    destruct (@run_strategy_total op (clock i0) rnd k _initialize_areas cs cfg
                Hcs initialize_areas_stocked) as (out & -> & Hne).
    cbn [bind].
    destruct (IH (S i0) (out_cursor out) (out_containers out) Hne) as [ps ->].
    cbn [bind]. eauto.
Qed.

Lemma build_containers_nonempty (rnd : Oracle) (k : nat) (rows : list Row) :
  rows <> [] -> fst (build_containers rnd k rows) <> [].
Proof.
  destruct rows as [|r rows]; [congruence|]. intros _.
  cbn [build_containers].
  destruct (Container_init _ _ _ _ _ _ _ _) as [c k1].
  destruct (build_containers rnd k1 rows) as [cs k2]. discriminate.
Qed.

(** C7.  Rows whose ISO code matches the long or the short pattern and
    whose weight is present give the same containers whatever the random
    source does.  On them, two runs of a strategy on the same freshly
    built and identically configured yard end alike, with the same
    placement map or with the same exception, whatever the clock and the
    random source; and the proposals of one call of the generator carry
    pairwise equal placement maps.  On a non-empty list the generator
    returns its [n] proposals. *)
Theorem two_runs_same_placements (rows : list Row) (op : string)
    (cfg : dict string (list Z)) (areas : Areas) (now1 now2 : string)
    (rnd1 rnd2 : Oracle) (k1 k2 j1 j2 : nat) (clock : nat -> string)
    (n : nat) :
  Forall (fun r => iso_determined (row_iso r) = true
                   /\ row_weight r <> None) rows ->
  fst (build_containers rnd1 k1 rows) = fst (build_containers rnd2 k2 rows)
  /\ result_map out_map
       (optimize_import_layout now1 rnd1 j1 areas
          (fst (build_containers rnd1 k1 rows)) cfg)
     = result_map out_map
         (optimize_import_layout now2 rnd2 j2 areas
            (fst (build_containers rnd2 k2 rows)) cfg)
  /\ result_map out_map
       (optimize_export_layout now1 rnd1 j1 areas
          (fst (build_containers rnd1 k1 rows)) cfg)
     = result_map out_map
         (optimize_export_layout now2 rnd2 j2 areas
            (fst (build_containers rnd2 k2 rows)) cfg)
  /\ (forall ps,
         generate_multiple_proposals clock rnd1 j1
           (fst (build_containers rnd1 k1 rows)) op cfg n = Ok ps ->
         List.length ps = n
         /\ forall p q, In p ps -> In q ps ->
                        prop_placement_map p = prop_placement_map q)
  /\ (rows <> [] ->
      exists ps,
        generate_multiple_proposals clock rnd1 j1
          (fst (build_containers rnd1 k1 rows)) op cfg n = Ok ps).
Proof.
  intros Hrows.
  destruct (build_containers_determined Hrows rnd1 rnd2 k1 k2)
    as (Hcs & _ & Hw).
  split; [exact Hcs|]. rewrite <- Hcs.
  set (cs := fst (build_containers rnd1 k1 rows)) in *.
  split; [|split; [|split]].
  - apply (@run_strategy_indep "IMPORT" now1 now2 rnd1 rnd2 j1 j2 areas cs
             cfg Hw).
  - apply (@run_strategy_indep "EXPORT" now1 now2 rnd1 rnd2 j1 j2 areas cs
             cfg Hw).
  - intros ps Hps. unfold generate_multiple_proposals in Hps.
    destruct (@proposals_loop_maps clock rnd1 op cfg n 0%nat j1 cs ps Hw Hps)
      as [Hlen Hall].
    split; auto. intros p q Hp Hq.
    pose proof (Hall p Hp) as E1. pose proof (Hall q Hq) as E2.
    rewrite E1 in E2. now inversion E2.
  - intros Hne. unfold generate_multiple_proposals.
    apply proposals_loop_total. now apply build_containers_nonempty.
Qed.

Definition weighed_rows : list Row :=
  [ mkRow "E1" "22G1" None (Some 18.9%Q) (Some "X") "Standard";
    mkRow "E2" "45R1" None (Some 26%Q) (Some "X") "Reefer";
    mkRow "E3" "2000" None (Some 60%Q) (Some "Y") "Standard" ].

Definition other_random : Oracle := fun i => (3 * i + 5)%nat.

Lemma two_runs_same_placements_witness :
  result_map out_map
    (optimize_export_layout "noon" no_random 0 _initialize_areas
       (fst (build_containers no_random 0 weighed_rows)) [])
  = result_map out_map
      (optimize_export_layout "dusk" other_random 7 _initialize_areas
         (fst (build_containers other_random 2 weighed_rows)) []).
Proof.
  apply (@two_runs_same_placements weighed_rows "EXPORT" [] _initialize_areas
           "noon" "dusk" no_random other_random 0%nat 2%nat 0%nat 7%nat
           (fun _ => "noon") 3).
  repeat constructor; discriminate.
Defined.

(** ** Attempts below the threshold *)

Lemma slots_grow_free (ps ps' : list YardPosition) :
  Forall2 slot_grows ps ps' ->
  sumZ (map available_tiers ps') <= sumZ (map available_tiers ps).
Proof.
  induction 1 as [|p p' ps ps' Hp _ IH]; simpl; [lia|].
  rewrite !sumZ_cons.
  destruct Hp as (_ & _ & _ & _ & _ & _ & extra & _ & Hav). lia.
Qed.

Lemma yard_grows_free_tiers (ar ar' : Areas) (n : string) (a : YardArea) :
  yard_grows ar ar' -> dict_get String.eqb ar n = Some a ->
  exists a', dict_get String.eqb ar' n = Some a'
             /\ free_tiers a' <= free_tiers a.
Proof.
  induction 1 as [|[k1 a1] [k2 a2] l l' [E (_ & _ & _ & Hp)] _ IH];
    simpl; [discriminate|].
  simpl in E. subst k2. destruct (String.eqb k1 n).
  - intros H. inversion H; subst. exists a2. split; auto.
    now apply slots_grow_free.
  - exact IH.
Qed.

(** Sixty-four reefer 20-foot boxes after 252 reefer 45-foot boxes of one
    carrier, all of weight class 1, and a configuration under which only
    Q1 and Q2 permit class 1. *)
Definition reefer_long (i : nat) : Container :=
  container_of ("R" ++ str_of_Z (Z.of_nat i)) "45R1" (Some "T") (Some 10%Q)
               None "Reefer".

Definition reefer_short (i : nat) : Container :=
  container_of ("S" ++ str_of_Z (Z.of_nat i)) "22R1" (Some "T") (Some 10%Q)
               None "Reefer".

Definition stranded_batch : list Container :=
  map reefer_long (seq 0 252) ++ map reefer_short (seq 0 64).

Definition only_Q_permit_1 : dict string (list Z) :=
  [("M1", [8]); ("M2", [8]); ("W1", [8]); ("W2", [8])].

(** The zone holds, on some slot, a container with this unit number. *)
Definition zone_holds (ar : Areas) (zone unit : string) : bool :=
  match dict_get String.eqb ar zone with
  | Some a =>
      existsb (fun p => existsb (fun c => String.eqb (unit_number c) unit)
                                (containers p))
              (positions a)
  | None => false
  end.

Definition zone_free_tiers (ar : Areas) (zone : string) : option Z :=
  match dict_get String.eqb ar zone with
  | Some a => Some (free_tiers a)
  | None => None
  end.

(** C9.  When the attempt of a carrier group in a candidate zone ends
    below the threshold, the loop goes on with the result map and the
    usage counters as they were and with the yard as the attempt left it:
    the zone has lost one tier per tentative placement, and no later
    placement gives a tier back.  In the run on the mixed pair the
    standard box keeps a tier of M1 although the map records it in M2; in
    the run on the stranded batch box R0 keeps a tier in Q1 and a tier in
    Q2, each zone has lost 252 tiers, and the result map is empty. *)
Theorem below_threshold_attempt_not_rolled_back (st : RunState)
    (t : option string) (g : list Container) (n : string)
    (rest : list string) (a : YardArea) (ar' : Areas) (temp : PlacementMap)
    (cnt : Z) (now : string) :
  dict_get String.eqb (rs_areas st) n = Some a ->
  import_attempt n t g (rs_map st) (rs_areas st) = Ok (ar', temp, cnt) ->
  5 * cnt < 4 * Z.of_nat (List.length g) ->
  import_try_areas (n :: rest) t g st
  = import_try_areas rest t g
      (mkRunState ar' (rs_map st) (rs_usage st) (rs_placed st))
  /\ (exists a', dict_get String.eqb ar' n = Some a'
                 /\ free_tiers a' = free_tiers a - cnt)
  /\ (forall ar_end,
         yard_steps ar' ar_end ->
         exists a_end, dict_get String.eqb ar_end n = Some a_end
                       /\ free_tiers a_end <= free_tiers a - cnt)
  /\ match optimize_import_layout now no_random 0 _initialize_areas
                                  mixed_pair [] with
     | Ok out =>
         option_map p_area (dict_get String.eqb (out_map out) "A1")
         = Some "M2"
         /\ zone_holds (out_areas out) "M1" "A1" = true
         /\ zone_free_tiers (out_areas out) "M1" = Some (504 * 5 - 1)
     | Raise _ => False
     end
  /\ match optimize_import_layout now no_random 0 _initialize_areas
                                  stranded_batch only_Q_permit_1 with
     | Ok out =>
         out_map out = []
         /\ zone_holds (out_areas out) "Q1" "R0" = true
         /\ zone_holds (out_areas out) "Q2" "R0" = true
         /\ zone_free_tiers (out_areas out) "Q1" = Some (504 * 4 - 252)
         /\ zone_free_tiers (out_areas out) "Q2" = Some (504 * 4 - 252)
     | Raise _ => False
     end.
Proof.
  intros Hget Hat Hbelow.
  destruct (@import_attempt_spec n t (rs_map st) g (rs_areas st) a Hget)
    as (ar1 & temp1 & cnt1 & a1 & Hat1 & Hs & Hg1 & _ & Hfree & _).
  rewrite Hat in Hat1. inversion Hat1; subst ar1 temp1 cnt1. clear Hat1.
  split; [|split; [|split; [|split]]].
  - cbn [import_try_areas]. rewrite Hat. cbn [bind].
    apply reaches_threshold_false in Hbelow. now rewrite Hbelow.
  - eauto.
  - intros ar_end Hend.
    destruct (@yard_grows_free_tiers ar' ar_end n a1
                (yard_steps_grows Hend) Hg1) as (a_end & H1 & H2).
    exists a_end. split; auto. lia.
  - vm_compute. repeat split.
  - vm_compute. repeat split.
Qed.

(** ** The theorems at concrete inputs *)

Definition fresh_state : RunState :=
  mkRunState _initialize_areas [] (initial_usage _initialize_areas) 0.


Lemma empty_batch_divides_by_zero_witness :
  (exists out,
      optimize_import_layout "noon" no_random 0 _initialize_areas
                             mixed_pair [] = Ok out)
  /\ (exists out,
         optimize_export_layout "noon" no_random 0 _initialize_areas
                                mixed_pair [] = Ok out).
Proof.
  apply (@empty_batch_divides_by_zero "noon" no_random 0 _initialize_areas []).
  - discriminate.
  - apply initialize_areas_stocked.
Defined.

(** Outbound boxes of weight class 8 for port X under a configuration in
    which no zone permits class 8. *)
Definition heavy_box (u : string) : Container :=
  container_of u "22G1" None (Some 60%Q) (Some "X") "Standard".

Definition heavy_batch : list Container := [heavy_box "H1"; heavy_box "H2"].

Definition nobody_permits_8 : dict string (list Z) :=
  [("M1", [1]); ("M2", [1]); ("W1", [1]); ("W2", [1]); ("Q1", [1]);
   ("Q2", [1])].

Definition permitsb (ar : Areas) (wc : Z) : bool :=
  existsb (fun kv => Z_in wc (allowed_weight_classes (snd kv))) ar.

Lemma permitsb_false (ar : Areas) (wc : Z) :
  permitsb ar wc = false -> ~ permits ar wc.
Proof.
  unfold permitsb, permits. intros H (kv & Hin & Hwc).
  assert (E : existsb (fun kv => Z_in wc (allowed_weight_classes (snd kv))) ar
              = true).
  { apply existsb_exists. exists kv. split; auto. now apply Z_in_iff. }
  congruence.
Qed.

Lemma outbound_unpermitted_absent_witness :
  exists out,
    optimize_export_layout "noon" no_random 0 _initialize_areas heavy_batch
                           nobody_permits_8 = Ok out
    /\ dict_get String.eqb (placement_map (out_result out)) "H1" = None.
Proof.
  destruct (@outbound_unpermitted_absent "noon" no_random 0 _initialize_areas
              heavy_batch nobody_permits_8 (heavy_box "H1"))
    as (out & Hrun & Habs & _).
  - apply initialize_areas_stocked.
  - repeat constructor; simpl; intuition discriminate.
  - left. reflexivity.
  - apply permitsb_false. vm_compute. reflexivity.
  - exists out. split; [exact Hrun | exact Habs].
Defined.

Definition m1_attempt : result (Areas * PlacementMap * Z) :=
  import_attempt "M1" (Some "T1") mixed_pair [] _initialize_areas.

Definition m1_yard : Areas :=
  match m1_attempt with Ok (ar, _, _) => ar | Raise _ => [] end.

Definition m1_temp : PlacementMap :=
  match m1_attempt with Ok (_, temp, _) => temp | Raise _ => [] end.

Definition m1_count : Z :=
  match m1_attempt with Ok (_, _, cnt) => cnt | Raise _ => 0 end.

Definition zone_M1 : YardArea :=
  YardArea_init "M1" (Some [1; 2; 3; 4; 5; 6; 7; 8]) 5.

Lemma below_threshold_attempt_not_rolled_back_witness :
  import_try_areas ["M1"; "M2"] (Some "T1") mixed_pair fresh_state
  = import_try_areas ["M2"] (Some "T1") mixed_pair
      (mkRunState m1_yard [] (initial_usage _initialize_areas) 0)
  /\ exists a', dict_get String.eqb m1_yard "M1" = Some a'
                /\ free_tiers a' = free_tiers zone_M1 - m1_count.
Proof.
  destruct (@below_threshold_attempt_not_rolled_back fresh_state (Some "T1")
              mixed_pair "M1" ["M2"] zone_M1 m1_yard m1_temp m1_count "noon")
    as (H1 & H2 & _).
  - reflexivity.
  - vm_compute. reflexivity.
  - vm_compute. reflexivity.
  - split; [exact H1 | exact H2].
Defined.

(** * Further properties of the engine *)

(** ** What a run leaves untouched *)

(** X1.  A run of either strategy on a non-empty batch returns with the
    yard it was configured with, grown: the zone names in their order, the
    permitted weight classes, the stack heights, and of every slot the
    zone, row, column, stack height, length category and reefer flag are
    as before; the stack of a slot has only been extended at its end, and
    its counter has dropped by the number of containers added. *)
Theorem runs_only_grow_the_yard (now : string) (rnd : Oracle) (k : nat)
    (areas : Areas) (cs : list Container) (cfg : dict string (list Z)) :
  cs <> [] -> stocked areas ->
  (exists out, optimize_import_layout now rnd k areas cs cfg = Ok out
               /\ yard_grows (set_area_weight_classes areas cfg)
                             (out_areas out))
  /\ (exists out, optimize_export_layout now rnd k areas cs cfg = Ok out
                  /\ yard_grows (set_area_weight_classes areas cfg)
                                (out_areas out)).
Proof.
  intros Hcs Hst. split.
  - destruct (@import_run now rnd k areas cs cfg Hcs Hst)
      as (out & Hrun & Hs & _).
    exists out. split; auto. now apply yard_steps_grows.
  - destruct (@export_run now rnd k areas cs cfg Hcs Hst)
      as (out & Hrun & Hs & _).
    exists out. split; auto. now apply yard_steps_grows.
Qed.

Lemma runs_only_grow_the_yard_witness :
  (exists out,
      optimize_import_layout "noon" no_random 0 _initialize_areas
                             stranded_batch only_Q_permit_1 = Ok out
      /\ yard_grows (set_area_weight_classes _initialize_areas only_Q_permit_1)
                    (out_areas out))
  /\ (exists out,
         optimize_export_layout "noon" no_random 0 _initialize_areas
                                stranded_batch only_Q_permit_1 = Ok out
         /\ yard_grows
              (set_area_weight_classes _initialize_areas only_Q_permit_1)
              (out_areas out)).
Proof.
  apply (@runs_only_grow_the_yard "noon" no_random 0 _initialize_areas
           stranded_batch only_Q_permit_1).
  - discriminate.
  - apply initialize_areas_stocked.
Defined.

(** ** Stacked containers fit their slot and their zone *)

Definition stacks_fit (ar : Areas) : Prop :=
  forall n a p c,
    In (n, a) ar -> In p (positions a) -> In c (containers p) ->
    container_length p = Some (size c)
    /\ In (weight_class c) (allowed_weight_classes a).

Lemma yard_ok_stacks_fit (ar : Areas) : yard_ok ar -> stacks_fit ar.
Proof.
  unfold yard_ok, area_ok, stacks_fit. intros Hok n a p c Hin Hp Hc.
  rewrite Forall_forall in Hok. specialize (Hok _ Hin). simpl in Hok.
  rewrite Forall_forall in Hok. destruct (Hok _ Hp) as (_ & _ & Hall).
  rewrite Forall_forall in Hall. destruct (Hall c Hc) as (_ & H1 & H2).
  auto.
Qed.

(** X2.  Started on a yard on which nothing is stacked, either strategy
    returns with every stacked container on a slot of its own length
    category, in a zone that permits its weight class; this includes the
    containers of discarded attempts. *)
Theorem stacked_containers_fit (now : string) (rnd : Oracle) (k : nat)
    (areas : Areas) (cs : list Container) (cfg : dict string (list Z)) :
  fresh_yard areas -> stocked areas -> cs <> [] ->
  (exists out, optimize_import_layout now rnd k areas cs cfg = Ok out
               /\ stacks_fit (out_areas out))
  /\ (exists out, optimize_export_layout now rnd k areas cs cfg = Ok out
                  /\ stacks_fit (out_areas out)).
Proof.
  intros Hfresh Hst Hcs.
  assert (Hok : yard_ok (set_area_weight_classes areas cfg))
    by now apply fresh_yard_ok, configured_fresh.
  split.
  - destruct (@import_run now rnd k areas cs cfg Hcs Hst)
      as (out & Hrun & Hs & _).
    exists out. split; auto. apply yard_ok_stacks_fit.
    eapply yard_ok_steps; eauto.
  - destruct (@export_run now rnd k areas cs cfg Hcs Hst)
      as (out & Hrun & Hs & _).
    exists out. split; auto. apply yard_ok_stacks_fit.
    eapply yard_ok_steps; eauto.
Qed.

Lemma stacked_containers_fit_witness :
  (exists out,
      optimize_import_layout "noon" no_random 0 _initialize_areas
                             stranded_batch only_Q_permit_1 = Ok out
      /\ stacks_fit (out_areas out))
  /\ (exists out,
         optimize_export_layout "noon" no_random 0 _initialize_areas
                                stranded_batch only_Q_permit_1 = Ok out
         /\ stacks_fit (out_areas out)).
Proof.
  apply (@stacked_containers_fit "noon" no_random 0 _initialize_areas
           stranded_batch only_Q_permit_1).
  - apply initialize_areas_fresh.
  - apply initialize_areas_stocked.
  - discriminate.
Defined.

(** ** What the constructor of a container guarantees *)

Lemma first_band_range (table : list (Z * (Q * Q))) (w : Q) :
  Forall (fun e => 1 <= fst e <= 8) table -> 1 <= first_band table w <= 8.
Proof.
  induction 1 as [|[b [lo hi]] rest Hb _ IH]; simpl; [lia|].
  destruct (Qle_bool lo w && Qle_bool w hi); auto.
Qed.

Lemma weight_classes_ids : Forall (fun e => 1 <= fst e <= 8) weight_classes.
Proof.
  unfold weight_classes. repeat constructor; simpl; lia.
Qed.

Lemma randint_range (rnd : Oracle) (k : nat) :
  1 <= random_randint_1_8 rnd k <= 8.
Proof.
  unfold random_randint_1_8.
  pose proof (Nat.mod_upper_bound (rnd k) 8). lia.
Qed.

Lemma assign_weight_classes_range (rnd : Oracle) (cs : list Container) :
  forall k,
    Forall (fun c => 1 <= weight_class c <= 8)
           (fst (assign_weight_classes rnd k cs)).
Proof.
  induction cs as [|c cs IH]; intros k; cbn [assign_weight_classes].
  - constructor.
  - destruct (weight c) as [w|].
    + specialize (IH k). destruct (assign_weight_classes rnd k cs).
      cbn [fst] in *. constructor; auto. cbn [weight_class set_weight_class].
      rewrite band_break_first_band.
      apply first_band_range, weight_classes_ids.
    + specialize (IH (S k)). destruct (assign_weight_classes rnd (S k) cs).
      cbn [fst] in *. constructor; auto. cbn [weight_class set_weight_class].
      apply randint_range.
Qed.

(** X3.  Whatever the arguments and whatever the random source returns, a
    constructed container has size 6 or 12, a weight class between 1 and 8
    and a priority between 1 and 3, and it stores the other fields as
    given; an ISO code containing 45 gives size 12 even when it also
    contains 22 or 20; and [assign_weight_classes] leaves every container
    of any list with a weight class between 1 and 8. *)
Theorem container_fields_in_range (rnd : Oracle) (k : nat)
    (u iso : string) (t : option string) (w : option Q) (p : option string)
    (cat : string) (cs : list Container) :
  let c := fst (Container_init rnd k u iso t w p cat) in
  (size c = 6 \/ size c = 12)
  /\ 1 <= weight_class c <= 8
  /\ 1 <= priority c <= 3
  /\ (unit_number c, iso_type c, transporter c, weight c, port c, category c)
     = (u, iso, t, w, p, cat)
  /\ (str_contains "45" iso = true -> size c = 12)
  /\ Forall (fun c' => 1 <= weight_class c' <= 8)
            (fst (assign_weight_classes rnd k cs)).
Proof.
  cbn zeta. unfold Container_init.
  assert (Hsz : (fst (_determine_size iso rnd k) = 6
                 \/ fst (_determine_size iso rnd k) = 12)
                /\ (str_contains "45" iso = true ->
                    fst (_determine_size iso rnd k) = 12)).
  { unfold _determine_size, random_choice_6_12.
    destruct (negb (iso =? "")%string) eqn:En; cbn [andb].
    - destruct (str_contains "45" iso) eqn:E45; cbn [fst].
      + split; auto.
      + split; [|discriminate].
        destruct (str_contains "22" iso || str_contains "20" iso);
          cbn [fst]; auto.
        destruct (Nat.even (rnd k)); auto.
    - apply negb_false_iff, String.eqb_eq in En. subst iso. cbn [fst].
      split; [destruct (Nat.even (rnd k)); auto | discriminate]. }
  destruct (_determine_size iso rnd k) as [sz k1]. cbn [fst] in Hsz.
  assert (Hwc : 1 <= fst (_determine_weight_class w rnd k1) <= 8).
  { unfold _determine_weight_class. destruct w as [x|]; cbn [fst].
    - apply first_band_range, weight_classes_ids.
    - apply randint_range. }
  destruct (_determine_weight_class w rnd k1) as [wc k2]. cbn [fst] in *.
  cbn [size weight_class priority unit_number iso_type transporter weight
       port category].
  split; [apply Hsz|]. split; [exact Hwc|]. split.
  - unfold _determine_priority.
    destruct (cat =? "Dangerous")%string; [lia|].
    destruct (cat =? "Reefer")%string; [lia|].
    destruct (cat =? "Out-of-Gauge")%string; lia.
  - split; [reflexivity|]. split; [apply Hsz|].
    apply assign_weight_classes_range.
Qed.

(** ** Configuring the permitted weight classes *)

Definition configure_step (ar : Areas) (kv : string * list Z) : Areas :=
  match dict_get String.eqb ar (fst kv) with
  | Some a => dict_set String.eqb ar (fst kv) (with_allowed a (snd kv))
  | None => ar
  end.

Lemma set_area_weight_classes_fold (ar : Areas) (cfg : dict string (list Z)) :
  set_area_weight_classes ar cfg = fold_left configure_step cfg ar.
Proof.
  reflexivity.
Qed.

Lemma configure_step_other (ar : Areas) (kv : string * list Z) (n : string) :
  n <> fst kv ->
  dict_get String.eqb (configure_step ar kv) n = dict_get String.eqb ar n.
Proof.
  intros Hn. unfold configure_step.
  destruct (dict_get String.eqb ar (fst kv)); auto.
  now apply dict_get_set_other.
Qed.

Lemma configure_fold_other (cfg : dict string (list Z)) (n : string) :
  ~ In n (map fst cfg) ->
  forall ar, dict_get String.eqb (fold_left configure_step cfg ar) n
             = dict_get String.eqb ar n.
Proof.
  induction cfg as [|kv cfg IH]; intros Hn ar; simpl; auto.
  rewrite IH.
  - apply configure_step_other. intros E. apply Hn. left. now rewrite E.
  - intros H. apply Hn. now right.
Qed.

Lemma configure_fold_same (cfg : dict string (list Z)) (n : string)
    (wcs : list Z) :
  NoDup (map fst cfg) -> In (n, wcs) cfg ->
  forall ar a,
    dict_get String.eqb ar n = Some a ->
    dict_get String.eqb (fold_left configure_step cfg ar) n
    = Some (with_allowed a wcs).
Proof.
  induction cfg as [|[k w] cfg IH]; intros Hnd Hin ar a Hget;
    [contradiction|].
  simpl in Hnd. inversion Hnd as [|? ? Hk Hnd']; subst.
  cbn [fold_left]. destruct Hin as [E|Hin].
  - inversion E; subst. rewrite configure_fold_other by exact Hk.
    unfold configure_step. cbn [fst snd]. rewrite Hget.
    apply dict_get_set_same.
  - apply IH; auto. rewrite configure_step_other; auto.
    cbn [fst]. intros ->. apply Hk. apply in_map_iff. now exists (k, wcs).
Qed.

Lemma configure_fold_unknown (cfg : dict string (list Z)) :
  forall ar,
    (forall n, In n (map fst cfg) -> ~ In n (map fst ar)) ->
    fold_left configure_step cfg ar = ar.
Proof.
  induction cfg as [|[k w] cfg IH]; intros ar Hun; simpl; auto.
  assert (E : configure_step ar (k, w) = ar).
  { unfold configure_step. cbn [fst].
    destruct (dict_get String.eqb ar k) as [a|] eqn:Ek; auto.
    exfalso. apply (Hun k); [now left|].
    apply dict_get_some_in in Ek. apply in_map_iff. now exists (k, a). }
  rewrite E. apply IH. intros n Hn. apply Hun. now right.
Qed.

(** X4.  [set_area_weight_classes] with a configuration of distinct zone
    names: a configured zone of the yard ends with exactly the configured
    list and is otherwise unchanged; a zone the configuration does not
    name is unchanged; the zone names, their order and all slots stay as
    they are; and a configuration that names no zone of the yard changes
    nothing. *)
Theorem configuration_sets_named_zones (areas : Areas)
    (cfg : dict string (list Z)) :
  NoDup (map fst cfg) ->
  (forall n wcs a,
      In (n, wcs) cfg -> dict_get String.eqb areas n = Some a ->
      dict_get String.eqb (set_area_weight_classes areas cfg) n
      = Some (mkYardArea (name a) wcs (max_stack_height a) (positions a)))
  /\ (forall n, ~ In n (map fst cfg) ->
                dict_get String.eqb (set_area_weight_classes areas cfg) n
                = dict_get String.eqb areas n)
  /\ map fst (set_area_weight_classes areas cfg) = map fst areas
  /\ skeleton (set_area_weight_classes areas cfg) = skeleton areas
  /\ ((forall n, In n (map fst cfg) -> ~ In n (map fst areas)) ->
      set_area_weight_classes areas cfg = areas).
Proof.
  intros Hnd. rewrite set_area_weight_classes_fold. repeat split.
  - intros n wcs a Hin Hget.
    now rewrite (@configure_fold_same cfg n wcs Hnd Hin areas a Hget).
  - intros n Hn. now apply configure_fold_other.
  - rewrite <- set_area_weight_classes_fold.
    rewrite <- !skeleton_keys. now rewrite set_area_weight_classes_skeleton.
  - rewrite <- set_area_weight_classes_fold.
    apply set_area_weight_classes_skeleton.
  - apply configure_fold_unknown.
Qed.

Lemma configuration_sets_named_zones_witness :
  dict_get String.eqb
    (set_area_weight_classes _initialize_areas only_Q_permit_1) "W1"
  = Some (mkYardArea "W1" [8] 4 (_initialize_positions "W1" 4))
  /\ dict_get String.eqb
       (set_area_weight_classes _initialize_areas only_Q_permit_1) "Q1"
     = dict_get String.eqb _initialize_areas "Q1".
Proof.
  destruct (@configuration_sets_named_zones _initialize_areas only_Q_permit_1)
    as (H1 & H2 & _).
  - repeat constructor; simpl; intuition discriminate.
  - split.
    + apply (H1 "W1" [8] (YardArea_init "W1" (Some [3; 4; 5; 6; 7; 8]) 4)).
      * simpl. auto.
      * reflexivity.
    + apply H2. simpl. intuition discriminate.
Defined.

(** ** Groups are keyed by what their containers carry *)

Section SoundDict.
Variables K V : Type.
Variable eqb : K -> K -> bool.
Hypothesis eqb_sound : forall a b, eqb a b = true -> a = b.

Lemma sound_dict_set_in (d : dict K V) (k k1 : K) (v v1 : V) :
  In (k1, v1) (dict_set eqb d k v) -> (k1 = k /\ v1 = v) \/ In (k1, v1) d.
Proof.
  induction d as [|[k2 v2] d IH]; simpl.
  - intros [E|[]]. inversion E; auto.
  - destruct (eqb k2 k) eqn:Ek; simpl.
    + apply eqb_sound in Ek. subst k2.
      intros [E|H]; [inversion E; auto | auto].
    + intros [E|H]; auto. destruct (IH H); auto.
Qed.

Lemma sound_dict_get_in (d : dict K V) (k : K) (v : V) :
  dict_get eqb d k = Some v -> In (k, v) d.
Proof.
  induction d as [|[k2 v2] d IH]; simpl; [discriminate|].
  destruct (eqb k2 k) eqn:Ek.
  - apply eqb_sound in Ek. subst k2. intros E. inversion E. auto.
  - auto.
Qed.
End SoundDict.

Lemma oeqb_sound (a b : option string) : oeqb a b = true -> a = b.
Proof.
  destruct a as [x|], b as [y|]; simpl; try discriminate; auto.
  intros E. apply String.eqb_eq in E. now subst.
Qed.

Lemma Zeqb_sound (a b : Z) : (a =? b) = true -> a = b.
Proof.
  apply Z.eqb_eq.
Qed.

Lemma group_append_keyed {K} (eqb : K -> K -> bool)
    (groups : dict K (list Container)) (key : K) (c : Container)
    (P : K -> Container -> Prop) :
  (forall a b, eqb a b = true -> a = b) ->
  (forall k l, In (k, l) groups -> Forall (P k) l) -> P key c ->
  forall k l, In (k, l) (group_append eqb groups key c) -> Forall (P k) l.
Proof.
  intros Hs Hg Hc k l Hin. unfold group_append in Hin.
  destruct (dict_get eqb groups key) as [l0|] eqn:E.
  - apply (@sound_dict_set_in _ _ eqb Hs) in Hin. destruct Hin as [[-> ->]|Hin]; eauto.
    apply (@sound_dict_get_in _ _ eqb Hs) in E.
    apply Forall_app. split; eauto.
  - apply (@sound_dict_set_in _ _ eqb Hs) in Hin. destruct Hin as [[-> ->]|Hin]; eauto.
Qed.

Lemma lookup_or_empty_keyed {K V} (eqb : K -> K -> bool)
    (eqb_sound : forall a b, eqb a b = true -> a = b)
    (groups : dict K (list V)) (key : K) (Q : K -> list V -> Prop) :
  (forall k w, In (k, w) groups -> Q k w) -> Q key [] ->
  Q key match dict_get eqb groups key with
        | Some wg => wg
        | None => []
        end.
Proof.
  intros Hg Hnil. destruct (dict_get eqb groups key) as [w0|] eqn:E; auto.
  apply (@sound_dict_get_in _ _ eqb eqb_sound) in E. auto.
Qed.

Lemma transporter_groups_keyed (cs : list Container) (t : option string)
    (g : list Container) :
  In (t, g) (transporter_groups cs) -> forall c, In c g -> transporter c = t.
Proof.
  unfold transporter_groups.
  assert (H : forall rest groups,
             (forall k l, In (k, l) groups ->
                          Forall (fun c => transporter c = k) l) ->
             forall k l,
               In (k, l)
                  (fold_left (fun g c => group_append oeqb g (transporter c) c)
                             rest groups) ->
               Forall (fun c => transporter c = k) l).
  { induction rest as [|c rest IH]; intros groups Hg k l; simpl; eauto.
    apply IH.
    apply (@group_append_keyed (option string) oeqb groups (transporter c) c
             (fun k c => transporter c = k)); auto using oeqb_sound. }
  intros Hin c Hc.
  specialize (H cs [] (fun k l (F : In (k, l) []) => match F with end)
                t g Hin).
  rewrite Forall_forall in H. auto.
Qed.

Lemma port_groups_keyed (cs : list Container) (p : option string)
    (wg : dict Z (list Container)) (wc : Z) (cc : list Container) :
  In (p, wg) (port_groups cs) -> In (wc, cc) wg ->
  forall c, In c cc -> port c = p /\ weight_class c = wc.
Proof.
  unfold port_groups.
  set (Q := fun (p : option string) (wg : dict Z (list Container)) =>
              forall k l, In (k, l) wg ->
                          Forall (fun c => port c = p /\ weight_class c = k) l).
  assert (H : forall rest groups,
             (forall k w, In (k, w) groups -> Q k w) ->
             forall k w,
               In (k, w)
                  (fold_left
                     (fun g c =>
                        let wg := match dict_get oeqb g (port c) with
                                  | Some wg => wg
                                  | None => []
                                  end in
                        dict_set oeqb g (port c)
                          (group_append Z.eqb wg (weight_class c) c))
                     rest groups) ->
               Q k w).
  { induction rest as [|c rest IH]; intros groups Hg k w; simpl; eauto.
    apply IH.
    intros k1 w1 Hin. apply (@sound_dict_set_in _ _ oeqb oeqb_sound) in Hin.
    destruct Hin as [[-> ->]|Hin]; eauto.
    unfold Q.
    apply (@group_append_keyed Z Z.eqb _ (weight_class c) c
             (fun k c' => port c' = port c /\ weight_class c' = k));
      auto using Zeqb_sound.
    apply (@lookup_or_empty_keyed (option string) _ oeqb oeqb_sound groups
             (port c) Q).
    - exact Hg.
    - intros ? ? []. }
  intros Hin Hwg c Hc.
  specialize (H cs [] (fun k w (F : In (k, w) []) => match F with end)
                p wg Hin wc cc Hwg).
  rewrite Forall_forall in H. auto.
Qed.

(** ** The result map is written at successful placements only *)

Lemma foldM_preserves {A S} (I : S -> Prop) (f : S -> A -> result S)
    (l : list A) :
  (forall s a s', In a l -> I s -> f s a = Ok s' -> I s') ->
  forall s s', I s -> foldM f l s = Ok s' -> I s'.
Proof.
  induction l as [|a l IH]; intros Hf s s' Hs Hfold; simpl in Hfold.
  - inversion Hfold. now subst.
  - destruct (f s a) as [s1|e] eqn:E; [|discriminate]. cbn [bind] in Hfold.
    apply (IH (fun s0 a0 s0' Hin => Hf s0 a0 s0' (or_intror Hin)) s1 s');
      auto.
    apply (Hf s a s1); auto. now left.
Qed.

Lemma dict_set_keys_absent {V} (d : dict string V) (k : string) (v : V) :
  ~ In k (map fst d) ->
  map fst (dict_set String.eqb d k v) = map fst d ++ [k].
Proof.
  induction d as [|[k1 v1] d IH]; simpl; intros H; auto.
  destruct (String.eqb_spec k1 k) as [->|Hne]; simpl.
  - exfalso. auto.
  - rewrite IH; auto.
Qed.

Lemma dict_set_NoDup {V} (d : dict string V) (k : string) (v : V) :
  NoDup (map fst d) -> NoDup (map fst (dict_set String.eqb d k v)).
Proof.
  intros Hnd. destruct (in_dec string_dec k (map fst d)) as [Hin|Hout].
  - now rewrite dict_set_keys_present.
  - rewrite dict_set_keys_absent by assumption.
    apply NoDup_app; auto.
    + repeat constructor. intros [].
    + intros x Hx [<-|[]]. contradiction.
Qed.

Lemma dict_update_NoDup {V} (d e : dict string V) :
  NoDup (map fst d) -> NoDup (map fst (dict_update String.eqb d e)).
Proof.
  unfold dict_update. revert d.
  induction e as [|[k v] e IH]; intros d Hd; simpl; auto.
  apply IH. now apply dict_set_NoDup.
Qed.

Lemma truthy_inv (code : option string) (s : string) :
  truthy code = Some s -> code = Some s.
Proof.
  unfold truthy. destruct code as [s'|]; [|discriminate].
  destruct (String.eqb s' ""); congruence.
Qed.

Section Ledger.
Variable cs : list Container.
Variable areas0 : Areas.

(** In some yard reached from [areas0], the zone named [n] took container
    [c] and returned [code]. *)
Definition placed_at (c : Container) (n code : string) : Prop :=
  exists ar a,
    yard_steps areas0 ar /\ In (n, a) ar
    /\ snd (area_place_container a c) = Some code.

(** The record describes container [c] placed in zone [n] under [code]. *)
Definition record_of (c : Container) (n code : string) (r : Placement)
  : Prop :=
  p_position r = code /\ p_area r = n
  /\ p_weight_class r = weight_class c /\ p_size r = size c
  /\ p_category r = category c /\ p_iso_type r = iso_type c
  /\ (p_transporter r = None \/ p_transporter r = Some (transporter c))
  /\ (p_port r = None \/ p_port r = Some (port c)).

Definition justified (ur : string * Placement) : Prop :=
  exists c n code,
    In c cs /\ fst ur = unit_number c /\ placed_at c n code
    /\ record_of c n code (snd ur).

Record ledger (st : RunState) : Prop := mkLedger {
  led_steps : yard_steps areas0 (rs_areas st);
  led_entries : Forall justified (rs_map st);
  led_keys : NoDup (map fst (rs_map st))
}.

Lemma place_in_area_ledger (ar ar' : Areas) (n : string) (c : Container)
    (code : option string) :
  yard_steps areas0 ar -> place_in_area ar n c = Ok (ar', code) ->
  yard_steps areas0 ar'
  /\ forall s, truthy code = Some s -> placed_at c n s.
Proof.
  intros Hs Hpl. unfold place_in_area, dict_lookup in Hpl.
  destruct (dict_get String.eqb ar n) as [a|] eqn:Ea; [|discriminate].
  destruct (@place_in_area_found ar n a c Ea) as [_ Hstep].
  cbn [bind] in Hpl.
  destruct (area_place_container a c) as [a1 code1] eqn:E1.
  cbn [fst snd] in *. inversion Hpl; subst ar' code1. split.
  - eapply yard_steps_trans; [exact Hs|]. now apply yard_steps_one.
  - intros s Ht. apply truthy_inv in Ht. subst code.
    exists ar, a. repeat split; auto.
    + now apply dict_get_some_in.
    + now rewrite E1.
Qed.

Lemma justified_write (pm : PlacementMap) (c : Container) (n code : string)
    (r : Placement) :
  Forall justified pm -> In c cs -> placed_at c n code ->
  record_of c n code r ->
  Forall justified (dict_set String.eqb pm (unit_number c) r).
Proof.
  intros Hpm Hc Hp Hr. apply dict_set_Forall_in; auto.
  exists c, n, code. auto.
Qed.

Lemma anywhere_record_of (c : Container) (n code : string) :
  record_of c n code (anywhere_record c code n).
Proof.
  unfold record_of. simpl. repeat split; auto.
Qed.

Lemma anywhere_ledger (st st' : RunState) (c : Container) (b : bool) :
  ledger st -> In c cs ->
  _place_container_anywhere c st = Ok (st', b) -> ledger st'.
Proof.
  intros [Hs He Hk] Hc. unfold _place_container_anywhere.
  destruct (place_anywhere_outcome c st)
    as [Hnone|pre post n code a a' usage' Har Hpre Hoff Hpl Hadd
        |pre post n a e Har Hoff Hadd]; cbn [bind]; intros H;
    inversion H; subst; clear H.
  - constructor; auto.
  - assert (Hstep : yard_step (rs_areas st) (pre ++ (n, a') :: post)).
    { rewrite Har. replace a' with (fst (area_place_container a c))
        by now rewrite Hpl.
      constructor. }
    constructor; cbn [rs_areas rs_map].
    + eapply yard_steps_trans; [exact Hs|]. now apply yard_steps_one.
    + apply justified_write with (n := n) (code := code); auto.
      * exists (rs_areas st), a. repeat split; auto.
        -- rewrite Har. apply in_or_app. right. now left.
        -- now rewrite Hpl.
      * apply anywhere_record_of.
    + now apply dict_set_NoDup.
Qed.

Lemma ledger_add_placed (st : RunState) (k : Z) :
  ledger st -> ledger (add_placed st k).
Proof.
  intros [Hs He Hk]. constructor; auto.
Qed.

Lemma import_fallback_ledger (st st' : RunState) (c : Container) :
  ledger st -> In c cs -> import_fallback_step st c = Ok st' -> ledger st'.
Proof.
  intros Hl Hc. unfold import_fallback_step.
  destruct (dict_mem String.eqb (rs_map st) (unit_number c)).
  - intros H. inversion H. now subst.
  - destruct (_place_container_anywhere c st) as [[st1 b]|e] eqn:E;
      [|discriminate].
    cbn [bind]. intros H. inversion H; subst; clear H.
    pose proof (@anywhere_ledger st st1 c b Hl Hc E).
    destruct b; auto using ledger_add_placed.
Qed.

Lemma export_fallback_ledger (st st' : RunState) (c : Container) :
  ledger st -> In c cs -> export_fallback_step st c = Ok st' -> ledger st'.
Proof.
  intros Hl Hc. unfold export_fallback_step.
  destruct (_place_container_anywhere c st) as [[st1 b]|e] eqn:E;
    [|discriminate].
  cbn [bind]. intros H. inversion H; subst; clear H.
  pose proof (@anywhere_ledger st st1 c b Hl Hc E).
  destruct b; auto using ledger_add_placed.
Qed.

Lemma import_record_of (c : Container) (n code : string) :
  record_of c n code (import_record c code n (transporter c)).
Proof.
  unfold record_of. simpl. repeat split; auto.
Qed.

Lemma import_attempt_ledger (n : string) (t : option string)
    (g : list Container) (pm : PlacementMap) (ar ar' : Areas)
    (temp : PlacementMap) (cnt : Z) :
  (forall c, In c g -> In c cs /\ transporter c = t) ->
  yard_steps areas0 ar ->
  import_attempt n t g pm ar = Ok (ar', temp, cnt) ->
  yard_steps areas0 ar' /\ Forall justified temp.
Proof.
  intros Hg Hs Hat. unfold import_attempt in Hat.
  apply (@foldM_preserves Container (Areas * PlacementMap * Z)
           (fun acc => yard_steps areas0 (fst (fst acc))
                       /\ Forall justified (snd (fst acc)))
           (import_attempt_step n t pm) g) with (s' := (ar', temp, cnt))
    in Hat; auto.
  intros [[ar1 temp1] cnt1] c acc' Hc [Hs1 Ht1]. cbn [fst snd] in *.
  unfold import_attempt_step.
  destruct (dict_mem String.eqb pm (unit_number c)).
  { intros H. inversion H; subst. auto. }
  destruct (place_in_area ar1 n c) as [[ar2 code]|e] eqn:Epl; [|discriminate].
  cbn [bind].
  destruct (@place_in_area_ledger ar1 ar2 n c code Hs1 Epl) as [Hs2 Hcode].
  destruct (Hg c Hc) as [Hin Htr].
  destruct (truthy code) as [s|] eqn:Et; intros H; inversion H; subst;
    cbn [fst snd]; split; auto.
  apply justified_write with (n := n) (code := s); auto.
  apply import_record_of.
Qed.

Lemma import_try_areas_ledger (t : option string) (g : list Container)
    (suitable : list string) :
  (forall c, In c g -> In c cs /\ transporter c = t) ->
  forall (st st' : RunState) (b : bool),
    ledger st -> import_try_areas suitable t g st = Ok (st', b) ->
    ledger st'.
Proof.
  intros Hg. induction suitable as [|n rest IH]; intros st st' b Hl;
    cbn [import_try_areas].
  - intros H. inversion H. now subst.
  - destruct (import_attempt n t g (rs_map st) (rs_areas st))
      as [[[ar' temp] cnt]|e] eqn:Eat; [|discriminate].
    cbn [bind].
    destruct (@import_attempt_ledger n t g (rs_map st) (rs_areas st) ar' temp
                cnt Hg (led_steps Hl) Eat) as [Hs' Ht].
    destruct (reaches_threshold cnt g).
    + destruct (usage_add (rs_usage st) n cnt) as [usage'|e]; [|discriminate].
      cbn [bind]. intros H. inversion H; subst; clear H.
      constructor; cbn [rs_areas rs_map]; auto.
      * apply dict_update_Forall; auto. apply Hl.
      * apply dict_update_NoDup. apply Hl.
    + apply IH. constructor; cbn [rs_areas rs_map]; auto; apply Hl.
Qed.

Lemma import_group_ledger (st st' : RunState) (t : option string)
    (g : list Container) :
  (forall c, In c g -> In c cs /\ transporter c = t) ->
  ledger st -> import_group st (t, g) = Ok st' -> ledger st'.
Proof.
  intros Hg Hl. unfold import_group.
  destruct (import_try_areas (import_suitable_areas (rs_areas st) g) t g st)
    as [[st1 placed]|e] eqn:Etry; [|discriminate].
  cbn [bind].
  pose proof (@import_try_areas_ledger t g _ Hg st st1 placed Hl Etry) as Hl1.
  destruct placed.
  - intros H. inversion H. now subst.
  - apply (foldM_preserves ledger); auto.
    intros s c s' Hc Hs. apply import_fallback_ledger; auto. now apply Hg.
Qed.

Lemma export_record_of (c : Container) (n code : string) :
  record_of c n code (export_record c code n (port c) (weight_class c)).
Proof.
  unfold record_of. simpl. repeat split; auto.
Qed.

Lemma export_drain_ledger (n : string) (p : option string) (wc : Z)
    (st st' : RunState) (kept kept' : list Container) (c : Container) :
  In c cs -> port c = p -> weight_class c = wc ->
  ledger st ->
  export_drain_step n p wc (st, kept) c = Ok (st', kept') ->
  ledger st' /\ (kept' = kept \/ kept' = kept ++ [c]).
Proof.
  intros Hc Hp Hwc Hl. unfold export_drain_step.
  destruct (dict_mem String.eqb (rs_map st) (unit_number c)).
  { intros H. inversion H; subst. auto. }
  destruct (place_in_area (rs_areas st) n c) as [[ar2 code]|e] eqn:Epl;
    [|discriminate].
  cbn [bind].
  destruct (@place_in_area_ledger (rs_areas st) ar2 n c code (led_steps Hl)
              Epl) as [Hs2 Hcode].
  destruct (truthy code) as [s|] eqn:Et.
  - destruct (usage_add (rs_usage st) n 1) as [usage'|e]; [|discriminate].
    cbn [bind]. intros H. inversion H; subst; clear H. split; auto.
    constructor; cbn [rs_areas rs_map]; auto.
    + apply justified_write with (n := n) (code := s); auto; try apply Hl.
      apply export_record_of.
    + apply dict_set_NoDup, Hl.
  - intros H. inversion H; subst; clear H. split; auto.
    constructor; cbn [rs_areas rs_map]; auto; apply Hl.
Qed.

Lemma export_try_areas_ledger (p : option string) (wc : Z)
    (suitable : list string) :
  forall (cc : list Container) (st st' : RunState),
    (forall c, In c cc -> In c cs /\ port c = p /\ weight_class c = wc) ->
    ledger st -> export_try_areas suitable p wc cc st = Ok st' -> ledger st'.
Proof.
  induction suitable as [|n rest IH]; intros cc st st' Hcc Hl;
    cbn [export_try_areas].
  - intros H. inversion H. now subst.
  - destruct cc as [|c0 cc0]; [intros H; inversion H; now subst|].
    set (cc := c0 :: cc0) in *.
    destruct (foldM (export_drain_step n p wc) cc (st, []))
      as [[st1 kept1]|e] eqn:Efold; [|discriminate].
    cbn [bind].
    apply (@foldM_preserves Container (RunState * list Container)
             (fun acc => ledger (fst acc)
                         /\ forall c, In c (snd acc) -> In c cc)
             (export_drain_step n p wc) cc) with (s' := (st1, kept1))
      in Efold.
    + destruct Efold as [Hl1 Hk1]. cbn [fst snd] in *.
      apply IH; auto.
    + intros [s kept] c [s' kept'] Hc [Hs Hk] Hstep. cbn [fst snd] in *.
      destruct (Hcc c Hc) as (H1 & H2 & H3).
      destruct (@export_drain_ledger n p wc s s' kept kept' c H1 H2 H3 Hs
                  Hstep) as [Hs' Hk'].
      split; auto. intros c1 Hc1. destruct Hk' as [->| ->]; auto.
      apply in_app_or in Hc1. destruct Hc1 as [|[<-|[]]]; auto.
    + cbn [fst snd]. split; auto. intros c [].
Qed.
End Ledger.

Lemma compile_result_fields (now : string) (areas : Areas)
    (cs : list Container) (pm : PlacementMap) (usage : Usage) (op : string)
    (r : LayoutResult) :
  _compile_result now areas cs pm usage op = Ok r ->
  placement_map r = pm
  /\ total_placed r = Z.of_nat (List.length pm)
  /\ total_containers r = Z.of_nat (List.length cs)
  /\ efficiency r
     = (inject_Z (Z.of_nat (List.length pm))
        / inject_Z (Z.of_nat (List.length cs)) * 100)%Q
  /\ cs <> [].
Proof.
  unfold _compile_result. intros H.
  repeat match type of H with
         | bind (py_div _ _) _ = Ok _ => fail 1
         | bind ?m _ = Ok _ =>
             destruct m eqn:?; cbn [bind] in H; [|discriminate]
         end.
  unfold py_div in H.
  destruct (Z.eqb_spec (Z.of_nat (List.length cs)) 0) as [E|E];
    [discriminate|].
  cbn [bind] in H. inversion H; subst; clear H. cbn.
  repeat split; auto. intros ->. now apply E.
Qed.

(** What the result of a run says about its map. *)
Definition run_ledger (rnd : Oracle) (k : nat) (areas : Areas)
    (cs : list Container) (cfg : dict string (list Z)) (out : RunOut)
  : Prop :=
  out_containers out = fst (assign_weight_classes rnd k cs)
  /\ yard_steps (set_area_weight_classes areas cfg) (out_areas out)
  /\ Forall (justified (fst (assign_weight_classes rnd k cs))
                       (set_area_weight_classes areas cfg))
            (out_map out)
  /\ NoDup (map fst (out_map out))
  /\ total_placed (out_result out) = Z.of_nat (List.length (out_map out))
  /\ total_containers (out_result out) = Z.of_nat (List.length cs)
  /\ efficiency (out_result out)
     = (inject_Z (Z.of_nat (List.length (out_map out)))
        / inject_Z (Z.of_nat (List.length cs)) * 100)%Q
  /\ cs <> [].

Lemma ledger_start (cs1 : list Container) (areas1 : Areas) :
  ledger cs1 areas1 (mkRunState areas1 [] (initial_usage areas1) 0).
Proof.
  constructor; cbn [rs_areas rs_map]; constructor.
Qed.

Lemma import_run_ledger (now : string) (rnd : Oracle) (k : nat)
    (areas : Areas) (cs : list Container) (cfg : dict string (list Z))
    (out : RunOut) :
  optimize_import_layout now rnd k areas cs cfg = Ok out ->
  run_ledger rnd k areas cs cfg out.
Proof.
  unfold optimize_import_layout, run_ledger, out_map.
  pose proof (assign_weight_classes_length rnd cs k) as Hlen.
  destruct (assign_weight_classes rnd k cs) as [cs1 k1]. cbn [fst snd] in *.
  set (areas1 := set_area_weight_classes areas cfg).
  destruct (foldM import_group (transporter_groups cs1) _) as [st|e] eqn:Ef;
    [|discriminate].
  cbn [bind].
  destruct (_compile_result now (rs_areas st) cs1 (rs_map st) (rs_usage st)
                            "IMPORT") as [r|e] eqn:Ec; [|discriminate].
  cbn [bind]. intros H. inversion H; subst; clear H.
  cbn [out_containers out_areas out_result].
  apply (@foldM_preserves _ _ (ledger cs1 areas1) import_group
           (transporter_groups cs1)) in Ef.
  - destruct (compile_result_fields _ _ _ _ _ _ Ec)
      as (Hpm & Htp & Htc & Heff & Hne).
    rewrite Hpm, Htp, Htc, Heff, Hlen.
    destruct Ef as [Hs He Hk]. repeat split; auto.
    intros ->. destruct cs1; [now apply Hne | discriminate].
  - intros s [t g] s' Hin Hl Hstep.
    apply (@import_group_ledger cs1 areas1 s s' t g); auto.
    intros c Hc. split.
    + now apply transporter_groups_within with (t := t) (g := g).
    + now apply transporter_groups_keyed with (cs := cs1) (g := g).
  - apply ledger_start.
Qed.

Lemma export_run_ledger (now : string) (rnd : Oracle) (k : nat)
    (areas : Areas) (cs : list Container) (cfg : dict string (list Z))
    (out : RunOut) :
  optimize_export_layout now rnd k areas cs cfg = Ok out ->
  run_ledger rnd k areas cs cfg out.
Proof.
  unfold optimize_export_layout, run_ledger, out_map.
  pose proof (assign_weight_classes_length rnd cs k) as Hlen.
  destruct (assign_weight_classes rnd k cs) as [cs1 k1]. cbn [fst snd] in *.
  set (areas1 := set_area_weight_classes areas cfg).
  destruct (foldM export_port_group (port_groups cs1) _) as [st1|e] eqn:Ef;
    [|discriminate].
  cbn [bind].
  destruct (foldM export_fallback_step _ st1) as [st|e] eqn:Eb;
    [|discriminate].
  cbn [bind].
  destruct (_compile_result now (rs_areas st) cs1 (rs_map st) (rs_usage st)
                            "EXPORT") as [r|e] eqn:Ec; [|discriminate].
  cbn [bind]. intros H. inversion H; subst; clear H.
  cbn [out_containers out_areas out_result].
  apply (@foldM_preserves _ _ (ledger cs1 areas1) export_port_group
           (port_groups cs1)) in Ef.
  - apply (@foldM_preserves _ _ (ledger cs1 areas1) export_fallback_step
             (remaining_containers cs1 (rs_map st1))) in Eb; auto.
    + destruct (compile_result_fields _ _ _ _ _ _ Ec)
        as (Hpm & Htp & Htc & Heff & Hne).
      rewrite Hpm, Htp, Htc, Heff, Hlen.
      destruct Eb as [Hs He Hk]. repeat split; auto.
      intros ->. destruct cs1; [now apply Hne | discriminate].
    + intros s c s' Hc Hl. apply export_fallback_ledger; auto.
      now apply remaining_within in Hc.
  - intros s [p wg] s' Hin Hl. unfold export_port_group.
    apply (foldM_preserves (ledger cs1 areas1)); auto.
    intros s1 [wc cc] s2 Hin1 Hl1. unfold export_weight_group.
    apply export_try_areas_ledger; auto.
    intros c Hc. split.
    + now apply port_groups_within with (p := p) (wg := wg) (wc := wc)
                                        (cc := cc).
    + now apply port_groups_keyed with (cs := cs1) (wg := wg) (cc := cc).
  - apply ledger_start.
Qed.

(** ** Yards as the constructors build them *)

(** Every slot carries the name under which its zone is registered. *)
Definition named (ar : Areas) : Prop :=
  Forall (fun kp => Forall (fun p => area p = fst kp) (snd kp)) (skeleton ar).

(** Every slot has the length category and the reefer flag that
    [YardPosition.__init__] derives from its zone and row. *)
Definition built (ar : Areas) : Prop :=
  Forall (fun kp =>
            Forall (fun p =>
                      container_length p = _get_container_length (row p)
                      /\ is_reefer_position p
                         = _check_reefer_position (area p) (row p))
                   (snd kp))
         (skeleton ar).

Lemma initialize_positions_built (zone : string) (height : Z) :
  Forall (fun p => area p = zone
                   /\ container_length p = _get_container_length (row p)
                   /\ is_reefer_position p
                      = _check_reefer_position (area p) (row p))
         (_initialize_positions zone height).
Proof.
  unfold _initialize_positions. apply Forall_forall. intros p Hp.
  apply in_flat_map in Hp. destruct Hp as (r & _ & Hp).
  apply in_flat_map in Hp. destruct Hp as (col & _ & Hp).
  destruct (r mod 4 =? 0); simpl in Hp; [contradiction|].
  destruct Hp as [<-|[]]. simpl. auto.
Qed.

Lemma initialize_areas_named : named _initialize_areas.
Proof.
  unfold named, skeleton, _initialize_areas, YardArea_init.
  cbn [map fst snd positions].
  repeat (apply Forall_cons;
          [eapply Forall_impl; [|apply initialize_positions_built];
           intros p Hp; apply Hp|]).
  apply Forall_nil.
Qed.

Lemma initialize_areas_built : built _initialize_areas.
Proof.
  unfold built, skeleton, _initialize_areas, YardArea_init.
  cbn [map fst snd positions].
  repeat (apply Forall_cons;
          [eapply Forall_impl; [|apply initialize_positions_built];
           intros p Hp; apply Hp|]).
  apply Forall_nil.
Qed.

Lemma Forall2_in_right {A B} (R : A -> B -> Prop) (l : list A) (l' : list B)
    (y : B) :
  Forall2 R l l' -> In y l' -> exists x, In x l /\ R x y.
Proof.
  induction 1 as [|x0 y0 l l' H0 _ IH]; intros Hin; [contradiction|].
  destruct Hin as [<-|Hin].
  - exists x0. split; auto. now left.
  - destruct (IH Hin) as (x & Hx & HR). exists x. split; auto. now right.
Qed.

Lemma skeleton_in (ar : Areas) (n : string) (a : YardArea) :
  In (n, a) ar -> In (n, positions a) (skeleton ar).
Proof.
  intros H. unfold skeleton. apply in_map_iff. now exists (n, a).
Qed.

(** The code names a slot of zone [n] of the configured yard that suits
    the container, with a tier within the slot's stack height. *)
Definition code_names_slot (areas1 : Areas) (c : Container) (n code : string)
  : Prop :=
  exists a0 p0 tier,
    In (n, a0) areas1 /\ In p0 (positions a0)
    /\ In (weight_class c) (allowed_weight_classes a0)
    /\ container_length p0 = Some (size c)
    /\ (category c = "Reefer" -> is_reefer_position p0 = true)
    /\ 1 <= tier <= max_tiers p0
    /\ code = (n ++ str_of_Z (row p0) ++ column p0 ++ str_of_Z tier)%string.

Lemma placed_at_names_slot (cs : list Container) (areas1 : Areas)
    (c : Container) (n code : string) :
  yard_ok areas1 -> named areas1 ->
  placed_at areas1 c n code -> code_names_slot areas1 c n code.
Proof.
  intros Hok Hnamed (ar & a & Hs & Hin & Hcode).
  pose proof (yard_ok_steps Hs Hok) as Hok'.
  destruct (@Forall2_in_right _ _ _ areas1 ar (n, a) (yard_steps_grows Hs) Hin)
    as ([n0 a0] & Hin0 & Hn & (_ & Hawc & _ & Hps)).
  cbn [fst snd] in *. subst n0.
  destruct (area_place_outcome a c) as [|pre post p Hsplit _ Hacc];
    cbn [snd] in Hcode; [discriminate|].
  inversion Hcode; subst code; clear Hcode.
  assert (Hp : In p (positions a)).
  { rewrite Hsplit. apply in_or_app. right. now left. }
  destruct (@Forall2_in_right _ _ _ _ _ p Hps Hp)
    as (p0 & Hp0 & (Ha & Hr & Hc & Hm & Hl & Hf & _)).
  unfold yard_ok, area_ok in Hok'. rewrite Forall_forall in Hok'.
  specialize (Hok' _ Hin). cbn [snd] in Hok'. rewrite Forall_forall in Hok'.
  destruct (Hok' p Hp) as (H0 & Hsum & _).
  destruct Hacc as (Hlen & Hpos & Hwc & Hreef).
  unfold named in Hnamed. rewrite Forall_forall in Hnamed.
  specialize (Hnamed _ (skeleton_in _ _ _ Hin0)). cbn [fst snd] in Hnamed.
  rewrite Forall_forall in Hnamed. specialize (Hnamed p0 Hp0).
  exists a0, p0, (Z.of_nat (List.length (containers p)) + 1).
  repeat split; auto; try congruence; try lia.
  - intros Hcat. rewrite <- (Hreef Hcat). congruence.
  - rewrite position_code_stacked. congruence.
Qed.

(** An entry of the result map describes a container of the batch and
    names a slot that suits it. *)
Definition entry_describes (cs1 : list Container) (areas1 : Areas)
    (ur : string * Placement) : Prop :=
  exists c,
    In c cs1 /\ fst ur = unit_number c
    /\ p_weight_class (snd ur) = weight_class c
    /\ p_size (snd ur) = size c
    /\ p_category (snd ur) = category c
    /\ p_iso_type (snd ur) = iso_type c
    /\ (p_transporter (snd ur) = None
        \/ p_transporter (snd ur) = Some (transporter c))
    /\ (p_port (snd ur) = None \/ p_port (snd ur) = Some (port c))
    /\ code_names_slot areas1 c (p_area (snd ur)) (p_position (snd ur)).

Lemma justified_describes (cs1 : list Container) (areas1 : Areas)
    (ur : string * Placement) :
  yard_ok areas1 -> named areas1 ->
  justified cs1 areas1 ur -> entry_describes cs1 areas1 ur.
Proof.
  intros Hok Hn (c & n & code & Hc & Hu & Hp & Hr).
  destruct Hr as (H1 & H2 & H3 & H4 & H5 & H6 & H7 & H8).
  exists c. repeat split; auto. rewrite H1, H2.
  now apply (@placed_at_names_slot cs1).
Qed.

Lemma configured_named (ar : Areas) (cfg : dict string (list Z)) :
  named ar -> named (set_area_weight_classes ar cfg).
Proof.
  unfold named. now rewrite set_area_weight_classes_skeleton.
Qed.

Lemma configured_built (ar : Areas) (cfg : dict string (list Z)) :
  built ar -> built (set_area_weight_classes ar cfg).
Proof.
  unfold built. now rewrite set_area_weight_classes_skeleton.
Qed.

(** X5.  On a yard as the constructors build it, with nothing stacked,
    either strategy returns on a non-empty batch with a map in which every
    entry is keyed by the unit number of a container of the batch, copies
    that container's weight class, size, category and ISO code (and its
    carrier or port where the record has one), and whose position code is
    zone name, row, column and tier of a slot of the recorded zone: a slot
    of the container's length, reefer-eligible if the container is a
    Reefer, in a zone that permits its weight class, with the tier between
    1 and the slot's stack height. *)
Theorem map_entries_describe_placements (now : string) (rnd : Oracle)
    (k : nat) (areas : Areas) (cs : list Container)
    (cfg : dict string (list Z)) :
  fresh_yard areas -> named areas -> stocked areas -> cs <> [] ->
  (exists out,
      optimize_import_layout now rnd k areas cs cfg = Ok out
      /\ Forall (entry_describes (out_containers out)
                                 (set_area_weight_classes areas cfg))
                (out_map out))
  /\ (exists out,
         optimize_export_layout now rnd k areas cs cfg = Ok out
         /\ Forall (entry_describes (out_containers out)
                                    (set_area_weight_classes areas cfg))
                   (out_map out)).
Proof.
  intros Hfresh Hnamed Hst Hcs.
  assert (Hok : yard_ok (set_area_weight_classes areas cfg))
    by now apply fresh_yard_ok, configured_fresh.
  assert (Hn : named (set_area_weight_classes areas cfg))
    by now apply configured_named.
  split.
  - destruct (@import_run now rnd k areas cs cfg Hcs Hst) as (out & Hrun & _).
    exists out. split; auto.
    destruct (import_run_ledger _ _ _ _ _ _ Hrun) as (Hc & _ & He & _).
    rewrite Hc. revert He. apply Forall_impl.
    intros ur. now apply justified_describes.
  - destruct (@export_run now rnd k areas cs cfg Hcs Hst) as (out & Hrun & _).
    exists out. split; auto.
    destruct (export_run_ledger _ _ _ _ _ _ Hrun) as (Hc & _ & He & _).
    rewrite Hc. revert He. apply Forall_impl.
    intros ur. now apply justified_describes.
Qed.

Lemma map_entries_describe_placements_witness :
  exists out,
    optimize_export_layout "noon" no_random 0 _initialize_areas
      (fst (build_containers no_random 0 weighed_rows)) [] = Ok out
    /\ Forall (entry_describes (out_containers out)
                               (set_area_weight_classes _initialize_areas []))
              (out_map out).
Proof.
  apply (@map_entries_describe_placements "noon" no_random 0
           _initialize_areas (fst (build_containers no_random 0 weighed_rows))
           []).
  - apply initialize_areas_fresh.
  - apply initialize_areas_named.
  - apply initialize_areas_stocked.
  - discriminate.
Defined.

(** ** Counts and percentages of a result *)

Lemma percent_range (a b : Z) :
  0 <= a <= b -> 0 < b ->
  (0 <= inject_Z a / inject_Z b * 100)%Q
  /\ (inject_Z a / inject_Z b * 100 <= 100)%Q.
Proof.
  intros [Ha Hab] Hb.
  assert (Hb' : (0 < inject_Z b)%Q).
  { change (inject_Z 0 < inject_Z b)%Q. rewrite <- Zlt_Qlt. exact Hb. }
  assert (H0 : (0 <= inject_Z a / inject_Z b)%Q).
  { apply Qle_shift_div_l; auto. rewrite Qmult_0_l.
    change (inject_Z 0 <= inject_Z a)%Q. rewrite <- Zle_Qle. exact Ha. }
  assert (H1 : (inject_Z a / inject_Z b <= 1)%Q).
  { apply Qle_shift_div_r; auto. rewrite Qmult_1_l.
    rewrite <- Zle_Qle. exact Hab. }
  split; lra.
Qed.

Lemma justified_keys_within (cs1 : list Container) (areas1 : Areas)
    (pm : PlacementMap) :
  Forall (justified cs1 areas1) pm ->
  incl (map fst pm) (map unit_number cs1).
Proof.
  intros Hall u Hu. apply in_map_iff in Hu. destruct Hu as (ur & <- & Hin).
  rewrite Forall_forall in Hall.
  destruct (Hall ur Hin) as (c & _ & _ & Hc & -> & _).
  now apply in_map.
Qed.

(** The counts of a result and its efficiency stay within the batch. *)
Definition within_batch (cs : list Container) (out : RunOut) : Prop :=
  NoDup (map fst (out_map out))
  /\ incl (map fst (out_map out)) (map unit_number cs)
  /\ total_placed (out_result out) = Z.of_nat (List.length (out_map out))
  /\ total_containers (out_result out) = Z.of_nat (List.length cs)
  /\ 0 <= total_placed (out_result out)
          <= total_containers (out_result out)
  /\ (0 <= efficiency (out_result out))%Q
  /\ (efficiency (out_result out) <= 100)%Q.

Lemma run_ledger_within_batch (rnd : Oracle) (k : nat) (areas : Areas)
    (cs : list Container) (cfg : dict string (list Z)) (out : RunOut) :
  run_ledger rnd k areas cs cfg out -> within_batch cs out.
Proof.
  intros (Hc & _ & He & Hnd & Htp & Htc & Heff & Hne).
  pose proof (justified_keys_within He) as Hincl.
  rewrite assign_weight_classes_units in Hincl.
  pose proof (NoDup_incl_length Hnd Hincl) as Hlen.
  rewrite !length_map in Hlen.
  assert (Hpos : 0 < Z.of_nat (List.length cs)).
  { destruct cs; [congruence | simpl; lia]. }
  destruct (@percent_range (Z.of_nat (List.length (out_map out)))
              (Z.of_nat (List.length cs))) as [E1 E2]; try lia.
  unfold within_batch. rewrite Htp, Htc, Heff.
  repeat split; auto; lia.
Qed.

(** X6.  On a non-empty batch either strategy returns a map whose keys
    are pairwise distinct unit numbers of the batch; the reported number
    placed is the number of map entries and is at most the reported number
    of containers, which is the length of the batch; and the efficiency
    lies between 0 and 100. *)
Theorem placed_count_within_batch (now : string) (rnd : Oracle) (k : nat)
    (areas : Areas) (cs : list Container) (cfg : dict string (list Z)) :
  cs <> [] -> stocked areas ->
  (exists out, optimize_import_layout now rnd k areas cs cfg = Ok out
               /\ within_batch cs out)
  /\ (exists out, optimize_export_layout now rnd k areas cs cfg = Ok out
                  /\ within_batch cs out).
Proof.
  intros Hcs Hst. split.
  - destruct (@import_run now rnd k areas cs cfg Hcs Hst) as (out & Hrun & _).
    exists out. split; auto.
    apply (@run_ledger_within_batch rnd k areas cs cfg out).
    now apply (@import_run_ledger now).
  - destruct (@export_run now rnd k areas cs cfg Hcs Hst) as (out & Hrun & _).
    exists out. split; auto.
    apply (@run_ledger_within_batch rnd k areas cs cfg out).
    now apply (@export_run_ledger now).
Qed.

Lemma placed_count_within_batch_witness :
  (exists out,
      optimize_import_layout "noon" no_random 0 _initialize_areas
                             stranded_batch only_Q_permit_1 = Ok out
      /\ within_batch stranded_batch out)
  /\ (exists out,
         optimize_export_layout "noon" no_random 0 _initialize_areas
                                stranded_batch only_Q_permit_1 = Ok out
         /\ within_batch stranded_batch out).
Proof.
  apply (@placed_count_within_batch "noon" no_random 0 _initialize_areas
           stranded_batch only_Q_permit_1).
  - discriminate.
  - apply initialize_areas_stocked.
Defined.

(** ** Where Reefer containers end up *)

Lemma reefer_position_zone (zone : string) (r : Z) :
  _check_reefer_position zone r = true ->
  (zone = "M2" \/ zone = "Q1" \/ zone = "Q2")
  /\ (_get_container_length r = Some 6 -> zone = "M2").
Proof.
  unfold _check_reefer_position.
  destruct (String.eqb_spec zone "M2") as [->|_]; [auto|].
  destruct (String.eqb_spec zone "Q1") as [->|_]; cbn [andb].
  - destruct (Z_in r [2; 6; 10]) eqn:E.
    + intros _. split; auto. apply Z_in_iff in E. simpl in E.
      destruct E as [<-|[<-|[<-|[]]]]; discriminate.
    + destruct ("Q1" =? "Q2")%string eqn:E2; [discriminate E2|].
      cbn [andb]. discriminate.
  - destruct (String.eqb_spec zone "Q2") as [->|_]; cbn [andb];
      [|discriminate].
    destruct (Z_in r [2; 6; 10; 12]) eqn:E; [|discriminate].
    intros _. split; auto. apply Z_in_iff in E. simpl in E.
    destruct E as [<-|[<-|[<-|[<-|[]]]]]; discriminate.
Qed.

(** Reefer entries are recorded in M2, Q1 or Q2, and those of size 6 in
    M2. *)
Definition reefers_in_reefer_zones (pm : PlacementMap) : Prop :=
  forall u r,
    In (u, r) pm -> p_category r = "Reefer" ->
    (p_area r = "M2" \/ p_area r = "Q1" \/ p_area r = "Q2")
    /\ (p_size r = 6 -> p_area r = "M2").

Lemma described_reefers (cs1 : list Container) (areas1 : Areas)
    (pm : PlacementMap) :
  named areas1 -> built areas1 ->
  Forall (entry_describes cs1 areas1) pm -> reefers_in_reefer_zones pm.
Proof.
  intros Hnamed Hbuilt Hall u r Hin Hcat.
  rewrite Forall_forall in Hall.
  destruct (Hall _ Hin)
    as (c & _ & _ & _ & Hsz & Hc & _ & _ & _
        & a0 & p0 & tier & Ha0 & Hp0 & _ & Hlen & Hreef & _).
  cbn [fst snd] in *.
  unfold named in Hnamed. rewrite Forall_forall in Hnamed.
  specialize (Hnamed _ (skeleton_in _ _ _ Ha0)). cbn [fst snd] in Hnamed.
  rewrite Forall_forall in Hnamed. specialize (Hnamed p0 Hp0).
  unfold built in Hbuilt. rewrite Forall_forall in Hbuilt.
  specialize (Hbuilt _ (skeleton_in _ _ _ Ha0)). cbn [fst snd] in Hbuilt.
  rewrite Forall_forall in Hbuilt. destruct (Hbuilt p0 Hp0) as [Hl Hf].
  rewrite Hnamed in Hf.
  assert (Hr : _check_reefer_position (p_area r) (row p0) = true).
  { rewrite <- Hf. apply Hreef. congruence. }
  destruct (reefer_position_zone _ _ Hr) as [Hz H6].
  split; auto. intros E. apply H6. rewrite <- Hl, Hlen. congruence.
Qed.

(** X7.  On a yard as the constructors build it, with nothing stacked,
    either strategy records a Reefer container only in zone M2, Q1 or Q2,
    and a Reefer container of size 6 only in M2: the reefer rows of Q1 and
    Q2 are even rows, which take size 12 only. *)
Theorem reefers_recorded_in_reefer_zones (now : string) (rnd : Oracle)
    (k : nat) (areas : Areas) (cs : list Container)
    (cfg : dict string (list Z)) :
  fresh_yard areas -> named areas -> built areas -> stocked areas ->
  cs <> [] ->
  (exists out, optimize_import_layout now rnd k areas cs cfg = Ok out
               /\ reefers_in_reefer_zones (out_map out))
  /\ (exists out, optimize_export_layout now rnd k areas cs cfg = Ok out
                  /\ reefers_in_reefer_zones (out_map out)).
Proof.
  intros Hfresh Hnamed Hbuilt Hst Hcs.
  assert (Hok : yard_ok (set_area_weight_classes areas cfg))
    by now apply fresh_yard_ok, configured_fresh.
  assert (Hn : named (set_area_weight_classes areas cfg))
    by now apply configured_named.
  assert (Hb : built (set_area_weight_classes areas cfg))
    by now apply configured_built.
  split.
  - destruct (@import_run now rnd k areas cs cfg Hcs Hst) as (out & Hrun & _).
    exists out. split; auto.
    destruct (import_run_ledger _ _ _ _ _ _ Hrun) as (Hc & _ & He & _).
    apply (@described_reefers (out_containers out)
             (set_area_weight_classes areas cfg)); auto.
    rewrite Hc. revert He. apply Forall_impl.
    intros ur. now apply justified_describes.
  - destruct (@export_run now rnd k areas cs cfg Hcs Hst) as (out & Hrun & _).
    exists out. split; auto.
    destruct (export_run_ledger _ _ _ _ _ _ Hrun) as (Hc & _ & He & _).
    apply (@described_reefers (out_containers out)
             (set_area_weight_classes areas cfg)); auto.
    rewrite Hc. revert He. apply Forall_impl.
    intros ur. now apply justified_describes.
Qed.

Lemma reefers_recorded_in_reefer_zones_witness :
  (exists out,
      optimize_import_layout "noon" no_random 0 _initialize_areas
                             mixed_pair [] = Ok out
      /\ reefers_in_reefer_zones (out_map out))
  /\ (exists out,
         optimize_export_layout "noon" no_random 0 _initialize_areas
                                mixed_pair [] = Ok out
         /\ reefers_in_reefer_zones (out_map out)).
Proof.
  apply (@reefers_recorded_in_reefer_zones "noon" no_random 0
           _initialize_areas mixed_pair []).
  - apply initialize_areas_fresh.
  - apply initialize_areas_named.
  - apply initialize_areas_built.
  - apply initialize_areas_stocked.
  - discriminate.
Defined.

(** ** The grouping metric *)

Lemma count_grouped_pairs_cons (op : string) (r1 r2 : Placement)
    (l : list Placement) :
  count_grouped_pairs op (r1 :: r2 :: l)
  = (hit <- pair_grouped op r1 r2 ;;
     n <- count_grouped_pairs op (r2 :: l) ;;
     Ok (if hit : bool then n + 1 else n)).
Proof. reflexivity. Qed.

Lemma count_pairs_range (op : string) (l : list Placement) (k : Z) :
  count_grouped_pairs op l = Ok k ->
  0 <= k <= Z.max 0 (Z.of_nat (List.length l) - 1).
Proof.
  revert k. induction l as [|r1 l IH]; intros k H.
  - simpl in H. inversion H. simpl. lia.
  - destruct l as [|r2 l'].
    + simpl in H. inversion H. simpl. lia.
    + rewrite count_grouped_pairs_cons in H.
      destruct (pair_grouped op r1 r2) as [hit|e]; cbn [bind] in H;
        [|discriminate].
      destruct (count_grouped_pairs op (r2 :: l')) as [n|e] eqn:En;
        cbn [bind] in H; [|discriminate].
      inversion H; subst; clear H.
      specialize (IH n eq_refl). cbn [List.length] in *.
      destruct hit; lia.
Qed.

(** X8.  Whenever [_calculate_grouping_efficiency] returns, for either
    operation type and any map, the value lies between 0 and 100; it is 0
    for a map with fewer than two entries. *)
Theorem grouping_efficiency_in_range (pm : PlacementMap) (op : string)
    (q : Q) :
  _calculate_grouping_efficiency pm op = Ok q ->
  (0 <= q)%Q /\ (q <= 100)%Q
  /\ ((List.length pm <= 1)%nat -> q = 0%Q).
Proof.
  unfold _calculate_grouping_efficiency. destruct pm as [|ur pm].
  { intros H. inversion H. repeat split; auto; lra. }
  destruct (count_grouped_pairs op (dict_values (ur :: pm))) as [k|e] eqn:Ek;
    cbn [bind]; [|discriminate].
  apply count_pairs_range in Ek.
  unfold dict_values in *. rewrite length_map in *.
  destruct (Z.ltb_spec 0 (Z.of_nat (List.length (ur :: pm)) - 1)) as [Hl|Hl].
  - rewrite py_div_nonzero by lia. cbn [bind]. intros H. inversion H.
    destruct (@percent_range k (Z.of_nat (List.length (ur :: pm)) - 1))
      as [E1 E2]; try lia.
    repeat split; auto. intros Hlen. cbn [List.length] in *. lia.
  - intros H. inversion H. repeat split; auto; lra.
Qed.

Definition carrier_pair : PlacementMap :=
  [ ("A1", import_record (hd (heavy_box "A1") mixed_pair) "M21A1" "M2"
             (Some "T1"));
    ("A2", import_record (hd (heavy_box "A2") (tl mixed_pair)) "M21A2" "M2"
             (Some "T1")) ].

Lemma grouping_efficiency_in_range_witness :
  (0 <= 100)%Q /\ (100 <= 100)%Q
  /\ ((List.length carrier_pair <= 1)%nat -> 100%Q = 0%Q).
Proof.
  apply (@grouping_efficiency_in_range carrier_pair "IMPORT" 100%Q).
  reflexivity.
Defined.

(** The records that lack the field the metric reads. *)
Definition lacks_field (op : string) (r : Placement) : Prop :=
  if String.eqb op "IMPORT" then p_transporter r = None
  else p_port r = None.

Lemma pair_grouped_raise (op : string) (r1 r2 : Placement) (e : Exn) :
  pair_grouped op r1 r2 = Raise e ->
  e = KeyError /\ (lacks_field op r1 \/ lacks_field op r2).
Proof.
  unfold pair_grouped, lacks_field.
  destruct (String.eqb op "IMPORT").
  - destruct (p_transporter r1); cbn [get_field bind].
    + destruct (p_transporter r2); cbn [get_field bind].
      * discriminate.
      * intros H. inversion H. auto.
    + intros H. inversion H. auto.
  - destruct (p_port r1); cbn [get_field bind].
    + destruct (p_port r2); cbn [get_field bind].
      * discriminate.
      * intros H. inversion H. auto.
    + intros H. inversion H. auto.
Qed.

Lemma pair_grouped_ok (op : string) (r1 r2 : Placement) (b : bool) :
  pair_grouped op r1 r2 = Ok b -> ~ lacks_field op r1 /\ ~ lacks_field op r2.
Proof.
  unfold pair_grouped, lacks_field.
  destruct (String.eqb op "IMPORT").
  - destruct (p_transporter r1); cbn [get_field bind]; [|discriminate].
    destruct (p_transporter r2); cbn [get_field bind]; [|discriminate].
    intros _. split; discriminate.
  - destruct (p_port r1); cbn [get_field bind]; [|discriminate].
    destruct (p_port r2); cbn [get_field bind]; [|discriminate].
    intros _. split; discriminate.
Qed.

Lemma count_pairs_raise (op : string) (l : list Placement) (e : Exn) :
  count_grouped_pairs op l = Raise e ->
  e = KeyError /\ (2 <= List.length l)%nat
  /\ exists r, In r l /\ lacks_field op r.
Proof.
  induction l as [|r1 l IH]; intros H; [discriminate|].
  destruct l as [|r2 l']; [discriminate|].
  rewrite count_grouped_pairs_cons in H.
  destruct (pair_grouped op r1 r2) as [hit|e1] eqn:Ep.
  - cbn [bind] in H.
    destruct (count_grouped_pairs op (r2 :: l')) as [n|e2] eqn:En;
      cbn [bind] in H; [discriminate|].
    inversion H; subst e2; clear H.
    destruct (IH eq_refl) as (E & _ & r & Hr & Hl).
    repeat split; auto.
    + cbn [List.length]. lia.
    + exists r. split; auto. now right.
  - cbn [bind] in H. inversion H; subst e1; clear H.
    destruct (pair_grouped_raise _ _ _ Ep) as [E [Hl|Hl]].
    + repeat split; auto; [cbn [List.length]; lia|].
      exists r1. split; auto. now left.
    + repeat split; auto; [cbn [List.length]; lia|].
      exists r2. split; auto. right. now left.
Qed.

Lemma count_pairs_ok (op : string) (l : list Placement) (k : Z) :
  count_grouped_pairs op l = Ok k -> (2 <= List.length l)%nat ->
  Forall (fun r => ~ lacks_field op r) l.
Proof.
  revert k. induction l as [|r1 l IH]; intros k H Hlen.
  - simpl in Hlen. lia.
  - destruct l as [|r2 l']; [simpl in Hlen; lia|].
    rewrite count_grouped_pairs_cons in H.
    destruct (pair_grouped op r1 r2) as [hit|e1] eqn:Ep; cbn [bind] in H;
      [|discriminate].
    destruct (count_grouped_pairs op (r2 :: l')) as [n|e2] eqn:En;
      cbn [bind] in H; [|discriminate].
    destruct (pair_grouped_ok _ _ _ Ep) as [H1 H2].
    constructor; auto.
    destruct l' as [|r3 l''].
    + constructor; auto.
    + apply (IH n eq_refl). cbn [List.length]. lia.
Qed.

(** X9.  [_calculate_grouping_efficiency] raises nothing but KeyError, and
    it raises it exactly when the map has at least two entries and some
    record lacks the field the metric reads: the carrier under operation
    type IMPORT, the port under every other operation type. *)
Theorem grouping_efficiency_key_error (pm : PlacementMap) (op : string) :
  (forall e, _calculate_grouping_efficiency pm op = Raise e -> e = KeyError)
  /\ (_calculate_grouping_efficiency pm op = Raise KeyError
      <-> (2 <= List.length pm)%nat
          /\ exists ur, In ur pm /\ lacks_field op (snd ur)).
Proof.
  assert (Hraise : forall e,
             _calculate_grouping_efficiency pm op = Raise e ->
             e = KeyError /\ (2 <= List.length pm)%nat
             /\ exists ur, In ur pm /\ lacks_field op (snd ur)).
  { intros e. unfold _calculate_grouping_efficiency.
    destruct pm as [|ur pm]; [discriminate|].
    destruct (count_grouped_pairs op (dict_values (ur :: pm))) as [k|e1]
      eqn:Ek; cbn [bind].
    - destruct (Z.ltb_spec 0
                  (Z.of_nat (List.length (dict_values (ur :: pm))) - 1));
        [|discriminate].
      rewrite py_div_nonzero by lia. cbn [bind]. discriminate.
    - intros H. inversion H; subst e1.
      destruct (count_pairs_raise _ _ Ek) as (E & Hlen & r & Hr & Hl).
      unfold dict_values in *. rewrite length_map in Hlen.
      apply in_map_iff in Hr. destruct Hr as (ur' & <- & Hin).
      repeat split; auto. exists ur'. auto. }
  split.
  - intros e He. apply (Hraise e He).
  - split.
    + intros He. apply (Hraise KeyError He).
    + intros (Hlen & ur & Hin & Hl).
      destruct (_calculate_grouping_efficiency pm op) as [q|e] eqn:Eq.
      * exfalso. unfold _calculate_grouping_efficiency in Eq.
        destruct pm as [|ur0 pm]; [simpl in Hlen; lia|].
        destruct (count_grouped_pairs op (dict_values (ur0 :: pm))) as [k|e1]
          eqn:Ek; cbn [bind] in Eq; [|discriminate].
        apply count_pairs_ok in Ek.
        -- rewrite Forall_forall in Ek. apply (Ek (snd ur)); auto.
           unfold dict_values. now apply in_map.
        -- unfold dict_values. now rewrite length_map.
      * f_equal. apply (Hraise e eq_refl).
Qed.

(** ** Proposals *)

Lemma py_round_between (x : Q) (a b : Z) :
  (inject_Z a <= x)%Q -> (x <= inject_Z b)%Q -> a <= py_round x <= b.
Proof.
  intros Ha Hb. unfold py_round.
  pose proof (Qfloor_le x) as Hf1. pose proof (Qlt_floor x) as Hf2.
  assert (Hfb : Qfloor x <= b).
  { rewrite Zle_Qle. now apply Qle_trans with x. }
  assert (Haf : a <= Qfloor x).
  { assert (H : a < Qfloor x + 1); [|lia].
    rewrite Zlt_Qlt. now apply Qle_lt_trans with x. }
  assert (Hhalf : (0 < x - inject_Z (Qfloor x))%Q -> Qfloor x + 1 <= b).
  { intros Hpos. assert (H : Qfloor x < b); [|lia].
    rewrite Zlt_Qlt. apply Qlt_le_trans with x; auto. lra. }
  destruct (Qcompare_spec (x - inject_Z (Qfloor x)) (1 # 2)) as [E|E|E].
  - destruct (Z.even (Qfloor x)); [lia|].
    split; [lia|]. apply Hhalf. rewrite E. reflexivity.
  - lia.
  - split; [lia|]. apply Hhalf. apply Qlt_trans with (1 # 2); auto.
    reflexivity.
Qed.

Lemma pow2_pos (k : Z) : (0 < pow2 k)%Q.
Proof.
  unfold pow2. destruct (Z.leb_spec 0 k).
  - change 0%Q with (inject_Z 0). rewrite <- Zlt_Qlt. now apply Z.pow_pos_nonneg.
  - apply Qinv_lt_0_compat. change 0%Q with (inject_Z 0).
    rewrite <- Zlt_Qlt. apply Z.pow_pos_nonneg; lia.
Qed.

Lemma pow2_nonneg_exponent (k : Z) : 0 <= k -> pow2 k = inject_Z (2 ^ k).
Proof.
  intros H. unfold pow2. destruct (Z.leb_spec 0 k); [reflexivity|lia].
Qed.

(** A positive number is at least the power of two that [ilog2] names. *)
Lemma ilog2_below (x : Q) : (0 < x)%Q -> (pow2 (ilog2 x) <= x)%Q.
Proof.
  intros Hx. unfold ilog2.
  set (l := Z.log2 (Qnum x) - Z.log2 (Z.pos (Qden x))).
  destruct (Qle_bool (pow2 l) x) eqn:E; [now apply Qle_bool_iff|].
  destruct x as [n d]. cbn [Qnum Qden] in *.
  assert (Hn : 0 < n).
  { unfold Qlt in Hx. cbn in Hx. lia. }
  destruct (Z.log2_spec n Hn) as [Hn1 _].
  destruct (Z.log2_spec (Z.pos d) (Pos2Z.is_pos d)) as [_ Hd2].
  pose proof (Z.log2_nonneg n) as Hln.
  pose proof (Z.log2_nonneg (Z.pos d)) as Hld.
  set (ln := Z.log2 n) in *. set (ld := Z.log2 (Z.pos d)) in *.
  unfold pow2. destruct (Z.leb_spec 0 (l - 1)) as [Hk|Hk].
  - unfold Qle. cbn [Qnum Qden inject_Z]. rewrite Z.mul_1_r.
    assert (Hsplit : 2 ^ ln = 2 ^ (l - 1) * 2 ^ Z.succ ld).
    { rewrite <- Z.pow_add_r by lia. f_equal. unfold l. lia. }
    assert (Hp : 0 < 2 ^ (l - 1)) by (apply Z.pow_pos_nonneg; lia).
    nia.
  - apply Qle_shift_inv_r.
    + change 0%Q with (inject_Z 0). rewrite <- Zlt_Qlt.
      apply Z.pow_pos_nonneg; lia.
    + unfold Qle. cbn [Qnum Qden inject_Z Qmult]. rewrite !Z.mul_1_l.
      cbn [Pos.mul]. rewrite Pos.mul_1_r.
      assert (Hsplit : 2 ^ Z.succ ld = 2 ^ ln * 2 ^ (- (l - 1))).
      { rewrite <- Z.pow_add_r by lia. f_equal. unfold l. lia. }
      assert (Hp : 0 < 2 ^ (- (l - 1))) by (apply Z.pow_pos_nonneg; lia).
      nia.
Qed.

Lemma nearest_between (x : Q) (N : Z) :
  (0 < x)%Q -> (x <= inject_Z N)%Q -> N < 2 ^ 53 ->
  (0 <= nearest x)%Q /\ (nearest x <= inject_Z N)%Q.
Proof.
  intros Hx HN Hsmall. unfold nearest.
  set (k := Z.min (52 - ilog2 x) 1074).
  assert (Hk : 0 <= k).
  { assert (H : ilog2 x <= 52); [|unfold k; lia].
    destruct (Z_le_gt_dec (ilog2 x) 52) as [|Hbig]; auto. exfalso.
    pose proof (@ilog2_below x Hx) as Hlow.
    rewrite pow2_nonneg_exponent in Hlow by lia.
    assert (Hc : (inject_Z (2 ^ ilog2 x) <= inject_Z N)%Q)
      by now apply Qle_trans with x.
    rewrite <- Zle_Qle in Hc.
    assert (2 ^ 53 <= 2 ^ ilog2 x) by (apply Z.pow_le_mono_r; lia).
    lia. }
  rewrite Qred_correct, (@pow2_nonneg_exponent k Hk).
  assert (Hp : 0 < 2 ^ k) by now apply Z.pow_pos_nonneg.
  assert (Hpq : (0 < inject_Z (2 ^ k))%Q).
  { change 0%Q with (inject_Z 0). now rewrite <- Zlt_Qlt. }
  destruct (@py_round_between (x * inject_Z (2 ^ k)) 0 (N * 2 ^ k))
    as [Hlo Hhi].
  - change (inject_Z 0) with 0%Q. apply Qmult_le_0_compat.
    + now apply Qlt_le_weak.
    + now apply Qlt_le_weak.
  - rewrite inject_Z_mult. apply Qmult_le_compat_r; auto.
    now apply Qlt_le_weak.
  - split.
    + apply Qle_shift_div_l; auto. rewrite Qmult_0_l.
      change 0%Q with (inject_Z 0). now rewrite <- Zle_Qle.
    + apply Qle_shift_div_r; auto. rewrite <- inject_Z_mult.
      now rewrite <- Zle_Qle.
Qed.

Lemma binary64_between (x : Q) (N : Z) :
  (0 <= x)%Q -> (x <= inject_Z N)%Q -> N < 2 ^ 53 ->
  (0 <= binary64 x)%Q /\ (binary64 x <= inject_Z N)%Q.
Proof.
  intros Hx HN Hsmall. unfold binary64.
  destruct (Qcompare_spec x 0) as [E|E|E].
  - split; [apply Qle_refl|]. rewrite <- E. exact HN.
  - exfalso. now apply Qle_not_lt in Hx.
  - now apply nearest_between.
Qed.


Lemma compile_result_labels (now : string) (areas : Areas)
    (cs : list Container) (pm : PlacementMap) (usage : Usage) (op : string)
    (r : LayoutResult) :
  _compile_result now areas cs pm usage op = Ok r ->
  details r = (op ++ " optimization completed")%string /\ timestamp r = now.
Proof.
  unfold _compile_result. intros H.
  repeat match type of H with
         | bind ?m _ = Ok _ =>
             destruct m eqn:?; cbn [bind] in H; [|discriminate]
         end.
  inversion H; subst; clear H. cbn. auto.
Qed.

(** The label that a run writes into [details] and the clock reading it
    keeps. *)
Lemma run_strategy_labels (op now : string) (rnd : Oracle) (k : nat)
    (areas : Areas) (cs : list Container) (cfg : dict string (list Z))
    (out : RunOut) :
  run_strategy op now rnd k areas cs cfg = Ok out ->
  details (out_result out)
  = ((if String.eqb op "IMPORT" then "IMPORT" else "EXPORT")
       ++ " optimization completed")%string
  /\ timestamp (out_result out) = now.
Proof.
  unfold run_strategy, optimize_import_layout, optimize_export_layout.
  destruct (assign_weight_classes rnd k cs) as [cs1 k1].
  destruct (String.eqb op "IMPORT"); intros H;
    repeat match type of H with
           | bind (_compile_result _ _ _ _ _ _) _ = Ok _ => fail 1
           | bind ?m _ = Ok _ =>
               destruct m eqn:?; cbn [bind] in H; [|discriminate]
           end;
    match type of H with
    | bind ?m _ = Ok _ => destruct m eqn:Ec; cbn [bind] in H; [|discriminate]
    end;
    inversion H; subst; clear H; cbn [out_result];
    apply (@compile_result_labels _ _ _ _ _ _ _ Ec).
Qed.

Lemma run_strategy_within_batch (op now : string) (rnd : Oracle) (k : nat)
    (areas : Areas) (cs : list Container) (cfg : dict string (list Z))
    (out : RunOut) :
  run_strategy op now rnd k areas cs cfg = Ok out ->
  within_batch cs out
  /\ List.length (out_containers out) = List.length cs
  /\ efficiency (out_result out)
     = (inject_Z (total_placed (out_result out))
        / inject_Z (total_containers (out_result out)) * 100)%Q.
Proof.
  unfold run_strategy. intros H.
  assert (Hl : run_ledger rnd k areas cs cfg out).
  { destruct (String.eqb op "IMPORT").
    - now apply (@import_run_ledger now).
    - now apply (@export_run_ledger now). }
  split; [|split].
  - now apply (@run_ledger_within_batch rnd k areas cs cfg out).
  - destruct Hl as (-> & _). apply assign_weight_classes_length.
  - destruct Hl as (_ & _ & _ & _ & -> & -> & -> & _). reflexivity.
Qed.

(** The rounded float percentage of a part of a whole. *)
Lemma float_percent_between (p t : Z) :
  0 <= p <= t -> 0 <= py_round (float_mul (float_div p t) 100) <= 100.
Proof.
  intros Hpt. unfold float_mul, float_div.
  assert (Hq : (0 <= inject_Z p / inject_Z t)%Q
               /\ (inject_Z p / inject_Z t <= inject_Z 1)%Q).
  { destruct (Z.eq_dec t 0) as [->|Ht].
    - assert (p = 0) by lia. subst p. split; unfold Qle; simpl; lia.
    - assert (Hpos : (0 < inject_Z t)%Q).
      { change 0%Q with (inject_Z 0). rewrite <- Zlt_Qlt. lia. }
      split.
      + apply Qle_shift_div_l; auto. rewrite Qmult_0_l.
        change 0%Q with (inject_Z 0). rewrite <- Zle_Qle. lia.
      + apply Qle_shift_div_r; auto. rewrite <- inject_Z_mult.
        rewrite <- Zle_Qle. lia. }
  destruct Hq as [Hq0 Hq1].
  destruct (@binary64_between (inject_Z p / inject_Z t) 1 Hq0 Hq1)
    as [Hd0 Hd1]; [reflexivity|].
  destruct (@binary64_between
              (binary64 (inject_Z p / inject_Z t) * 100) 100) as [Hm0 Hm1].
  - apply Qmult_le_0_compat; auto. unfold Qle; simpl; lia.
  - change (inject_Z 100) with (inject_Z 1 * 100)%Q.
    apply Qmult_le_compat_r; auto. unfold Qle; simpl; lia.
  - reflexivity.
  - apply py_round_between; auto.
Qed.

(** 23 of 40 placed: the float quotient is just below 0.575, the product
    just below 57.5, and the score 57; the exact percentage 57.5 would
    round to 58. *)
Example score_of_23_in_40 :
  py_round (float_mul (float_div 23 40) 100) = 57
  /\ py_round (inject_Z 23 / inject_Z 40 * 100) = 58.
Proof.
  split; vm_compute; reflexivity.
Qed.

(** What the [i]-th proposal of a call on a batch of [len] containers
    says. *)
Definition proposal_ok (clock : nat -> string) (op : string) (len : nat)
    (i : nat) (p : Proposal) : Prop :=
  id p = Z.of_nat i + 1
  /\ strategy p = ("Proposal " ++ str_of_Z (Z.of_nat i + 1))%string
  /\ prop_timestamp p = clock i
  /\ prop_details p
     = ((if String.eqb op "IMPORT" then "IMPORT" else "EXPORT")
          ++ " optimization completed")%string
  /\ prop_total_containers p = Z.of_nat len
  /\ prop_containers_placed p
     = Z.of_nat (List.length (prop_placement_map p))
  /\ 0 <= prop_containers_placed p <= prop_total_containers p
  /\ score p
     = py_round (float_mul (float_div (prop_containers_placed p)
                                      (prop_total_containers p)) 100)
  /\ 0 <= score p <= 100.

Lemma proposals_loop_ok (clock : nat -> string) (rnd : Oracle)
    (op : string) (cfg : dict string (list Z)) (n : nat) :
  forall (i0 k : nat) (cs : list Container) (ps : list Proposal),
    proposals_loop clock rnd k cs op cfg i0 n = Ok ps ->
    List.length ps = n
    /\ forall i p, nth_error ps i = Some p ->
                   proposal_ok clock op (List.length cs) (i0 + i) p.
Proof.
  induction n as [|n IH]; intros i0 k cs ps Hps.
  - simpl in Hps. inversion Hps. split; auto.
    intros [|i] p; discriminate.
  - rewrite proposals_loop_step in Hps.
    destruct (run_strategy op (clock i0) rnd k _initialize_areas cs cfg)
      as [out|e] eqn:Erun; cbn [bind] in Hps; [|discriminate].
    destruct (proposals_loop clock rnd (out_cursor out) (out_containers out)
                op cfg (S i0) n) as [ps'|e] eqn:Erest; cbn [bind] in Hps;
      [|discriminate].
    inversion Hps; subst ps; clear Hps.
    destruct (IH (S i0) (out_cursor out) (out_containers out) ps' Erest)
      as [Hlen Hall].
    destruct (@run_strategy_within_batch op (clock i0) rnd k
                _initialize_areas cs cfg out Erun)
      as ((_ & _ & Htp & Htc & Hle & He0 & He1) & Hcs & Heff).
    destruct (@run_strategy_labels op (clock i0) rnd k _initialize_areas cs
                cfg out Erun) as [Hd Ht].
    split; [simpl; congruence|].
    intros [|i] p Hp.
    + cbn [nth_error] in Hp. inversion Hp; subst p; clear Hp.
      rewrite Nat.add_0_r. unfold proposal_ok.
      cbn [id strategy prop_timestamp prop_details prop_total_containers
           prop_containers_placed prop_placement_map score].
      unfold efficiency_float.
      pose proof (float_percent_between Hle) as Hs.
      exact (conj eq_refl (conj eq_refl (conj Ht (conj Hd (conj Htc
               (conj Htp (conj Hle (conj eq_refl Hs)))))))).
    + cbn [nth_error] in Hp. rewrite Hcs in Hall.
      replace (i0 + S i)%nat with (S i0 + i)%nat by lia.
      now apply Hall.
Qed.

(** X10.  On a non-empty batch [generate_multiple_proposals] returns as
    many proposals as asked for.  The proposal at index [i] has id [i + 1]
    and the label "Proposal i+1", carries the clock reading of its own
    run and the details line of the strategy that ran (the inbound one for
    operation type IMPORT, the outbound one for every other type); its
    total is the length of the batch, its number placed is the size of its
    map and at most the total, and its score is [round] of the float
    [(placed / total) * 100], each operation rounded to binary64 (57 for
    23 of 40), between 0 and 100. *)
Theorem proposals_numbered_and_scored (clock : nat -> string) (rnd : Oracle)
    (k : nat) (cs : list Container) (op : string)
    (cfg : dict string (list Z)) (n : nat) :
  cs <> [] ->
  exists ps,
    generate_multiple_proposals clock rnd k cs op cfg n = Ok ps
    /\ List.length ps = n
    /\ forall i p, nth_error ps i = Some p ->
                   proposal_ok clock op (List.length cs) i p.
Proof.
  intros Hcs. unfold generate_multiple_proposals.
  destruct (@proposals_loop_total clock rnd op cfg n 0%nat k cs Hcs)
    as [ps Hps].
  exists ps. split; auto.
  apply (@proposals_loop_ok clock rnd op cfg n 0%nat k cs ps Hps).
Qed.

Lemma proposals_numbered_and_scored_witness :
  exists ps,
    generate_multiple_proposals (fun _ => "noon") no_random 0 mixed_pair
                                "IMPORT" [] 3 = Ok ps
    /\ List.length ps = 3%nat
    /\ forall i p, nth_error ps i = Some p ->
                   proposal_ok (fun _ => "noon") "IMPORT"
                               (List.length mixed_pair) i p.
Proof.
  apply (@proposals_numbered_and_scored (fun _ => "noon") no_random 0
           mixed_pair "IMPORT" [] 3).
  discriminate.
Defined.

(** ** Usage counters follow the map *)

(** The number of map entries recorded in zone [n]. *)
Definition zone_count (n : string) (pm : PlacementMap) : Z :=
  Z.of_nat (List.length
              (filter (fun ur => String.eqb (p_area (snd ur)) n) pm)).

Lemma zone_count_app (n : string) (pm pm' : PlacementMap) :
  zone_count n (pm ++ pm') = zone_count n pm + zone_count n pm'.
Proof.
  unfold zone_count. rewrite filter_app, length_app. lia.
Qed.

Lemma zone_count_all (n m : string) (temp : PlacementMap) :
  Forall (fun ur => p_area (snd ur) = n) temp ->
  zone_count m temp
  = if String.eqb n m then Z.of_nat (List.length temp) else 0.
Proof.
  unfold zone_count. induction 1 as [|ur temp Hur _ IH]; cbn [filter].
  - now destruct (String.eqb n m).
  - rewrite Hur. destruct (String.eqb n m); cbn [List.length] in *; lia.
Qed.

Lemma dict_set_fresh {V} (d : dict string V) (k : string) (v : V) :
  ~ In k (map fst d) -> dict_set String.eqb d k v = d ++ [(k, v)].
Proof.
  induction d as [|[k1 v1] d IH]; simpl; intros H; auto.
  destruct (String.eqb_spec k1 k) as [->|Hne].
  - exfalso. auto.
  - rewrite IH; auto.
Qed.

Lemma dict_update_fresh {V} (e d : dict string V) :
  NoDup (map fst e) ->
  (forall k, In k (map fst e) -> ~ In k (map fst d)) ->
  dict_update String.eqb d e = d ++ e.
Proof.
  unfold dict_update. revert d.
  induction e as [|[k v] e IH]; intros d Hnd Hd; cbn [fold_left fst snd].
  - now rewrite app_nil_r.
  - cbn [map fst] in Hnd. inversion Hnd as [|? ? Hk Hnd']; subst.
    rewrite dict_set_fresh by (apply Hd; now left).
    rewrite IH; auto.
    + now rewrite <- app_assoc.
    + intros k1 Hk1. rewrite map_app, in_app_iff. cbn [map fst In].
      intros [H|[<-|[]]]; [|contradiction].
      apply (Hd k1); auto. now right.
Qed.

Lemma dict_set_keys_incl {V} (d : dict string V) (k : string) (v : V) :
  incl (map fst (dict_set String.eqb d k v)) (k :: map fst d).
Proof.
  destruct (in_dec string_dec k (map fst d)) as [Hin|Hout].
  - rewrite dict_set_keys_present by assumption. now apply incl_tl, incl_refl.
  - rewrite dict_set_keys_absent by assumption.
    intros x Hx. apply in_app_or in Hx. destruct Hx as [Hx|[<-|[]]].
    + now right.
    + now left.
Qed.

Lemma dict_mem_false {V} (d : dict string V) (k : string) :
  dict_mem String.eqb d k = false <-> ~ In k (map fst d).
Proof.
  unfold dict_mem. split.
  - destruct (dict_get String.eqb d k) eqn:E; [discriminate|].
    intros _. now apply dict_get_none.
  - intros H. destruct (dict_get String.eqb d k) eqn:E; auto.
    exfalso. apply H. apply dict_get_some_in in E.
    change k with (fst (k, v)). now apply in_map.
Qed.

Lemma usage_add_effect (usage usage' : Usage) (n : string) (k : Z) :
  usage_add usage n k = Ok usage' ->
  sumZ (dict_values usage') = sumZ (dict_values usage) + k
  /\ map fst usage' = map fst usage
  /\ (exists v, dict_get String.eqb usage n = Some v
                /\ dict_get String.eqb usage' n = Some (v + k))
  /\ forall m, m <> n ->
               dict_get String.eqb usage' m = dict_get String.eqb usage m.
Proof.
  intros H. apply usage_add_inv in H. destruct H as (v & Hget & ->).
  repeat split.
  - destruct (dict_get_split _ _ Hget) as (pre & post & -> & _ & Hset).
    rewrite Hset. unfold dict_values. rewrite !map_app. cbn [map snd].
    rewrite !sumZ_app, !sumZ_cons. lia.
  - apply dict_set_keys_present.
    apply dict_get_some_in in Hget.
    change n with (fst (n, v)). now apply in_map.
  - exists v. split; auto. apply dict_get_set_same.
  - intros m Hm. now apply dict_get_set_other.
Qed.

(** A loop invariant that may look at the part of the list already
    visited. *)
Lemma foldM_prefix {A S} (I : list A -> S -> Prop) (f : S -> A -> result S)
    (l : list A) :
  (forall pre a post s s',
      l = pre ++ a :: post -> I pre s -> f s a = Ok s' -> I (pre ++ [a]) s') ->
  forall s s', I [] s -> foldM f l s = Ok s' -> I l s'.
Proof.
  intros Hf.
  assert (H : forall todo done s s',
             l = done ++ todo -> I done s -> foldM f todo s = Ok s' ->
             I l s').
  { induction todo as [|a todo IH]; intros done s s' Hl Hs Hfold;
      cbn [foldM] in Hfold.
    - inversion Hfold; subst. now rewrite app_nil_r.
    - destruct (f s a) as [s1|e] eqn:E; cbn [bind] in Hfold; [|discriminate].
      apply (IH (done ++ [a]) s1 s'); auto.
      + now rewrite <- app_assoc.
      + apply (Hf done a todo s s1); auto. }
  intros s s'. now apply (H l []).
Qed.

Lemma NoDup_map_middle {A B} (f : A -> B) (pre post : list A) (a : A) :
  NoDup (map f (pre ++ a :: post)) -> ~ In (f a) (map f pre).
Proof.
  rewrite map_app. cbn [map]. intros H Hin.
  apply NoDup_remove_2 in H. apply H. apply in_or_app. now left.
Qed.

Section Tally.
Variable keys0 : list string.

(** The counter of every zone is the number of map entries recorded in
    that zone, and the counters add up to the size of the map. *)
Record tallied (st : RunState) : Prop := mkTallied {
  tal_keys : map fst (rs_usage st) = keys0;
  tal_zone : forall n v,
      dict_get String.eqb (rs_usage st) n = Some v ->
      v = zone_count n (rs_map st);
  tal_sum : sumZ (dict_values (rs_usage st))
            = Z.of_nat (List.length (rs_map st))
}.

Lemma tally_commit (st : RunState) (ar' : Areas) (temp : PlacementMap)
    (n : string) (usage' : Usage) (placed : Z) :
  tallied st -> NoDup (map fst temp) ->
  Forall (fun ur => p_area (snd ur) = n
                    /\ dict_mem String.eqb (rs_map st) (fst ur) = false)
         temp ->
  usage_add (rs_usage st) n (Z.of_nat (List.length temp)) = Ok usage' ->
  tallied (mkRunState ar' (dict_update String.eqb (rs_map st) temp) usage'
                      placed).
Proof.
  intros [Hk Hz Hs] Hnd Htemp Hadd.
  destruct (usage_add_effect _ _ _ Hadd)
    as (Hsum & Hkeys & (v0 & Hget & Hget') & Hother).
  assert (Hfresh : dict_update String.eqb (rs_map st) temp
                   = rs_map st ++ temp).
  { apply dict_update_fresh; auto. intros k Hin.
    apply in_map_iff in Hin. destruct Hin as (ur & <- & Hur).
    rewrite Forall_forall in Htemp. apply dict_mem_false.
    now apply (Htemp ur). }
  assert (Harea : Forall (fun ur => p_area (snd ur) = n) temp).
  { eapply Forall_impl; [|exact Htemp]. intros ur [H _]. exact H. }
  constructor; cbn [rs_usage rs_map]; try rewrite Hfresh.
  - congruence.
  - intros m v Hm. rewrite zone_count_app, (zone_count_all m Harea).
    destruct (String.eqb_spec n m) as [<-|Hne].
    + rewrite Hget' in Hm. inversion Hm. rewrite (Hz n v0 Hget). reflexivity.
    + rewrite Hother in Hm by congruence. rewrite (Hz m v Hm). lia.
  - rewrite Hsum, Hs, length_app. lia.
Qed.

Lemma tally_write (st : RunState) (ar' : Areas) (u : string) (r : Placement)
    (usage' : Usage) (placed : Z) :
  tallied st -> dict_mem String.eqb (rs_map st) u = false ->
  usage_add (rs_usage st) (p_area r) 1 = Ok usage' ->
  tallied (mkRunState ar' (dict_set String.eqb (rs_map st) u r) usage'
                      placed).
Proof.
  intros Ht Hu Hadd.
  apply (@tally_commit st ar' [(u, r)] (p_area r) usage' placed Ht).
  - cbn [map fst]. constructor; [intros []|constructor].
  - constructor; [|constructor]. cbn [fst snd]. split; [reflexivity|exact Hu].
  - exact Hadd.
Qed.

Lemma tally_yard (st : RunState) (ar' : Areas) (placed : Z) :
  tallied st -> tallied (mkRunState ar' (rs_map st) (rs_usage st) placed).
Proof.
  intros [Hk Hz Hs]. constructor; auto.
Qed.

Lemma anywhere_tally (st st' : RunState) (c : Container) (b : bool) :
  tallied st -> dict_mem String.eqb (rs_map st) (unit_number c) = false ->
  _place_container_anywhere c st = Ok (st', b) ->
  tallied st'
  /\ incl (map fst (rs_map st')) (unit_number c :: map fst (rs_map st)).
Proof.
  intros Ht Hu. unfold _place_container_anywhere.
  destruct (place_anywhere_outcome c st)
    as [Hnone|pre post n code a a' usage' Har Hpre Hoff Hpl Hadd
        |pre post n a e Har Hoff Hadd]; cbn [bind]; intros H;
    inversion H; subst; clear H; cbn [rs_map].
  - split; [now apply tally_yard | now apply incl_tl, incl_refl].
  - split; [|apply dict_set_keys_incl].
    now apply tally_write.
Qed.

Lemma import_fallback_tally (st st' : RunState) (c : Container) :
  tallied st -> import_fallback_step st c = Ok st' -> tallied st'.
Proof.
  intros Ht. unfold import_fallback_step.
  destruct (dict_mem String.eqb (rs_map st) (unit_number c)) eqn:Em.
  - intros H. inversion H. now subst.
  - destruct (_place_container_anywhere c st) as [[st1 b]|e] eqn:E;
      cbn [bind]; [|discriminate].
    intros H. inversion H; subst; clear H.
    destruct (@anywhere_tally st st1 c b Ht Em E) as [Ht1 _].
    destruct b; auto. now apply tally_yard.
Qed.

Lemma import_attempt_temp (n : string) (t : option string)
    (g : list Container) (pm : PlacementMap) (ar ar' : Areas)
    (temp : PlacementMap) (cnt : Z) :
  NoDup (map unit_number g) ->
  import_attempt n t g pm ar = Ok (ar', temp, cnt) ->
  cnt = Z.of_nat (List.length temp)
  /\ NoDup (map fst temp)
  /\ Forall (fun ur => p_area (snd ur) = n
                       /\ dict_mem String.eqb pm (fst ur) = false) temp.
Proof.
  intros Hnd Hat. unfold import_attempt in Hat.
  apply (@foldM_prefix Container (Areas * PlacementMap * Z)
           (fun pre acc =>
              snd acc = Z.of_nat (List.length (snd (fst acc)))
              /\ NoDup (map fst (snd (fst acc)))
              /\ Forall (fun ur => p_area (snd ur) = n
                                   /\ dict_mem String.eqb pm (fst ur) = false)
                        (snd (fst acc))
              /\ incl (map fst (snd (fst acc))) (map unit_number pre))
           (import_attempt_step n t pm) g) with (s' := (ar', temp, cnt))
    in Hat.
  - cbn [fst snd] in Hat. tauto.
  - intros pre c post [[ar1 temp1] cnt1] acc' Hg (Hc & Hn & Hf & Hi).
    cbn [fst snd] in *. unfold import_attempt_step.
    assert (Hext : incl (map unit_number pre) (map unit_number (pre ++ [c]))).
    { rewrite map_app. now apply incl_appl, incl_refl. }
    destruct (dict_mem String.eqb pm (unit_number c)) eqn:Em.
    { intros H. inversion H; subst. cbn [fst snd].
      repeat split; auto. eapply incl_tran; eauto. }
    destruct (place_in_area ar1 n c) as [[ar2 code]|e]; cbn [bind];
      [|discriminate].
    destruct (truthy code) as [s|]; intros H; inversion H; subst; clear H;
      cbn [fst snd].
    + assert (Hnew : ~ In (unit_number c) (map fst temp1)).
      { intros Hin. apply Hi in Hin. revert Hin.
        apply (@NoDup_map_middle _ _ unit_number pre post c). exact Hnd. }
      rewrite (@dict_set_fresh _ temp1 (unit_number c) _ Hnew). rewrite length_app, map_app.
      cbn [List.length map fst]. split; [lia|]. split; [|split].
      * apply NoDup_app; auto.
        -- repeat constructor. intros [].
        -- intros x Hx [<-|[]]. contradiction.
      * apply Forall_app. split; auto.
      * rewrite map_app. cbn [map]. apply incl_app.
        -- now apply incl_appl.
        -- apply incl_appr, incl_refl.
    + repeat split; auto. eapply incl_tran; eauto.
  - cbn [fst snd]. repeat split; auto; try constructor.
    intros x [].
Qed.

Lemma import_try_areas_tally (t : option string) (g : list Container)
    (suitable : list string) :
  NoDup (map unit_number g) ->
  forall (st st' : RunState) (b : bool),
    tallied st -> import_try_areas suitable t g st = Ok (st', b) ->
    tallied st'.
Proof.
  intros Hg. induction suitable as [|n rest IH]; intros st st' b Ht;
    cbn [import_try_areas].
  - intros H. inversion H. now subst.
  - destruct (import_attempt n t g (rs_map st) (rs_areas st))
      as [[[ar' temp] cnt]|e] eqn:Eat; cbn [bind]; [|discriminate].
    destruct (@import_attempt_temp n t g (rs_map st) (rs_areas st) ar' temp
                cnt Hg Eat) as (Hc & Hn & Hf).
    destruct (reaches_threshold cnt g).
    + destruct (usage_add (rs_usage st) n cnt) as [usage'|e] eqn:Ea;
        cbn [bind]; [|discriminate].
      intros H. inversion H; subst; clear H.
      now apply (@tally_commit st ar' temp n usage').
    + apply IH. now apply tally_yard.
Qed.

Lemma import_group_tally (st st' : RunState) (t : option string)
    (g : list Container) :
  NoDup (map unit_number g) ->
  tallied st -> import_group st (t, g) = Ok st' -> tallied st'.
Proof.
  intros Hg Ht. unfold import_group.
  destruct (import_try_areas (import_suitable_areas (rs_areas st) g) t g st)
    as [[st1 placed]|e] eqn:Etry; cbn [bind]; [|discriminate].
  pose proof (@import_try_areas_tally t g _ Hg st st1 placed Ht Etry) as Ht1.
  destruct placed.
  - intros H. inversion H. now subst.
  - apply (foldM_preserves tallied); auto.
    intros s c s' _ Hs. now apply import_fallback_tally.
Qed.

Lemma export_drain_tally (n : string) (p : option string) (wc : Z)
    (st st' : RunState) (kept kept' : list Container) (c : Container) :
  tallied st ->
  export_drain_step n p wc (st, kept) c = Ok (st', kept') -> tallied st'.
Proof.
  intros Ht. unfold export_drain_step.
  destruct (dict_mem String.eqb (rs_map st) (unit_number c)) eqn:Em.
  { intros H. inversion H; subst. auto. }
  destruct (place_in_area (rs_areas st) n c) as [[ar2 code]|e];
    cbn [bind]; [|discriminate].
  destruct (truthy code) as [s|].
  - destruct (usage_add (rs_usage st) n 1) as [usage'|e] eqn:Ea;
      cbn [bind]; [|discriminate].
    intros H. inversion H; subst; clear H.
    now apply tally_write.
  - intros H. inversion H; subst; clear H. now apply tally_yard.
Qed.

Lemma export_try_areas_tally (p : option string) (wc : Z)
    (suitable : list string) :
  forall (cc : list Container) (st st' : RunState),
    tallied st -> export_try_areas suitable p wc cc st = Ok st' ->
    tallied st'.
Proof.
  induction suitable as [|n rest IH]; intros cc st st' Ht;
    cbn [export_try_areas].
  - intros H. inversion H. now subst.
  - destruct cc as [|c0 cc0]; [intros H; inversion H; now subst|].
    destruct (foldM (export_drain_step n p wc) (c0 :: cc0) (st, []))
      as [[st1 kept1]|e] eqn:Efold; cbn [bind]; [|discriminate].
    apply (@foldM_preserves Container (RunState * list Container)
             (fun acc => tallied (fst acc))
             (export_drain_step n p wc) (c0 :: cc0)) with (s' := (st1, kept1))
      in Efold; auto.
    + intros H. apply (IH kept1 st1 st'); auto.
    + intros [s kept] c [s' kept'] _ Hs Hstep. cbn [fst] in *.
      now apply (@export_drain_tally n p wc s s' kept kept' c).
Qed.

Lemma export_port_group_tally (st st' : RunState)
    (g : option string * dict Z (list Container)) :
  tallied st -> export_port_group st g = Ok st' -> tallied st'.
Proof.
  destruct g as [p wg]. unfold export_port_group. intros Ht.
  apply (foldM_preserves tallied); auto.
  intros s [wc cc] s' _ Hs. unfold export_weight_group.
  now apply export_try_areas_tally.
Qed.

Lemma export_fallback_tally (l : list Container) (st st' : RunState) :
  NoDup (map unit_number l) ->
  Forall (fun c => dict_mem String.eqb (rs_map st) (unit_number c) = false)
         l ->
  tallied st -> foldM export_fallback_step l st = Ok st' -> tallied st'.
Proof.
  intros Hnd Hout Ht Hfold.
  apply (@foldM_prefix Container RunState
           (fun pre s =>
              tallied s
              /\ incl (map fst (rs_map s))
                      (map fst (rs_map st) ++ map unit_number pre))
           export_fallback_step l) with (s' := st') in Hfold.
  - tauto.
  - intros pre c post s s' Hl [Hs Hi]. unfold export_fallback_step.
    assert (Hc : dict_mem String.eqb (rs_map s) (unit_number c) = false).
    { apply dict_mem_false. intros Hin. apply Hi in Hin.
      apply in_app_or in Hin. destruct Hin as [Hin|Hin].
      - rewrite Forall_forall in Hout.
        assert (Hcl : In c l).
        { rewrite Hl. apply in_or_app. right. now left. }
        specialize (Hout c Hcl). apply dict_mem_false in Hout. contradiction.
      - revert Hin. apply (@NoDup_map_middle _ _ unit_number pre post c).
        now rewrite <- Hl. }
    destruct (_place_container_anywhere c s) as [[s1 b]|e] eqn:E;
      cbn [bind]; [|discriminate].
    intros H. inversion H; subst s'; clear H.
    destruct (@anywhere_tally s s1 c b Hs Hc E) as [Hs1 Hi1].
    assert (Hincl : incl (map fst (rs_map s1))
                         (map fst (rs_map st) ++ map unit_number (pre ++ [c]))).
    { intros x Hx. apply Hi1 in Hx. rewrite map_app. cbn [map].
      destruct Hx as [<-|Hx].
      - apply in_or_app. right. apply in_or_app. right. now left.
      - apply Hi in Hx. apply in_app_or in Hx.
        destruct Hx as [Hx|Hx]; apply in_or_app; auto.
        right. apply in_or_app. now left. }
    destruct b; split; auto. now apply tally_yard.
  - split; auto. cbn [map]. rewrite app_nil_r. apply incl_refl.
Qed.
End Tally.

Lemma group_append_distinct {K} (eqb : K -> K -> bool)
    (groups : dict K (list Container)) (key : K) (c : Container)
    (seen : list Container) :
  (forall a b, eqb a b = true -> a = b) ->
  (forall k l, In (k, l) groups ->
               NoDup (map unit_number l) /\ incl l seen) ->
  ~ In (unit_number c) (map unit_number seen) ->
  forall k l, In (k, l) (group_append eqb groups key c) ->
              NoDup (map unit_number l) /\ incl l (seen ++ [c]).
Proof.
  intros Hs Hg Hc k l Hin.
  assert (Hold : forall k0 l0, In (k0, l0) groups ->
                   NoDup (map unit_number l0) /\ incl l0 (seen ++ [c])).
  { intros k0 l0 H0. destruct (Hg k0 l0 H0) as [H1 H2]. split; auto.
    now apply incl_appl. }
  assert (Hlast : incl [c] (seen ++ [c])) by apply incl_appr, incl_refl.
  unfold group_append in Hin.
  destruct (dict_get eqb groups key) as [l0|] eqn:E;
    apply (@sound_dict_set_in _ _ eqb Hs) in Hin;
    destruct Hin as [[-> ->]|Hin]; eauto.
  - apply (@sound_dict_get_in _ _ eqb Hs) in E.
    destruct (Hg key l0 E) as [H1 H2]. split.
    + rewrite map_app. apply NoDup_app; auto.
      * cbn [map]. constructor; [intros []|constructor].
      * intros x Hx [<-|[]]. apply Hc.
        apply in_map_iff in Hx. destruct Hx as (c0 & E0 & Hc0).
        rewrite <- E0. apply in_map. now apply H2.
    + apply incl_app; auto. now apply incl_appl.
  - split; auto. cbn [map]. constructor; [intros []|constructor].
Qed.

(** Distinct unit numbers in the batch stay distinct within every
    group. *)
Lemma transporter_groups_distinct (cs : list Container) (t : option string)
    (g : list Container) :
  NoDup (map unit_number cs) -> In (t, g) (transporter_groups cs) ->
  NoDup (map unit_number g).
Proof.
  unfold transporter_groups. intros Hnd Hin.
  assert (H : forall rest seen groups,
             NoDup (map unit_number (seen ++ rest)) ->
             (forall k l, In (k, l) groups ->
                          NoDup (map unit_number l) /\ incl l seen) ->
             forall k l,
               In (k, l)
                  (fold_left (fun g c => group_append oeqb g (transporter c) c)
                             rest groups) ->
               NoDup (map unit_number l) /\ incl l (seen ++ rest)).
  { induction rest as [|c rest IH]; intros seen groups Hn Hg k l;
      cbn [fold_left].
    - rewrite app_nil_r. apply Hg.
    - replace (seen ++ c :: rest) with ((seen ++ [c]) ++ rest) in *
        by now rewrite <- app_assoc.
      apply IH; auto.
      apply (@group_append_distinct (option string) oeqb groups
               (transporter c) c seen oeqb_sound Hg).
      apply (@NoDup_map_middle _ _ unit_number seen rest c).
      now rewrite <- app_assoc in Hn. }
  apply (H cs [] [] Hnd (fun k l (F : In (k, l) []) => match F with end)
           t g Hin).
Qed.

Lemma remaining_distinct (cs1 : list Container) (pm : PlacementMap) :
  NoDup (map unit_number cs1) ->
  NoDup (map unit_number (remaining_containers cs1 pm)).
Proof.
  unfold remaining_containers.
  induction cs1 as [|c cs1 IH]; cbn [map filter]; auto.
  intros H. inversion H as [|? ? Hout Hnd]; subst.
  destruct (negb (dict_mem String.eqb pm (unit_number c))); auto.
  cbn [map]. constructor; auto.
  intros Hin. apply Hout. apply in_map_iff in Hin.
  destruct Hin as (x & E & Hx). apply filter_In in Hx.
  rewrite <- E. apply in_map. tauto.
Qed.

Lemma initial_usage_zero (ar : Areas) :
  sumZ (dict_values (initial_usage ar)) = 0
  /\ forall n v, dict_get String.eqb (initial_usage ar) n = Some v -> v = 0.
Proof.
  induction ar as [|[k a] ar [IH1 IH2]]; cbn [initial_usage map].
  - split; [reflexivity | discriminate].
  - split.
    + unfold dict_values. cbn [map snd fst]. rewrite sumZ_cons.
      unfold dict_values, initial_usage in IH1. rewrite IH1. reflexivity.
    + intros n v. cbn [dict_get fst].
      destruct (String.eqb k n); [congruence | apply IH2].
Qed.

Lemma configured_keys (ar : Areas) (cfg : dict string (list Z)) :
  map fst (set_area_weight_classes ar cfg) = map fst ar.
Proof.
  rewrite <- !skeleton_keys. now rewrite set_area_weight_classes_skeleton.
Qed.

Lemma tally_start (areas : Areas) (cfg : dict string (list Z)) :
  tallied (map fst areas)
          (mkRunState (set_area_weight_classes areas cfg) []
                      (initial_usage (set_area_weight_classes areas cfg)) 0).
Proof.
  destruct (initial_usage_zero (set_area_weight_classes areas cfg))
    as [Hsum Hzero].
  constructor; cbn [rs_usage rs_map].
  - rewrite initial_usage_keys. apply configured_keys.
  - intros n v Hv. now rewrite (Hzero n v Hv).
  - rewrite Hsum. reflexivity.
Qed.

(** What [_compile_result] was called with at the end of a run. *)
Definition run_tally (op now : string) (areas : Areas) (out : RunOut)
  : Prop :=
  exists usage,
    _compile_result now (out_areas out) (out_containers out) (out_map out)
                    usage op = Ok (out_result out)
    /\ tallied (map fst areas)
               (mkRunState (out_areas out) (out_map out) usage 0).

Lemma import_run_tally (now : string) (rnd : Oracle) (k : nat)
    (areas : Areas) (cs : list Container) (cfg : dict string (list Z))
    (out : RunOut) :
  NoDup (map unit_number cs) ->
  optimize_import_layout now rnd k areas cs cfg = Ok out ->
  run_tally "IMPORT" now areas out.
Proof.
  unfold optimize_import_layout, run_tally, out_map. intros Hnd.
  pose proof (assign_weight_classes_units rnd cs k) as Hunits.
  destruct (assign_weight_classes rnd k cs) as [cs1 k1]. cbn [fst snd] in *.
  rewrite <- Hunits in Hnd.
  destruct (foldM import_group (transporter_groups cs1) _) as [st|e] eqn:Ef;
    cbn [bind]; [|discriminate].
  destruct (_compile_result now (rs_areas st) cs1 (rs_map st) (rs_usage st)
                            "IMPORT") as [r|e] eqn:Ec; cbn [bind];
    [|discriminate].
  intros H. inversion H; subst; clear H.
  cbn [out_containers out_areas out_result].
  destruct (compile_result_fields _ _ _ _ _ _ Ec) as (Hpm & _).
  rewrite Hpm. exists (rs_usage st). split; auto.
  apply (@foldM_preserves _ _ (tallied (map fst areas)) import_group
           (transporter_groups cs1)) in Ef.
  - destruct Ef as [H1 H2 H3]. constructor; auto.
  - intros s [t g] s' Hin Hs Hstep.
    apply (@import_group_tally (map fst areas) s s' t g); auto.
    now apply (@transporter_groups_distinct cs1 t g).
  - apply tally_start.
Qed.

Lemma export_run_tally (now : string) (rnd : Oracle) (k : nat)
    (areas : Areas) (cs : list Container) (cfg : dict string (list Z))
    (out : RunOut) :
  NoDup (map unit_number cs) ->
  optimize_export_layout now rnd k areas cs cfg = Ok out ->
  run_tally "EXPORT" now areas out.
Proof.
  unfold optimize_export_layout, run_tally, out_map. intros Hnd.
  pose proof (assign_weight_classes_units rnd cs k) as Hunits.
  destruct (assign_weight_classes rnd k cs) as [cs1 k1]. cbn [fst snd] in *.
  rewrite <- Hunits in Hnd.
  destruct (foldM export_port_group (port_groups cs1) _) as [st1|e] eqn:Ef;
    cbn [bind]; [|discriminate].
  destruct (foldM export_fallback_step _ st1) as [st|e] eqn:Eb;
    cbn [bind]; [|discriminate].
  destruct (_compile_result now (rs_areas st) cs1 (rs_map st) (rs_usage st)
                            "EXPORT") as [r|e] eqn:Ec; cbn [bind];
    [|discriminate].
  intros H. inversion H; subst; clear H.
  cbn [out_containers out_areas out_result].
  destruct (compile_result_fields _ _ _ _ _ _ Ec) as (Hpm & _).
  rewrite Hpm. exists (rs_usage st). split; auto.
  apply (@foldM_preserves _ _ (tallied (map fst areas)) export_port_group
           (port_groups cs1)) in Ef.
  - apply (@export_fallback_tally (map fst areas)
             (remaining_containers cs1 (rs_map st1)) st1 st) in Eb; auto.
    + destruct Eb as [H1 H2 H3]. constructor; auto.
    + now apply remaining_distinct.
    + apply Forall_forall. intros c Hc.
      now apply (@remaining_within cs1 (rs_map st1) c).
  - intros s g s' _ Hs Hstep.
    now apply (@export_port_group_tally (map fst areas) s s' g).
  - apply tally_start.
Qed.

(** ** The zones listed in a result *)

(** The entry that [_compile_result] writes for a zone whose counter is
    [v]. *)
Definition detail_of (a : YardArea) (v : Z) : AreaDetail :=
  mkAreaDetail v
    (inject_Z v / inject_Z (Z.of_nat (List.length (positions a))) * 100)%Q
    (allowed_weight_classes a).

Lemma dict_get_snoc {V} (d : dict string V) (k n : string) (v : V) :
  ~ In k (map fst d) ->
  dict_get String.eqb (d ++ [(k, v)]) n
  = if String.eqb k n then Some v else dict_get String.eqb d n.
Proof.
  induction d as [|[k1 v1] d IH]; cbn [app dict_get map fst In]; intros H.
  - reflexivity.
  - destruct (String.eqb_spec k1 n) as [->|Hne].
    + destruct (String.eqb_spec k n) as [->|_]; auto. exfalso. auto.
    + apply IH. auto.
Qed.

Lemma area_details_spec (areas : Areas) (usage : Usage)
    (d : dict string AreaDetail) :
  NoDup (map fst usage) ->
  foldM (area_detail_step areas) usage [] = Ok d ->
  forall n det,
    dict_get String.eqb d n = Some det
    <-> exists a v,
          dict_get String.eqb areas n = Some a
          /\ dict_get String.eqb usage n = Some v
          /\ 0 < v /\ det = detail_of a v.
Proof.
  intros Hnd Hfold.
  refine (@foldM_prefix (string * Z) (dict string AreaDetail)
           (fun pre acc =>
              forall n det,
                dict_get String.eqb acc n = Some det
                <-> exists a v,
                      dict_get String.eqb areas n = Some a
                      /\ dict_get String.eqb pre n = Some v
                      /\ 0 < v /\ det = detail_of a v)
           (area_detail_step areas) usage _ [] d _ Hfold).
  - intros pre [m v] post acc acc' Hl IH Hstep n det.
    assert (Hm : ~ In m (map fst pre)).
    { apply (@NoDup_map_middle _ _ fst pre post (m, v)). now rewrite <- Hl. }
    rewrite (@dict_get_snoc _ pre m n v Hm).
    unfold area_detail_step in Hstep.
    destruct (Z.ltb_spec 0 v) as [Hv|Hv].
    + unfold dict_lookup in Hstep.
      destruct (dict_get String.eqb areas m) as [a|] eqn:Ea;
        cbn [bind] in Hstep; [|discriminate].
      unfold py_div in Hstep.
      destruct (Z.of_nat (List.length (positions a)) =? 0);
        cbn [bind] in Hstep; [discriminate|].
      inversion Hstep; subst acc'; clear Hstep.
      destruct (String.eqb_spec m n) as [<-|Hne].
      * rewrite dict_get_set_same. split.
        -- intros E. inversion E; subst det. exists a, v. auto.
        -- intros (a' & v' & Ha' & Hv' & _ & ->).
           rewrite Ea in Ha'. inversion Ha'; inversion Hv'; subst.
           reflexivity.
      * rewrite dict_get_set_other by congruence. apply IH.
    + inversion Hstep; subst acc'; clear Hstep.
      destruct (String.eqb_spec m n) as [<-|Hne]; [|apply IH].
      split.
      * intros E. apply IH in E. destruct E as (a' & v' & _ & Hv' & _).
        exfalso. apply Hm. apply dict_get_some_in in Hv'.
        change m with (fst (m, v')). now apply in_map.
      * intros (a' & v' & _ & Hv' & Hpos & _). inversion Hv'; subst. lia.
  - intros n det. cbn [dict_get]. split; [discriminate|].
    intros (a & v & _ & Hv & _). discriminate.
Qed.

Lemma compile_result_details (now : string) (areas : Areas)
    (cs : list Container) (pm : PlacementMap) (usage : Usage) (op : string)
    (r : LayoutResult) :
  _compile_result now areas cs pm usage op = Ok r ->
  foldM (area_detail_step areas) usage [] = Ok (area_usage r)
  /\ (space_utilization r
      == inject_Z (sumZ (dict_values usage))
         / inject_Z (sumZ (map (fun a => Z.of_nat (List.length (positions a)))
                               (dict_values areas)))
         * 100)%Q.
Proof.
  unfold _compile_result. intros H.
  match type of H with
  | context [if 0 <? ?t then _ else _] =>
      destruct (Z.ltb_spec 0 t) as [Ht|Ht];
        [rewrite py_div_nonzero in H by lia; cbn [bind] in H|];
        cbn [bind] in H
  end;
    destruct (_calculate_grouping_efficiency pm op) as [q|e];
    cbn [bind] in H; try discriminate;
    destruct (foldM (area_detail_step areas) usage []) as [d|e];
    cbn [bind] in H; try discriminate;
    destruct (py_div _ _) as [eff|e] in H; cbn [bind] in H;
    try discriminate; inversion H; subst; clear H;
    cbn [area_usage space_utilization]; split; auto.
  - reflexivity.
  - match goal with
    | |- (_ == _ / inject_Z ?t * 100)%Q =>
        assert (E : t = 0)
    end.
    { apply Z.le_antisymm; auto.
      assert (Hge : forall l : list YardArea,
                 0 <= sumZ (map (fun a =>
                                   Z.of_nat (List.length (positions a))) l)).
      { induction l as [|a l IH]; [unfold sumZ; simpl; lia|].
        cbn [map]. rewrite sumZ_cons. lia. }
      apply Hge. }
    rewrite E. unfold Qeq, Qdiv, Qmult, Qinv. cbn. lia.
Qed.

(** X11.  Given a usage dictionary with distinct keys, a result that
    [_compile_result] returns lists in [area_usage] exactly the zones of
    the yard whose counter is positive, each with the counter as
    [containers_placed], the counter as a percentage of the zone's number
    of slots as [utilization] and the zone's permitted classes; a zone
    whose counter is zero is not listed. *)
Theorem result_lists_used_zones (now : string) (areas : Areas)
    (cs : list Container) (pm : PlacementMap) (usage : Usage) (op : string)
    (r : LayoutResult) :
  NoDup (map fst usage) ->
  _compile_result now areas cs pm usage op = Ok r ->
  forall n det,
    dict_get String.eqb (area_usage r) n = Some det
    <-> exists a v,
          dict_get String.eqb areas n = Some a
          /\ dict_get String.eqb usage n = Some v
          /\ 0 < v /\ det = detail_of a v.
Proof.
  intros Hnd Hc.
  destruct (compile_result_details _ _ _ _ _ _ Hc) as [Hd _].
  now apply area_details_spec.
Qed.

Definition two_in_M2 : Usage :=
  [("M1", 0); ("M2", 2); ("W1", 0); ("W2", 0); ("Q1", 0); ("Q2", 0)].

Definition two_in_M2_result : LayoutResult :=
  Eval vm_compute in
    match _compile_result "noon" _initialize_areas mixed_pair carrier_pair
                          two_in_M2 "IMPORT" with
    | Ok r => r
    | Raise _ => mkLayoutResult [] 0 0 0 [] 0 0 "" ""
    end.

Lemma result_lists_used_zones_witness :
  dict_get String.eqb (area_usage two_in_M2_result) "M2"
  = Some (detail_of (YardArea_init "M2" (Some [1; 2; 3; 4; 5; 6; 7; 8]) 5) 2)
  <-> exists a v,
        dict_get String.eqb _initialize_areas "M2" = Some a
        /\ dict_get String.eqb two_in_M2 "M2" = Some v
        /\ 0 < v
        /\ detail_of (YardArea_init "M2" (Some [1; 2; 3; 4; 5; 6; 7; 8]) 5) 2
           = detail_of a v.
Proof.
  apply (@result_lists_used_zones "noon" _initialize_areas mixed_pair
           carrier_pair two_in_M2 "IMPORT" two_in_M2_result).
  - repeat constructor; simpl; intuition discriminate.
  - vm_compute. reflexivity.
Defined.

(** What a result reports about the zones, in terms of its own map. *)
Definition usage_follows_map (out : RunOut) : Prop :=
  (forall n det,
      dict_get String.eqb (area_usage (out_result out)) n = Some det
      <-> exists a,
            dict_get String.eqb (out_areas out) n = Some a
            /\ 0 < zone_count n (out_map out)
            /\ det = detail_of a (zone_count n (out_map out)))
  /\ (space_utilization (out_result out)
      == inject_Z (total_placed (out_result out))
         / inject_Z (sumZ (map (fun a => Z.of_nat (List.length (positions a)))
                               (dict_values (out_areas out))))
         * 100)%Q.

Lemma run_tally_follows (op now : string) (areas : Areas) (out : RunOut) :
  NoDup (map fst areas) -> map fst (out_areas out) = map fst areas ->
  run_tally op now areas out -> usage_follows_map out.
Proof.
  intros Hnd Hkeys (usage & Hc & [Hk Hz Hs]). cbn [rs_usage rs_map] in *.
  destruct (compile_result_fields _ _ _ _ _ _ Hc) as (_ & Htp & _).
  destruct (compile_result_details _ _ _ _ _ _ Hc) as [Hd Hsp].
  split.
  - intros n det.
    rewrite (@area_details_spec (out_areas out) usage
               (area_usage (out_result out))) by (auto; now rewrite Hk).
    split.
    + intros (a & v & Ha & Hv & Hpos & ->).
      pose proof (Hz n v Hv) as E. rewrite <- E.
      exists a. repeat split; auto.
    + intros (a & Ha & Hpos & ->).
      assert (Hin : In n (map fst usage)).
      { rewrite Hk, <- Hkeys. apply dict_get_some_in in Ha.
        change n with (fst (n, a)). now apply in_map. }
      apply dict_get_in_keys in Hin. destruct Hin as [v Hv].
      pose proof (Hz n v Hv) as E. rewrite <- E in *.
      exists a, v. repeat split; auto.
  - rewrite Hsp, Hs, Htp. reflexivity.
Qed.

Lemma run_ledger_keys (rnd : Oracle) (k : nat) (areas : Areas)
    (cs : list Container) (cfg : dict string (list Z)) (out : RunOut) :
  run_ledger rnd k areas cs cfg out ->
  map fst (out_areas out) = map fst areas.
Proof.
  intros (_ & Hsteps & _). apply yard_steps_keys in Hsteps.
  rewrite Hsteps. apply configured_keys.
Qed.

(** X12.  On a yard with distinct zone names and a non-empty batch with
    distinct unit numbers, either strategy returns a result whose
    [area_usage] lists exactly the zones that hold at least one entry of the
    returned map, with the number of that zone's entries as
    [containers_placed] and that number as a percentage of the zone's slots
    as [utilization]; and whose [space_utilization] is the number placed as
    a percentage of the number of slots of the yard. *)
Theorem reported_usage_counts_map_entries (now : string) (rnd : Oracle)
    (k : nat) (areas : Areas) (cs : list Container)
    (cfg : dict string (list Z)) :
  NoDup (map fst areas) -> NoDup (map unit_number cs) ->
  cs <> [] -> stocked areas ->
  (exists out, optimize_import_layout now rnd k areas cs cfg = Ok out
               /\ usage_follows_map out)
  /\ (exists out, optimize_export_layout now rnd k areas cs cfg = Ok out
                  /\ usage_follows_map out).
Proof.
  intros Hka Hu Hcs Hst. split.
  - destruct (@import_run now rnd k areas cs cfg Hcs Hst) as (out & Hrun & _).
    exists out. split; auto.
    apply (@run_tally_follows "IMPORT" now areas out); auto.
    + apply (@run_ledger_keys rnd k areas cs cfg out).
      now apply (@import_run_ledger now).
    + now apply (@import_run_tally now rnd k areas cs cfg out).
  - destruct (@export_run now rnd k areas cs cfg Hcs Hst) as (out & Hrun & _).
    exists out. split; auto.
    apply (@run_tally_follows "EXPORT" now areas out); auto.
    + apply (@run_ledger_keys rnd k areas cs cfg out).
      now apply (@export_run_ledger now).
    + now apply (@export_run_tally now rnd k areas cs cfg out).
Qed.

Lemma reported_usage_counts_map_entries_witness :
  (exists out,
      optimize_import_layout "noon" no_random 0 _initialize_areas
                             mixed_pair [] = Ok out
      /\ usage_follows_map out)
  /\ (exists out,
         optimize_export_layout "noon" no_random 0 _initialize_areas
                                mixed_pair [] = Ok out
         /\ usage_follows_map out).
Proof.
  apply (@reported_usage_counts_map_entries "noon" no_random 0
           _initialize_areas mixed_pair []).
  - repeat constructor; simpl; intuition discriminate.
  - repeat constructor; simpl; intuition discriminate.
  - discriminate.
  - apply initialize_areas_stocked.
Defined.

(** Two containers under one unit number show why the unit numbers are
    required to be distinct: both are stacked and counted, one entry is
    kept. *)
Definition twins : list Container :=
  [ container_of "A1" "22G1" (Some "T1") (Some 10%Q) None "Standard";
    container_of "A1" "22G1" (Some "T1") (Some 10%Q) None "Standard" ].

Example twins_counted_twice :
  result_map
    (fun out =>
       (total_placed (out_result out),
        option_map containers_placed
                   (dict_get String.eqb (area_usage (out_result out)) "M1")))
    (optimize_import_layout "noon" no_random 0 _initialize_areas twins [])
  = Ok (1, Some 2).
Proof.
  vm_compute. reflexivity.
Qed.

(** ** The conflict resolver *)

(** The slot objects that a list of references stands for. *)
Definition referenced (a : YardArea) (refs : list nat) : list YardPosition :=
  flat_map (fun i => match nth_error (positions a) i with
                     | Some p => [p]
                     | None => []
                     end) refs.

Lemma available_from_referenced (c : Container) (awc : list Z)
    (ps pre : list YardPosition) :
  flat_map (fun i => match nth_error (pre ++ ps) i with
                     | Some p => [p]
                     | None => []
                     end)
           (available_from (List.length pre) ps c awc)
  = filter (fun p => can_place_container p c awc) ps.
Proof.
  revert pre. induction ps as [|p ps IH]; intros pre; cbn [available_from filter].
  - reflexivity.
  - assert (Hshift : pre ++ p :: ps = (pre ++ [p]) ++ ps)
      by now rewrite <- app_assoc.
    assert (Hlen : S (List.length pre) = List.length (pre ++ [p]))
      by (rewrite length_app; simpl; lia).
    destruct (can_place_container p c awc).
    + cbn [flat_map]. rewrite nth_error_app2 by lia.
      rewrite Nat.sub_diag. cbn [nth_error app]. f_equal.
      rewrite Hshift, Hlen. apply IH.
    + rewrite Hshift, Hlen. apply IH.
Qed.

Lemma search_results (a : YardArea) (c : Container) :
  referenced a (get_available_positions a c)
  = filter (fun p => can_place_container p c (allowed_weight_classes a))
           (positions a).
Proof.
  apply (@available_from_referenced c (allowed_weight_classes a)
           (positions a) []).
Qed.

Lemma filter_all_true (f : YardPosition -> bool) (l : list YardPosition) :
  Forall (fun p => f p = true) l -> filter f l = l.
Proof.
  induction 1 as [|p l Hp _ IH]; cbn [filter]; auto.
  rewrite Hp. now f_equal.
Qed.

(** X13.  [resolve_12m_6m_conflict] returns slots of the list it is given,
    and some slot whenever that list is not empty.  In a zone whose slots
    have the length category that the constructor derives from the row,
    it returns the result of [get_available_positions] unchanged, for every
    container: the slots that accept a 12 m container are on even rows
    already. *)
Theorem resolver_keeps_search_results (a : YardArea) (c : Container)
    (available : list YardPosition) :
  Forall (fun p => container_length p = _get_container_length (row p))
         (positions a) ->
  incl (resolve_12m_6m_conflict a c available) available
  /\ (available <> [] -> resolve_12m_6m_conflict a c available <> [])
  /\ resolve_12m_6m_conflict a c (referenced a (get_available_positions a c))
     = referenced a (get_available_positions a c).
Proof.
  intros Hbuilt. unfold resolve_12m_6m_conflict. split; [|split].
  - destruct (size c =? 12); [|apply incl_refl].
    destruct (filter _ available) as [|p l] eqn:E; [apply incl_refl|].
    rewrite <- E. intros x Hx. apply filter_In in Hx. tauto.
  - intros Hne. destruct (size c =? 12); auto.
    destruct (filter _ available) as [|p l] eqn:E; auto. discriminate.
  - rewrite search_results.
    destruct (Z.eqb_spec (size c) 12) as [Hsz|_]; auto.
    rewrite filter_all_true.
    + now destruct (filter _ (positions a)).
    + apply Forall_forall. intros p Hp. apply filter_In in Hp.
      destruct Hp as [Hin Hcan]. rewrite Forall_forall in Hbuilt.
      specialize (Hbuilt p Hin). unfold can_place_container in Hcan.
      rewrite Hbuilt, Hsz in Hcan. unfold _get_container_length in *.
      destruct (row p mod 4 =? 0); [discriminate|].
      destruct (row p mod 2 =? 0); [reflexivity|discriminate].
Qed.

Lemma resolver_keeps_search_results_witness :
  incl (resolve_12m_6m_conflict (YardArea_init "Q1" None 4) (reefer_long 0)
          [ground_slot])
       [ground_slot]
  /\ ([ground_slot] <> [] ->
      resolve_12m_6m_conflict (YardArea_init "Q1" None 4) (reefer_long 0)
        [ground_slot] <> [])
  /\ resolve_12m_6m_conflict (YardArea_init "Q1" None 4) (reefer_long 0)
       (referenced (YardArea_init "Q1" None 4)
          (get_available_positions (YardArea_init "Q1" None 4)
                                   (reefer_long 0)))
     = referenced (YardArea_init "Q1" None 4)
         (get_available_positions (YardArea_init "Q1" None 4)
                                  (reefer_long 0)).
Proof.
  apply (@resolver_keeps_search_results (YardArea_init "Q1" None 4)
           (reefer_long 0) [ground_slot]).
  cbn [YardArea_init positions].
  eapply Forall_impl; [|apply (initialize_positions_built "Q1" 4)].
  intros p (_ & H & _). exact H.
Defined.

(** ** The placement sequence *)

Section Grouping.
Variable K : Type.
Variable eqb : K -> K -> bool.
Variable kf : Container -> K.
Hypothesis eqb_iff : forall a b, eqb a b = true <-> a = b.

Lemma keyed_get_some (d : dict K (list Container)) (k : K)
    (v : list Container) :
  dict_get eqb d k = Some v ->
  exists pre post,
    d = pre ++ (k, v) :: post
    /\ forall v', dict_set eqb d k v' = pre ++ (k, v') :: post.
Proof.
  induction d as [|[k1 v1] d IH]; cbn [dict_get dict_set]; [discriminate|].
  destruct (eqb k1 k) eqn:E.
  - apply eqb_iff in E. subst k1. intros H. inversion H; subst.
    exists [], d. split; reflexivity.
  - intros H. destruct (IH H) as (pre & post & -> & Hset).
    exists ((k1, v1) :: pre), post. split; [reflexivity|].
    intros v'. rewrite Hset. reflexivity.
Qed.

Lemma keyed_get_none (d : dict K (list Container)) (k : K) :
  dict_get eqb d k = None ->
  ~ In k (map fst d) /\ forall v, dict_set eqb d k v = d ++ [(k, v)].
Proof.
  induction d as [|[k1 v1] d IH]; cbn [dict_get dict_set map fst In].
  - intros _. split; [tauto | reflexivity].
  - destruct (eqb k1 k) eqn:E; [discriminate|].
    intros H. destruct (IH H) as [Hout Hset]. split.
    + intros [->|Hin]; [|contradiction].
      assert (Ht : eqb k k = true) by now apply eqb_iff.
      congruence.
    + intros v. now rewrite Hset.
Qed.

(** The groups after the containers [seen] have been filed. *)
Record filed (seen : list Container) (groups : dict K (list Container))
  : Prop := mkFiled {
  filed_keys : NoDup (map fst groups);
  filed_members : forall k g,
      In (k, g) groups -> g = filter (fun c => eqb (kf c) k) seen;
  filed_all : forall c, In c seen -> In (kf c) (map fst groups);
  filed_perm : Permutation (List.concat (map snd groups)) seen
}.

Lemma filter_snoc_in (k : K) (seen : list Container) (c : Container) :
  filter (fun c0 => eqb (kf c0) k) (seen ++ [c])
  = filter (fun c0 => eqb (kf c0) k) seen
    ++ (if eqb (kf c) k then [c] else []).
Proof.
  rewrite filter_app. cbn [filter]. now destruct (eqb (kf c) k).
Qed.

Lemma filter_none_in (k : K) (l : list Container) :
  (forall c0, In c0 l -> eqb (kf c0) k = false) ->
  filter (fun c0 => eqb (kf c0) k) l = [].
Proof.
  induction l as [|a l IH]; cbn [filter]; intros H; auto.
  rewrite (H a) by now left. apply IH. intros c0 Hc0. apply H. now right.
Qed.

Lemma filed_step (seen : list Container) (groups : dict K (list Container))
    (c : Container) :
  filed seen groups ->
  filed (seen ++ [c]) (group_append eqb groups (kf c) c).
Proof.
  intros [Hk Hm Ha Hp]. unfold group_append.
  assert (Hrefl : eqb (kf c) (kf c) = true) by now apply eqb_iff.
  destruct (dict_get eqb groups (kf c)) as [l|] eqn:E.
  - destruct (keyed_get_some _ _ E) as (pre & post & -> & Hset).
    rewrite Hset. clear Hset E.
    rewrite map_app in Hk. cbn [map fst] in Hk.
    constructor.
    + rewrite map_app. exact Hk.
    + intros k g Hin. rewrite filter_snoc_in.
      assert (Hcase : (k = kf c /\ g = l ++ [c])
                      \/ (k <> kf c /\ In (k, g) (pre ++ (kf c, l) :: post))).
      { apply in_app_or in Hin. destruct Hin as [Hin|[Hin|Hin]].
        - right. split; [|apply in_or_app; now left].
          intros ->. apply NoDup_remove_2 in Hk. apply Hk.
          apply in_or_app. left.
          change (kf c) with (fst (kf c, g)). now apply in_map.
        - inversion Hin; subst. now left.
        - right. split; [|apply in_or_app; right; now right].
          intros ->. apply NoDup_remove_2 in Hk. apply Hk.
          apply in_or_app. right.
          change (kf c) with (fst (kf c, g)). now apply in_map. }
      destruct Hcase as [[-> ->]|[Hne Hold]].
      * rewrite Hrefl. f_equal. apply (Hm (kf c) l).
        apply in_or_app. right. now left.
      * destruct (eqb (kf c) k) eqn:Ek.
        -- apply eqb_iff in Ek. congruence.
        -- rewrite app_nil_r. now apply Hm.
    + intros c0 Hc0. rewrite map_app. cbn [map fst].
      apply in_app_or in Hc0. destruct Hc0 as [Hc0|[<-|[]]].
      * specialize (Ha c0 Hc0). now rewrite map_app in Ha.
      * apply in_or_app. right. now left.
    + rewrite map_app, concat_app in *. cbn [map snd List.concat] in *.
      apply Permutation_trans
        with ((List.concat (map snd pre) ++ l ++ List.concat (map snd post)) ++ [c]).
      * rewrite <- !app_assoc. do 2 apply Permutation_app_head.
        cbn [app]. apply Permutation_cons_append.
      * now apply Permutation_app_tail.
  - destruct (keyed_get_none _ _ E) as [Hout Hset]. rewrite Hset.
    constructor.
    + rewrite map_app. cbn [map fst]. apply NoDup_app; auto.
      * constructor; [intros []|constructor].
      * intros x Hx [<-|[]]. contradiction.
    + intros k g Hin. rewrite filter_snoc_in.
      apply in_app_or in Hin. destruct Hin as [Hin|[Hin|[]]].
      * destruct (eqb (kf c) k) eqn:Ek.
        -- apply eqb_iff in Ek. subst k. exfalso. apply Hout.
           change (kf c) with (fst (kf c, g)). now apply in_map.
        -- rewrite app_nil_r. now apply Hm.
      * inversion Hin; subst. rewrite Hrefl.
        rewrite filter_none_in; [reflexivity|].
        intros c0 Hc0.
        destruct (eqb (kf c0) (kf c)) eqn:E0; auto.
        apply eqb_iff in E0. exfalso. apply Hout. rewrite <- E0. now apply Ha.
    + intros c0 Hc0. rewrite map_app. cbn [map fst].
      apply in_app_or in Hc0. destruct Hc0 as [Hc0|[<-|[]]].
      * apply in_or_app. left. now apply Ha.
      * apply in_or_app. right. now left.
    + rewrite map_app, concat_app. cbn [map snd List.concat].
      rewrite app_nil_r. now apply Permutation_app_tail.
Qed.

Lemma filed_groups (cs : list Container) :
  filed cs (fold_left (fun g c => group_append eqb g (kf c) c) cs []).
Proof.
  assert (H : forall rest seen groups,
             filed seen groups ->
             filed (seen ++ rest)
                   (fold_left (fun g c => group_append eqb g (kf c) c)
                              rest groups)).
  { induction rest as [|c rest IH]; intros seen groups Hf; cbn [fold_left].
    - now rewrite app_nil_r.
    - replace (seen ++ c :: rest) with ((seen ++ [c]) ++ rest)
        by now rewrite <- app_assoc.
      apply IH. now apply filed_step. }
  apply (H cs [] []).
  constructor; cbn [map List.concat]; auto; try constructor;
    intros; contradiction.
Qed.
End Grouping.

(** The order of the keys, and keys that compare equal. *)
Definition key_le (k1 k2 : Z * Q) : Prop :=
  fst k1 < fst k2 \/ (fst k1 = fst k2 /\ (snd k1 <= snd k2)%Q).

Definition in_order (x y : Container) : Prop :=
  key_le (sequence_key x) (sequence_key y).

Definition same_rank (x y : Container) : bool :=
  (fst (sequence_key x) =? fst (sequence_key y))
  && Qeq_bool (snd (sequence_key x)) (snd (sequence_key y)).

Lemma key_lt_spec (k1 k2 : Z * Q) :
  key_lt k1 k2 = true
  <-> fst k1 < fst k2 \/ (fst k1 = fst k2 /\ (snd k1 < snd k2)%Q).
Proof.
  unfold key_lt. destruct (Z.eqb_spec (fst k1) (fst k2)) as [E|E].
  - rewrite andb_true_iff, !negb_true_iff.
    split.
    + intros [_ Hle]. right. split; auto. apply Qnot_le_lt. intros Hc.
      apply Qle_bool_iff in Hc. congruence.
    + intros [Hlt|[_ Hlt]]; [lia|]. split.
      * destruct (Qeq_bool (snd k1) (snd k2)) eqn:Eq; auto.
        apply Qeq_bool_iff in Eq. rewrite Eq in Hlt.
        now apply Qlt_irrefl in Hlt.
      * destruct (Qle_bool (snd k2) (snd k1)) eqn:El; auto.
        apply Qle_bool_iff in El. now apply Qle_not_lt in El.
  - rewrite Z.ltb_lt. split; [auto|]. intros [H|[H _]]; [auto|contradiction].
Qed.

Lemma key_lt_false (k1 k2 : Z * Q) : key_lt k2 k1 = false <-> key_le k1 k2.
Proof.
  unfold key_le. split.
  - intros H.
    destruct (Z.lt_trichotomy (fst k1) (fst k2)) as [Hlt|[Heq|Hgt]]; auto.
    + right. split; auto. apply Qnot_lt_le. intros Hc.
      assert (Ht : key_lt k2 k1 = true) by (apply key_lt_spec; auto).
      congruence.
    + assert (Ht : key_lt k2 k1 = true) by (apply key_lt_spec; auto).
      congruence.
  - intros H. destruct (key_lt k2 k1) eqn:E; auto.
    apply key_lt_spec in E. destruct H as [H|[H1 H2]], E as [E|[E1 E2]];
      try lia. now apply Qle_not_lt in H2.
Qed.

Lemma key_le_trans (k1 k2 k3 : Z * Q) :
  key_le k1 k2 -> key_le k2 k3 -> key_le k1 k3.
Proof.
  unfold key_le. intros [H|[H1 H2]] [G|[G1 G2]]; try (left; lia).
  right. split; [lia|]. now apply Qle_trans with (snd k2).
Qed.

Lemma insert_by_key_perm (x : Container) (l : list Container) :
  Permutation (insert_by_key x l) (x :: l).
Proof.
  induction l as [|y l IH]; cbn [insert_by_key]; auto.
  destruct (key_lt (sequence_key y) (sequence_key x)); auto.
  apply Permutation_trans with (y :: x :: l); [|apply perm_swap].
  now apply perm_skip.
Qed.

Lemma sort_by_key_perm (l : list Container) : Permutation (sort_by_key l) l.
Proof.
  induction l as [|x l IH]; cbn [sort_by_key fold_right]; auto.
  apply Permutation_trans with (x :: sort_by_key l).
  - apply insert_by_key_perm.
  - now apply perm_skip.
Qed.

Lemma insert_by_key_sorted (x : Container) (l : list Container) :
  Sorted in_order l -> Sorted in_order (insert_by_key x l).
Proof.
  induction l as [|y l IH]; cbn [insert_by_key]; intros Hs.
  - repeat constructor.
  - destruct (key_lt (sequence_key y) (sequence_key x)) eqn:E.
    + apply Sorted_inv in Hs. destruct Hs as [Hs Hhd].
      constructor; [now apply IH|].
      assert (Hyx : in_order y x).
      { apply key_lt_spec in E. unfold in_order, key_le.
        destruct E as [E|[E1 E2]]; auto. right. split; auto.
        now apply Qlt_le_weak. }
      destruct l as [|z l]; cbn [insert_by_key].
      * now constructor.
      * destruct (key_lt (sequence_key z) (sequence_key x));
          constructor; auto. now inversion Hhd.
    + constructor; auto. constructor. now apply key_lt_false.
Qed.

Lemma sort_by_key_sorted (l : list Container) :
  StronglySorted in_order (sort_by_key l).
Proof.
  apply Sorted_StronglySorted.
  - intros x y z. apply key_le_trans.
  - induction l as [|x l IH]; cbn [sort_by_key fold_right].
    + constructor.
    + now apply insert_by_key_sorted.
Qed.

Lemma same_rank_not_before (k x y : Container) :
  same_rank k x = true -> same_rank k y = true ->
  key_lt (sequence_key y) (sequence_key x) = false.
Proof.
  unfold same_rank. rewrite !andb_true_iff, !Z.eqb_eq, !Qeq_bool_iff.
  intros [H1 H2] [G1 G2]. apply key_lt_false. right. split; [lia|].
  rewrite <- H2, <- G2. apply Qle_refl.
Qed.

Lemma insert_by_key_stable (k x : Container) (l : list Container) :
  filter (same_rank k) (insert_by_key x l)
  = if same_rank k x then x :: filter (same_rank k) l
    else filter (same_rank k) l.
Proof.
  induction l as [|y l IH]; cbn [insert_by_key filter].
  - reflexivity.
  - destruct (key_lt (sequence_key y) (sequence_key x)) eqn:E;
      cbn [filter]; [|reflexivity].
    rewrite IH. destruct (same_rank k x) eqn:Ex; [|reflexivity].
    destruct (same_rank k y) eqn:Ey; [|reflexivity].
    rewrite (same_rank_not_before _ _ _ Ex Ey) in E. discriminate.
Qed.

Lemma sort_by_key_stable (k : Container) (l : list Container) :
  filter (same_rank k) (sort_by_key l) = filter (same_rank k) l.
Proof.
  induction l as [|x l IH]; cbn [sort_by_key fold_right filter]; auto.
  rewrite insert_by_key_stable. fold (sort_by_key l). rewrite IH.
  reflexivity.
Qed.

Lemma extend_sorted_concat {K} (grouped : dict K (list Container)) :
  extend_sorted grouped
  = List.concat (map (fun kv => sort_by_key (snd kv)) grouped).
Proof.
  unfold extend_sorted.
  assert (H : forall l acc,
             fold_left (fun optimized (kv : K * list Container) =>
                          optimized ++ sort_by_key (snd kv)) l acc
             = acc ++ List.concat (map (fun kv => sort_by_key (snd kv)) l)).
  { induction l as [|kv l IH]; intros acc; cbn [fold_left map List.concat].
    - now rewrite app_nil_r.
    - rewrite IH. now rewrite <- app_assoc. }
  apply (H grouped []).
Qed.

(** The result in blocks: one block for every group. *)
Definition in_blocks (same : Container -> Container -> bool)
    (cs result : list Container) : Prop :=
  exists blocks,
    result = List.concat blocks
    /\ Forall (fun b => forall x, In x b ->
                 b = sort_by_key (filter (same x) cs)) blocks
    /\ ForallOrdPairs (fun b1 b2 => forall x y, In x b1 -> In y b2 ->
                         same x y = false) blocks.

Section Blocks.
Variable K : Type.
Variable eqb : K -> K -> bool.
Variable kf : Container -> K.
Hypothesis eqb_iff : forall a b, eqb a b = true <-> a = b.

Lemma blocks_apart (groups : dict K (list Container)) :
  NoDup (map fst groups) ->
  (forall k g, In (k, g) groups -> forall c, In c g -> kf c = k) ->
  ForallOrdPairs (fun b1 b2 => forall x y, In x b1 -> In y b2 ->
                    eqb (kf y) (kf x) = false)
                 (map (fun kv => sort_by_key (snd kv)) groups).
Proof.
  induction groups as [|[k g] groups IH]; cbn [map fst snd];
    intros Hnd Hkey; constructor.
  - apply Forall_forall. intros b Hb x y Hx Hy.
    apply in_map_iff in Hb. destruct Hb as ([k2 g2] & <- & Hin).
    cbn [snd] in Hy.
    apply (Permutation_in _ (sort_by_key_perm g)) in Hx.
    apply (Permutation_in _ (sort_by_key_perm g2)) in Hy.
    rewrite (Hkey k g (or_introl eq_refl) x Hx).
    rewrite (Hkey k2 g2 (or_intror Hin) y Hy).
    destruct (eqb k2 k) eqn:E; auto. apply eqb_iff in E. subst k2.
    inversion Hnd as [|? ? Hout _]; subst. exfalso. apply Hout.
    change k with (fst (k, g2)). now apply in_map.
  - apply IH.
    + now inversion Hnd.
    + intros k2 g2 Hin. apply (Hkey k2 g2). now right.
Qed.

Lemma sorted_blocks_perm (groups : dict K (list Container)) :
  Permutation (List.concat (map (fun kv => sort_by_key (snd kv)) groups))
              (List.concat (map snd groups)).
Proof.
  induction groups as [|[k g] groups IH]; cbn [map List.concat snd]; auto.
  apply Permutation_app; auto. apply sort_by_key_perm.
Qed.

Lemma grouped_then_sorted (cs : list Container) :
  Permutation
    (extend_sorted (fold_left (fun g c => group_append eqb g (kf c) c) cs []))
    cs
  /\ in_blocks (fun x c => eqb (kf c) (kf x)) cs
       (extend_sorted
          (fold_left (fun g c => group_append eqb g (kf c) c) cs [])).
Proof.
  destruct (@filed_groups K eqb kf eqb_iff cs) as [Hk Hm Ha Hp].
  set (groups := fold_left (fun g c => group_append eqb g (kf c) c) cs [])
    in *.
  rewrite extend_sorted_concat.
  assert (Hkey : forall k g, In (k, g) groups ->
                             forall c, In c g -> kf c = k).
  { intros k g Hin c Hc. rewrite (Hm k g Hin) in Hc.
    apply filter_In in Hc. now apply eqb_iff. }
  split.
  - eapply Permutation_trans; [apply sorted_blocks_perm | exact Hp].
  - exists (map (fun kv => sort_by_key (snd kv)) groups).
    split; [reflexivity|]. split.
    + apply Forall_forall. intros b Hb x Hx.
      apply in_map_iff in Hb. destruct Hb as ([k g] & <- & Hin).
      cbn [snd] in *.
      apply (Permutation_in _ (sort_by_key_perm g)) in Hx.
      rewrite (Hkey k g Hin x Hx). f_equal. now apply Hm.
    + now apply blocks_apart.
Qed.
End Blocks.

Lemma oeqb_iff (a b : option string) : oeqb a b = true <-> a = b.
Proof.
  split; [apply oeqb_sound|]. intros ->. destruct b as [s|]; cbn [oeqb]; auto.
  apply String.eqb_refl.
Qed.

Lemma port_class_eqb_iff (a b : option string * Z) :
  port_class_eqb a b = true <-> a = b.
Proof.
  unfold port_class_eqb. rewrite andb_true_iff, oeqb_iff, Z.eqb_eq.
  destruct a, b; cbn [fst snd]. split.
  - intros [-> ->]. reflexivity.
  - intros E. inversion E. auto.
Qed.

(** The containers that [optimize_placement_sequence] puts in one group:
    those of the same carrier for IMPORT, those of the same port and weight
    class otherwise. *)
Definition same_group (operation_type : string) (x c : Container) : bool :=
  if String.eqb operation_type "IMPORT"
  then oeqb (transporter c) (transporter x)
  else port_class_eqb (port c, weight_class c) (port x, weight_class x).

(** X14.  [optimize_placement_sequence] returns a permutation of its
    input.  The result is a sequence of blocks: a block holds the containers
    of one group (one carrier for IMPORT, one port and weight class for
    every other operation type), no two blocks share a group, and a block
    is its group in input order, sorted.  The sort puts a list in ascending
    order of priority and, within a priority, of descending weight, and
    keeps the input order of containers whose keys are equal. *)
Theorem sequence_groups_then_sorts (cs : list Container) (op : string) :
  Permutation (optimize_placement_sequence cs op) cs
  /\ in_blocks (same_group op) cs (optimize_placement_sequence cs op)
  /\ forall l,
       Permutation (sort_by_key l) l
       /\ StronglySorted in_order (sort_by_key l)
       /\ forall k, filter (same_rank k) (sort_by_key l)
                    = filter (same_rank k) l.
Proof.
  split; [|split].
  - unfold optimize_placement_sequence. destruct (String.eqb op "IMPORT").
    + apply (@grouped_then_sorted _ oeqb transporter oeqb_iff cs).
    + apply (@grouped_then_sorted _ port_class_eqb
               (fun c => (port c, weight_class c)) port_class_eqb_iff cs).
  - unfold optimize_placement_sequence, same_group.
    destruct (String.eqb op "IMPORT").
    + apply (@grouped_then_sorted _ oeqb transporter oeqb_iff cs).
    + apply (@grouped_then_sorted _ port_class_eqb
               (fun c => (port c, weight_class c)) port_class_eqb_iff cs).
  - intros l. split; [apply sort_by_key_perm|].
    split; [apply sort_by_key_sorted|]. intros k. apply sort_by_key_stable.
Qed.
